(** * MeshQualityAnalyzer: a shallow embedding and its verified properties

    The analyzer of [src/analyzer/MeshQualityAnalyzer.h] is embedded as
    pure functions over an explicit analyzer state.  Single-precision
    arithmetic is the IEEE 754 binary32 format of [SpecFloat] (24-bit
    significand, round to nearest even, one rounding per operation);
    the one double-precision operation of the source (division by
    [M_PI]) is binary64.  [std::acos] has no bit-exact specification
    and is a section variable. *)

From Stdlib Require Import ZArith List Bool Lia PeanoNat QArith Qabs Sorted.
From Stdlib Require Import Floats.SpecFloat.
From Stdlib Require Strings.String Strings.Ascii DecimalString.
Import ListNotations.
Import String.StringSyntax.

Local Close Scope Q_scope.

(** ** Single- and double-precision arithmetic *)

Local Open Scope Z_scope.

Module F32.
Definition prec : Z := 24.
Definition emax : Z := 128.

Definition float := spec_float.

Definition add : float -> float -> float := SFadd prec emax.
Definition sub : float -> float -> float := SFsub prec emax.
Definition mul : float -> float -> float := SFmul prec emax.
Definition div : float -> float -> float := SFdiv prec emax.
Definition sqrt : float -> float := SFsqrt prec emax.
Definition abs : float -> float := SFabs.
Definition neg : float -> float := SFopp.

(** [a < b], [a > b] and [a >= b] of C++; all false on NaN. *)
Definition lt (a b : float) : bool := SFltb a b.
Definition gt (a b : float) : bool := SFltb b a.
Definition ge (a b : float) : bool := SFleb b a.

(** [std::min(a, b)] is [(b < a) ? b : a], [std::max(a, b)] is
      [(a < b) ? b : a]; the initializer-list [std::max] scans from the
      left keeping the running largest element. *)
Definition std_min (a b : float) : float := if lt b a then b else a.
Definition std_max (a b : float) : float := if lt a b then b else a.
Definition std_max3 (a b c : float) : float := std_max (std_max a b) c.

(** Conversion of an integer ([size_t], [int]) to [float]. *)
Definition of_Z (n : Z) : float := binary_normalize prec emax n 0 false.
Definition of_size_t (n : nat) : float := of_Z (Z.of_nat n).

(** A decimal literal [n/d] with [n] and [d] below [2^24]: the
      correctly rounded quotient. *)
Definition literal (n d : Z) : float := div (of_Z n) (of_Z d).

Definition FLT_MAX : float := SFmax_float prec emax.
Definition zero : float := S754_zero false.
Definition one : float := Eval vm_compute in of_Z 1.
Definition two : float := Eval vm_compute in of_Z 2.
Definition half : float := Eval vm_compute in literal 1 2.
Definition lit_1em6 : float := Eval vm_compute in literal 1 1000000.
Definition lit_1em5 : float := Eval vm_compute in literal 1 100000.
Definition lit_1em4 : float := Eval vm_compute in literal 1 10000.
Definition lit_0p1 : float := Eval vm_compute in literal 1 10.

Definition valid (f : float) : bool := valid_binary prec emax f.

Definition is_finite (f : float) : bool :=
    match f with
    | S754_zero _ | S754_finite _ _ _ => true
    | _ => false
    end.

Definition is_nan (f : float) : bool :=
    match f with S754_nan => true | _ => false end.

(** The exact rational value of a finite float. *)
Definition to_Q (f : float) : Q :=
    match f with
    | S754_finite s m e =>
        let n := if s then Zneg m else Zpos m in
        match e with
        | Z0 => inject_Z n
        | Zpos p => inject_Z (n * 2 ^ Zpos p)
        | Zneg p => Qmake n (2 ^ p)%positive
        end
    | _ => 0%Q
    end.
End F32.

Module F64.
Definition prec : Z := 53.
Definition emax : Z := 1024.

Definition div : spec_float -> spec_float -> spec_float := SFdiv prec emax.

(** [float] to [double]: exact. *)
Definition of_float (f : F32.float) : spec_float :=
    match f with
    | S754_finite s m e => binary_normalize prec emax (cond_Zopp s (Zpos m)) e false
    | _ => f
    end.

(** [double] to [float]: rounds to nearest even. *)
Definition to_float (d : spec_float) : F32.float :=
    match d with
    | S754_finite s m e => binary_normalize F32.prec F32.emax (cond_Zopp s (Zpos m)) e false
    | _ => d
    end.

(** [M_PI], 3.14159265358979323846 as a double. *)
Definition M_PI : spec_float := S754_finite false 7074237752028440 (-51).
End F64.

Local Close Scope Z_scope.

Abbreviation float := F32.float.

(** ** Data model *)

(** Modelled from the spec: [Mesh.h] is not among the sources; a vertex
    carries a position, a shading normal and a texture coordinate, a
    face carries its vertex indices and its texture-coordinate indices,
    as the analyzer reads them. *)
Module Vertex.
Record t := mk {
    x : float; y : float; z : float;
    nx : float; ny : float; nz : float;
    u : float; v : float }.
End Vertex.

Record Face := {
  vertexIndices : list nat;
  texCoordIndices : list nat }.

Record Mesh := {
  getVertices : list Vertex.t;
  getFaces : list Face }.

Inductive IssueType :=
| DEGENERATE_FACE
| HIGH_ASPECT_RATIO
| OVERLAPPING_VERTICES
| NON_MANIFOLD_EDGE
| INVERTED_NORMAL
| HIGH_VALENCE_VERTEX
| LOW_VALENCE_VERTEX
| TEXTURE_STRETCH
| SHARP_ANGLE.

Definition IssueType_eqb (a b : IssueType) : bool :=
  match a, b with
  | DEGENERATE_FACE, DEGENERATE_FACE
  | HIGH_ASPECT_RATIO, HIGH_ASPECT_RATIO
  | OVERLAPPING_VERTICES, OVERLAPPING_VERTICES
  | NON_MANIFOLD_EDGE, NON_MANIFOLD_EDGE
  | INVERTED_NORMAL, INVERTED_NORMAL
  | HIGH_VALENCE_VERTEX, HIGH_VALENCE_VERTEX
  | LOW_VALENCE_VERTEX, LOW_VALENCE_VERTEX
  | TEXTURE_STRETCH, TEXTURE_STRETCH
  | SHARP_ANGLE, SHARP_ANGLE => true
  | _, _ => false
  end.

Record MeshIssue := {
  type : IssueType;
  elementIndex : nat;
  severity : float;
  relatedElements : list nat }.

(** The two counters are [size_t]: 64-bit, wrapping on increment. *)
Definition SIZE_MOD : Z := (2 ^ 64)%Z.
Definition size_t_incr (c : Z) : Z := ((c + 1) mod SIZE_MOD)%Z.

Record MeshQualityMetrics := {
  minFaceArea : float;
  maxFaceArea : float;
  avgFaceArea : float;
  minAspectRatio : float;
  maxAspectRatio : float;
  avgAspectRatio : float;
  minDihedralAngle : float;
  maxDihedralAngle : float;
  nonManifoldEdgeCount : Z;
  degenerateFaceCount : Z;
  uvStretchFactor : float }.

(** [std::map<std::pair<size_t,size_t>, std::vector<size_t>>]: entries
    kept in ascending key order, which is the order a range-for visits
    them in. *)
Definition Edge : Type := nat * nat.
Definition EdgeFaceMap : Type := list (Edge * list nat).

Record Analyzer := {
  minQualityThreshold : float;
  issues : list MeshIssue;
  metrics : MeshQualityMetrics;
  edgeFaceMap : EdgeFaceMap;
  vertexConnectivity : list (list nat) }.

Definition set_issues (a : Analyzer) (l : list MeshIssue) : Analyzer :=
  {| minQualityThreshold := minQualityThreshold a;
     issues := l;
     metrics := metrics a;
     edgeFaceMap := edgeFaceMap a;
     vertexConnectivity := vertexConnectivity a |}.

Definition set_metrics (a : Analyzer) (q : MeshQualityMetrics) : Analyzer :=
  {| minQualityThreshold := minQualityThreshold a;
     issues := issues a;
     metrics := q;
     edgeFaceMap := edgeFaceMap a;
     vertexConnectivity := vertexConnectivity a |}.

Definition set_topology (a : Analyzer) (efm : EdgeFaceMap) (vc : list (list nat)) : Analyzer :=
  {| minQualityThreshold := minQualityThreshold a;
     issues := issues a;
     metrics := metrics a;
     edgeFaceMap := efm;
     vertexConnectivity := vc |}.

Definition push_issue (a : Analyzer) (i : MeshIssue) : Analyzer :=
  set_issues a (issues a ++ [i]).

(** The constructor: every minimum starts at the largest float, every
    maximum, average and counter at zero. *)
Definition initial_metrics : MeshQualityMetrics :=
  {| minFaceArea := F32.FLT_MAX;
     maxFaceArea := F32.zero;
     avgFaceArea := F32.zero;
     minAspectRatio := F32.FLT_MAX;
     maxAspectRatio := F32.zero;
     avgAspectRatio := F32.zero;
     minDihedralAngle := F32.FLT_MAX;
     maxDihedralAngle := F32.zero;
     nonManifoldEdgeCount := 0%Z;
     degenerateFaceCount := 0%Z;
     uvStretchFactor := F32.zero |}.

Definition MeshQualityAnalyzer (threshold : float) : Analyzer :=
  {| minQualityThreshold := threshold;
     issues := [];
     metrics := initial_metrics;
     edgeFaceMap := [];
     vertexConnectivity := [] |}.

(** Reading [vertices[i]] and [faces[i]]: an index out of range is
    undefined behaviour in the source; the model reads a vertex at the
    origin, respectively an empty face, there. *)
Definition origin : Vertex.t :=
  Vertex.mk F32.zero F32.zero F32.zero F32.zero F32.zero F32.zero F32.zero F32.zero.

Definition vertexAt (m : Mesh) (i : nat) : Vertex.t := nth i (getVertices m) origin.

Definition emptyFace : Face := {| vertexIndices := []; texCoordIndices := [] |}.

Definition faceAt (m : Mesh) (i : nat) : Face := nth i (getFaces m) emptyFace.

(** The elements of a vector paired with their positions, as an indexed
    [for] loop visits them. *)
Definition indexed {A : Type} (l : list A) : list (nat * A) :=
  combine (seq 0 (length l)) l.

(** ** Topology builder *)

(** The ordering of [std::pair<size_t,size_t>]: lexicographic. *)
Definition Edge_compare (a b : Edge) : comparison :=
  match Nat.compare (fst a) (fst b) with
  | Eq => Nat.compare (snd a) (snd b)
  | c => c
  end.

(** [edgeFaceMap[key].push_back(faceIdx)]: [operator[]] creates an
    empty vector under a key that is absent. *)
Fixpoint edgeFaceMap_push (key : Edge) (faceIdx : nat) (efm : EdgeFaceMap) : EdgeFaceMap :=
  match efm with
  | [] => [(key, [faceIdx])]
  | (k, fs) :: rest =>
      match Edge_compare key k with
      | Lt => (key, [faceIdx]) :: efm
      | Eq => (k, fs ++ [faceIdx]) :: rest
      | Gt => (k, fs) :: edgeFaceMap_push key faceIdx rest
      end
  end.

(** [vec[i] = x]; the source has undefined behaviour out of range, the
    model leaves the vector as it is there. *)
Fixpoint replace_at {A : Type} (i : nat) (x : A) (l : list A) : list A :=
  match l, i with
  | [], _ => []
  | _ :: t, O => x :: t
  | h :: t, S i' => h :: replace_at i' x t
  end.

(** [if (std::find(vc[a].begin(), vc[a].end(), b) == vc[a].end())
    vc[a].push_back(b)]. *)
Definition connect (a b : nat) (vc : list (list nat)) : list (list nat) :=
  if existsb (Nat.eqb b) (nth a vc [])
  then vc
  else replace_at a (nth a vc [] ++ [b]) vc.

Definition Topology : Type := EdgeFaceMap * list (list nat).

(** The body of the inner loop of [buildTopology] at ring position [i]. *)
Definition walkEdge (faceIdx : nat) (ring : list nat) (t : Topology) (i : nat) : Topology :=
  let v1 := nth i ring 0 in
  let v2 := nth ((i + 1) mod length ring) ring 0 in
  let '(v1, v2) := if v2 <? v1 then (v2, v1) else (v1, v2) in
  let efm := edgeFaceMap_push (v1, v2) faceIdx (fst t) in
  let vc := connect v1 v2 (snd t) in
  let vc := connect v2 v1 vc in
  (efm, vc).

Definition walkFace (t : Topology) (f : nat * Face) : Topology :=
  let ring := vertexIndices (snd f) in
  fold_left (walkEdge (fst f) ring) (seq 0 (length ring)) t.

Definition buildTopology (m : Mesh) (a : Analyzer) : Analyzer :=
  let t := fold_left walkFace (indexed (getFaces m))
             ([], repeat [] (length (getVertices m))) in
  set_topology a (fst t) (snd t).

(** ** Geometric primitives *)

Definition calculateTriangleArea (m : Mesh) (v1Idx v2Idx v3Idx : nat) : float :=
  let v1 := vertexAt m v1Idx in
  let v2 := vertexAt m v2Idx in
  let v3 := vertexAt m v3Idx in
  let ax := F32.sub (Vertex.x v2) (Vertex.x v1) in
  let ay := F32.sub (Vertex.y v2) (Vertex.y v1) in
  let az := F32.sub (Vertex.z v2) (Vertex.z v1) in
  let bx := F32.sub (Vertex.x v3) (Vertex.x v1) in
  let by_ := F32.sub (Vertex.y v3) (Vertex.y v1) in
  let bz := F32.sub (Vertex.z v3) (Vertex.z v1) in
  let cx := F32.sub (F32.mul ay bz) (F32.mul az by_) in
  let cy := F32.sub (F32.mul az bx) (F32.mul ax bz) in
  let cz := F32.sub (F32.mul ax by_) (F32.mul ay bx) in
  F32.mul F32.half
    (F32.sqrt (F32.add (F32.add (F32.mul cx cx) (F32.mul cy cy)) (F32.mul cz cz))).

(** [dx*dx + dy*dy + dz*dz] between two vertices. *)
Definition squaredDistance (v1 v2 : Vertex.t) : float :=
  let dx := F32.sub (Vertex.x v2) (Vertex.x v1) in
  let dy := F32.sub (Vertex.y v2) (Vertex.y v1) in
  let dz := F32.sub (Vertex.z v2) (Vertex.z v1) in
  F32.add (F32.add (F32.mul dx dx) (F32.mul dy dy)) (F32.mul dz dz).

Definition calculateDistance (m : Mesh) (v1Idx v2Idx : nat) : float :=
  F32.sqrt (squaredDistance (vertexAt m v1Idx) (vertexAt m v2Idx)).

Definition triangleMinHeight (area maxEdge : float) : float :=
  if F32.gt area F32.lit_1em6
  then F32.div (F32.mul F32.two area) maxEdge
  else F32.zero.

Definition calculateAspectRatio (m : Mesh) (v1Idx v2Idx v3Idx : nat) : float :=
  let edge1 := calculateDistance m v1Idx v2Idx in
  let edge2 := calculateDistance m v2Idx v3Idx in
  let edge3 := calculateDistance m v3Idx v1Idx in
  let maxEdge := F32.std_max3 edge1 edge2 edge3 in
  let area := calculateTriangleArea m v1Idx v2Idx v3Idx in
  let minHeight := triangleMinHeight area maxEdge in
  if F32.gt minHeight F32.lit_1em6
  then F32.div maxEdge minHeight
  else F32.FLT_MAX.

(** The first vertex of a ring that is on neither end of the shared
    edge; [0] when the loop finds none. *)
Definition nonSharedVertex (ring : list nat) (sharedV1Idx sharedV2Idx : nat) : nat :=
  match find (fun idx => negb (idx =? sharedV1Idx) && negb (idx =? sharedV2Idx)) ring with
  | Some idx => idx
  | None => 0
  end.

(** The unit normal of the triangle [v1 v2 w], left as it is when its
    length is not above [1e-6]. *)
Definition edgeNormal (v1 v2 w : Vertex.t) : float * float * float :=
  let ax := F32.sub (Vertex.x v2) (Vertex.x v1) in
  let ay := F32.sub (Vertex.y v2) (Vertex.y v1) in
  let az := F32.sub (Vertex.z v2) (Vertex.z v1) in
  let bx := F32.sub (Vertex.x w) (Vertex.x v1) in
  let by_ := F32.sub (Vertex.y w) (Vertex.y v1) in
  let bz := F32.sub (Vertex.z w) (Vertex.z v1) in
  let n_x := F32.sub (F32.mul ay bz) (F32.mul az by_) in
  let n_y := F32.sub (F32.mul az bx) (F32.mul ax bz) in
  let n_z := F32.sub (F32.mul ax by_) (F32.mul ay bx) in
  let len := F32.sqrt (F32.add (F32.add (F32.mul n_x n_x) (F32.mul n_y n_y)) (F32.mul n_z n_z)) in
  if F32.gt len F32.lit_1em6
  then (F32.div n_x len, F32.div n_y len, F32.div n_z len)
  else (n_x, n_y, n_z).

Definition dot3 (a b : float * float * float) : float :=
  let '(ax, ay, az) := a in
  let '(bx, by_, bz) := b in
  F32.add (F32.add (F32.mul ax bx) (F32.mul ay by_)) (F32.mul az bz).

Definition clampUnit (d : float) : float :=
  F32.std_max (F32.neg F32.one) (F32.std_min F32.one d).

Section Analysis.

(** [std::acos] on [float]. *)
Variable acosf : float -> float.

(** [std::acos(d) * 180.0f / M_PI]: the product is single precision,
    the quotient double precision, the returned value single again. *)
Definition degrees (d : float) : float :=
  F64.to_float (F64.div (F64.of_float (F32.mul (acosf d) (F32.of_Z 180))) F64.M_PI).

Definition calculateDihedralAngle (m : Mesh)
    (face1Idx face2Idx sharedV1Idx sharedV2Idx : nat) : float :=
  let nonSharedV1 :=
    nonSharedVertex (vertexIndices (faceAt m face1Idx)) sharedV1Idx sharedV2Idx in
  let nonSharedV2 :=
    nonSharedVertex (vertexIndices (faceAt m face2Idx)) sharedV1Idx sharedV2Idx in
  let v1 := vertexAt m sharedV1Idx in
  let v2 := vertexAt m sharedV2Idx in
  let v3 := vertexAt m nonSharedV1 in
  let v4 := vertexAt m nonSharedV2 in
  let n1 := edgeNormal v1 v2 v3 in
  let n2 := edgeNormal v1 v2 v4 in
  degrees (clampUnit (dot3 n1 n2)).

Definition uvArea (v1 v2 v3 : Vertex.t) : float :=
  let u1 := Vertex.u v1 in let v1uv := Vertex.v v1 in
  let u2 := Vertex.u v2 in let v2uv := Vertex.v v2 in
  let u3 := Vertex.u v3 in let v3uv := Vertex.v v3 in
  F32.mul F32.half
    (F32.abs (F32.sub (F32.mul (F32.sub u2 u1) (F32.sub v3uv v1uv))
                      (F32.mul (F32.sub u3 u1) (F32.sub v2uv v1uv)))).

Definition calculateUVStretch (m : Mesh) (faceIdx : nat) : float :=
  let face := faceAt m faceIdx in
  if (length (vertexIndices face) <? 3) || (length (texCoordIndices face) <? 3)
  then F32.zero
  else
    let v1Idx := nth 0 (vertexIndices face) 0 in
    let v2Idx := nth 1 (vertexIndices face) 0 in
    let v3Idx := nth 2 (vertexIndices face) 0 in
    let surfaceArea := calculateTriangleArea m v1Idx v2Idx v3Idx in
    let uvA := uvArea (vertexAt m v1Idx) (vertexAt m v2Idx) (vertexAt m v3Idx) in
    if F32.lt surfaceArea F32.lit_1em6 || F32.lt uvA F32.lit_1em6
    then F32.zero
    else F32.std_max (F32.div surfaceArea uvA) (F32.div uvA surfaceArea).

(** ** Detection passes *)

(** The three local accumulators of the area and aspect-ratio loops. *)
Record RunningStats := {
  total : float;
  smallest : float;
  largest : float }.

Definition startStats : RunningStats :=
  {| total := F32.zero; smallest := F32.FLT_MAX; largest := F32.zero |}.

Definition observe (rs : RunningStats) (x : float) : RunningStats :=
  {| total := F32.add (total rs) x;
     smallest := F32.std_min (smallest rs) x;
     largest := F32.std_max (largest rs) x |}.

Definition set_faceArea (q : MeshQualityMetrics) (lo hi avg : float) : MeshQualityMetrics :=
  {| minFaceArea := lo; maxFaceArea := hi; avgFaceArea := avg;
     minAspectRatio := minAspectRatio q; maxAspectRatio := maxAspectRatio q;
     avgAspectRatio := avgAspectRatio q;
     minDihedralAngle := minDihedralAngle q; maxDihedralAngle := maxDihedralAngle q;
     nonManifoldEdgeCount := nonManifoldEdgeCount q;
     degenerateFaceCount := degenerateFaceCount q;
     uvStretchFactor := uvStretchFactor q |}.

Definition set_aspectRatio (q : MeshQualityMetrics) (lo hi avg : float) : MeshQualityMetrics :=
  {| minFaceArea := minFaceArea q; maxFaceArea := maxFaceArea q; avgFaceArea := avgFaceArea q;
     minAspectRatio := lo; maxAspectRatio := hi; avgAspectRatio := avg;
     minDihedralAngle := minDihedralAngle q; maxDihedralAngle := maxDihedralAngle q;
     nonManifoldEdgeCount := nonManifoldEdgeCount q;
     degenerateFaceCount := degenerateFaceCount q;
     uvStretchFactor := uvStretchFactor q |}.

Definition set_minDihedralAngle (q : MeshQualityMetrics) (x : float) : MeshQualityMetrics :=
  {| minFaceArea := minFaceArea q; maxFaceArea := maxFaceArea q; avgFaceArea := avgFaceArea q;
     minAspectRatio := minAspectRatio q; maxAspectRatio := maxAspectRatio q;
     avgAspectRatio := avgAspectRatio q;
     minDihedralAngle := x; maxDihedralAngle := maxDihedralAngle q;
     nonManifoldEdgeCount := nonManifoldEdgeCount q;
     degenerateFaceCount := degenerateFaceCount q;
     uvStretchFactor := uvStretchFactor q |}.

Definition set_maxDihedralAngle (q : MeshQualityMetrics) (x : float) : MeshQualityMetrics :=
  {| minFaceArea := minFaceArea q; maxFaceArea := maxFaceArea q; avgFaceArea := avgFaceArea q;
     minAspectRatio := minAspectRatio q; maxAspectRatio := maxAspectRatio q;
     avgAspectRatio := avgAspectRatio q;
     minDihedralAngle := minDihedralAngle q; maxDihedralAngle := x;
     nonManifoldEdgeCount := nonManifoldEdgeCount q;
     degenerateFaceCount := degenerateFaceCount q;
     uvStretchFactor := uvStretchFactor q |}.

Definition set_nonManifoldEdgeCount (q : MeshQualityMetrics) (c : Z) : MeshQualityMetrics :=
  {| minFaceArea := minFaceArea q; maxFaceArea := maxFaceArea q; avgFaceArea := avgFaceArea q;
     minAspectRatio := minAspectRatio q; maxAspectRatio := maxAspectRatio q;
     avgAspectRatio := avgAspectRatio q;
     minDihedralAngle := minDihedralAngle q; maxDihedralAngle := maxDihedralAngle q;
     nonManifoldEdgeCount := c;
     degenerateFaceCount := degenerateFaceCount q;
     uvStretchFactor := uvStretchFactor q |}.

Definition set_degenerateFaceCount (q : MeshQualityMetrics) (c : Z) : MeshQualityMetrics :=
  {| minFaceArea := minFaceArea q; maxFaceArea := maxFaceArea q; avgFaceArea := avgFaceArea q;
     minAspectRatio := minAspectRatio q; maxAspectRatio := maxAspectRatio q;
     avgAspectRatio := avgAspectRatio q;
     minDihedralAngle := minDihedralAngle q; maxDihedralAngle := maxDihedralAngle q;
     nonManifoldEdgeCount := nonManifoldEdgeCount q;
     degenerateFaceCount := c;
     uvStretchFactor := uvStretchFactor q |}.

Definition set_uvStretchFactor (q : MeshQualityMetrics) (x : float) : MeshQualityMetrics :=
  {| minFaceArea := minFaceArea q; maxFaceArea := maxFaceArea q; avgFaceArea := avgFaceArea q;
     minAspectRatio := minAspectRatio q; maxAspectRatio := maxAspectRatio q;
     avgAspectRatio := avgAspectRatio q;
     minDihedralAngle := minDihedralAngle q; maxDihedralAngle := maxDihedralAngle q;
     nonManifoldEdgeCount := nonManifoldEdgeCount q;
     degenerateFaceCount := degenerateFaceCount q;
     uvStretchFactor := x |}.

(** *** Degenerate faces *)

Definition DEGENERATE_THRESHOLD : float := F32.lit_1em5.

Definition degenerateFaceStep (m : Mesh) (st : RunningStats * Analyzer) (f : nat * Face)
    : RunningStats * Analyzer :=
  let '(faceIdx, face) := f in
  let '(rs, a) := st in
  if length (vertexIndices face) <? 3 then st
  else
    let area := calculateTriangleArea m
                  (nth 0 (vertexIndices face) 0)
                  (nth 1 (vertexIndices face) 0)
                  (nth 2 (vertexIndices face) 0) in
    let rs := observe rs area in
    if F32.lt area DEGENERATE_THRESHOLD then
      let issue := {| type := DEGENERATE_FACE;
                      elementIndex := faceIdx;
                      severity := F32.sub F32.one (F32.div area DEGENERATE_THRESHOLD);
                      relatedElements := vertexIndices face |} in
      let a := push_issue a issue in
      (rs, set_metrics a
             (set_degenerateFaceCount (metrics a)
                (size_t_incr (degenerateFaceCount (metrics a)))))
    else (rs, a).

Definition checkDegenerateFaces (m : Mesh) (a : Analyzer) : Analyzer :=
  let faces := getFaces m in
  let '(rs, a) := fold_left (degenerateFaceStep m) (indexed faces) (startStats, a) in
  if 0 <? length faces then
    set_metrics a
      (set_faceArea (metrics a) (smallest rs) (largest rs)
         (F32.div (total rs) (F32.of_size_t (length faces))))
  else a.

(** *** Aspect ratio *)

Definition HIGH_ASPECT_THRESHOLD : float := F32.of_Z 10.

Definition aspectRatioStep (m : Mesh) (st : RunningStats * Analyzer) (f : nat * Face)
    : RunningStats * Analyzer :=
  let '(faceIdx, face) := f in
  let '(rs, a) := st in
  if length (vertexIndices face) <? 3 then st
  else
    let aspectRatio := calculateAspectRatio m
                         (nth 0 (vertexIndices face) 0)
                         (nth 1 (vertexIndices face) 0)
                         (nth 2 (vertexIndices face) 0) in
    let rs := observe rs aspectRatio in
    if F32.gt aspectRatio HIGH_ASPECT_THRESHOLD then
      let normalizedSeverity :=
        F32.std_min F32.one
          (F32.div (F32.sub aspectRatio HIGH_ASPECT_THRESHOLD) (F32.of_Z 30)) in
      (rs, push_issue a {| type := HIGH_ASPECT_RATIO;
                           elementIndex := faceIdx;
                           severity := normalizedSeverity;
                           relatedElements := vertexIndices face |})
    else (rs, a).

Definition checkAspectRatio (m : Mesh) (a : Analyzer) : Analyzer :=
  let faces := getFaces m in
  let '(rs, a) := fold_left (aspectRatioStep m) (indexed faces) (startStats, a) in
  if 0 <? length faces then
    set_metrics a
      (set_aspectRatio (metrics a) (smallest rs) (largest rs)
         (F32.div (total rs) (F32.of_size_t (length faces))))
  else a.

(** *** Non-manifold edges *)

Definition nonManifoldSeverity (faceCount : nat) : float :=
  F32.std_min F32.one (F32.div (F32.of_size_t (faceCount - 2)) (F32.of_Z 4)).

Definition nonManifoldIssue (entry : Edge * list nat) : MeshIssue :=
  {| type := NON_MANIFOLD_EDGE;
     elementIndex := fst (fst entry);
     severity := nonManifoldSeverity (length (snd entry));
     relatedElements := [snd (fst entry)] |}.

Definition nonManifoldStep (a : Analyzer) (entry : Edge * list nat) : Analyzer :=
  if 2 <? length (snd entry) then
    let a := push_issue a (nonManifoldIssue entry) in
    set_metrics a
      (set_nonManifoldEdgeCount (metrics a)
         (size_t_incr (nonManifoldEdgeCount (metrics a))))
  else a.

Definition checkNonManifoldEdges (a : Analyzer) : Analyzer :=
  fold_left nonManifoldStep (edgeFaceMap a) a.

(** *** Vertex valence *)

Definition LOW_VALENCE_THRESHOLD : nat := 3.
Definition HIGH_VALENCE_THRESHOLD : nat := 12.

Definition valenceStep (a : Analyzer) (vn : nat * list nat) : Analyzer :=
  let '(vertexIdx, neighbours) := vn in
  let valence := length neighbours in
  let a :=
    if (0 <? valence) && (valence <? LOW_VALENCE_THRESHOLD) then
      push_issue a {| type := LOW_VALENCE_VERTEX;
                      elementIndex := vertexIdx;
                      severity := F32.sub F32.one
                                    (F32.div (F32.of_size_t valence)
                                             (F32.of_size_t LOW_VALENCE_THRESHOLD));
                      relatedElements := neighbours |}
    else a in
  if HIGH_VALENCE_THRESHOLD <? valence then
    push_issue a {| type := HIGH_VALENCE_VERTEX;
                    elementIndex := vertexIdx;
                    severity := F32.std_min F32.one
                                  (F32.div (F32.of_size_t (valence - HIGH_VALENCE_THRESHOLD))
                                           (F32.of_Z 8));
                    relatedElements := neighbours |}
  else a.

Definition checkVertexValence (a : Analyzer) : Analyzer :=
  fold_left valenceStep (indexed (vertexConnectivity a)) a.

(** *** Overlapping vertices *)

Definition OVERLAP_THRESHOLD : float := F32.lit_1em4.

(** The test of the inner loop: [distSq < OVERLAP_THRESHOLD * OVERLAP_THRESHOLD]. *)
Definition overlaps (v1 v2 : Vertex.t) : bool :=
  F32.lt (squaredDistance v1 v2) (F32.mul OVERLAP_THRESHOLD OVERLAP_THRESHOLD).

Definition overlapIssue (m : Mesh) (i j : nat) : MeshIssue :=
  {| type := OVERLAPPING_VERTICES;
     elementIndex := i;
     severity := F32.sub F32.one
                   (F32.div (F32.sqrt (squaredDistance (vertexAt m i) (vertexAt m j)))
                            OVERLAP_THRESHOLD);
     relatedElements := [j] |}.

Definition overlapInner (m : Mesh) (i : nat) (a : Analyzer) (j : nat) : Analyzer :=
  if overlaps (vertexAt m i) (vertexAt m j)
  then push_issue a (overlapIssue m i j)
  else a.

Definition overlapOuter (m : Mesh) (a : Analyzer) (i : nat) : Analyzer :=
  let n := length (getVertices m) in
  fold_left (overlapInner m i) (seq (i + 1) (n - (i + 1))) a.

Definition checkOverlappingVertices (m : Mesh) (a : Analyzer) : Analyzer :=
  fold_left (overlapOuter m) (seq 0 (length (getVertices m))) a.

(** *** Normal direction *)

Definition normalDirectionStep (m : Mesh) (a : Analyzer) (f : nat * Face) : Analyzer :=
  let '(faceIdx, face) := f in
  if length (vertexIndices face) <? 3 then a
  else
    let v1 := vertexAt m (nth 0 (vertexIndices face) 0) in
    let v2 := vertexAt m (nth 1 (vertexIndices face) 0) in
    let v3 := vertexAt m (nth 2 (vertexIndices face) 0) in
    let e1x := F32.sub (Vertex.x v2) (Vertex.x v1) in
    let e1y := F32.sub (Vertex.y v2) (Vertex.y v1) in
    let e1z := F32.sub (Vertex.z v2) (Vertex.z v1) in
    let e2x := F32.sub (Vertex.x v3) (Vertex.x v1) in
    let e2y := F32.sub (Vertex.y v3) (Vertex.y v1) in
    let e2z := F32.sub (Vertex.z v3) (Vertex.z v1) in
    let n_x := F32.sub (F32.mul e1y e2z) (F32.mul e1z e2y) in
    let n_y := F32.sub (F32.mul e1z e2x) (F32.mul e1x e2z) in
    let n_z := F32.sub (F32.mul e1x e2y) (F32.mul e1y e2x) in
    let len := F32.sqrt (F32.add (F32.add (F32.mul n_x n_x) (F32.mul n_y n_y)) (F32.mul n_z n_z)) in
    if F32.gt len F32.lit_1em6 then
      let n_x := F32.div n_x len in
      let n_y := F32.div n_y len in
      let n_z := F32.div n_z len in
      let three := F32.of_Z 3 in
      let vnx := F32.div (F32.add (F32.add (Vertex.nx v1) (Vertex.nx v2)) (Vertex.nx v3)) three in
      let vny := F32.div (F32.add (F32.add (Vertex.ny v1) (Vertex.ny v2)) (Vertex.ny v3)) three in
      let vnz := F32.div (F32.add (F32.add (Vertex.nz v1) (Vertex.nz v2)) (Vertex.nz v3)) three in
      let vnLen := F32.sqrt (F32.add (F32.add (F32.mul vnx vnx) (F32.mul vny vny)) (F32.mul vnz vnz)) in
      if F32.gt vnLen F32.lit_1em6 then
        let vnx := F32.div vnx vnLen in
        let vny := F32.div vny vnLen in
        let vnz := F32.div vnz vnLen in
        let dotProduct := dot3 (n_x, n_y, n_z) (vnx, vny, vnz) in
        if F32.lt dotProduct F32.zero then
          push_issue a {| type := INVERTED_NORMAL;
                          elementIndex := faceIdx;
                          severity := F32.std_min F32.one (F32.neg dotProduct);
                          relatedElements := vertexIndices face |}
        else a
      else a
    else a.

Definition checkNormalDirection (m : Mesh) (a : Analyzer) : Analyzer :=
  fold_left (normalDirectionStep m) (indexed (getFaces m)) a.

(** *** UV stretch *)

Definition HIGH_STRETCH_THRESHOLD : float := F32.of_Z 4.

Definition uvStretchStep (m : Mesh) (st : float * nat * Analyzer) (f : nat * Face)
    : float * nat * Analyzer :=
  let '(faceIdx, _) := f in
  let '(totalStretch, stretchableCount, a) := st in
  let stretch := calculateUVStretch m faceIdx in
  if F32.gt stretch F32.zero then
    let totalStretch := F32.add totalStretch stretch in
    let stretchableCount := S stretchableCount in
    if F32.gt stretch HIGH_STRETCH_THRESHOLD then
      (totalStretch, stretchableCount,
       push_issue a {| type := TEXTURE_STRETCH;
                       elementIndex := faceIdx;
                       severity := F32.std_min F32.one
                                     (F32.div (F32.sub stretch HIGH_STRETCH_THRESHOLD)
                                              (F32.of_Z 6));
                       relatedElements := vertexIndices (faceAt m faceIdx) |})
    else (totalStretch, stretchableCount, a)
  else st.

Definition checkUVStretch (m : Mesh) (a : Analyzer) : Analyzer :=
  let '(totalStretch, stretchableCount, a) :=
    fold_left (uvStretchStep m) (indexed (getFaces m)) (F32.zero, 0, a) in
  if 0 <? stretchableCount then
    set_metrics a
      (set_uvStretchFactor (metrics a)
         (F32.div totalStretch (F32.of_size_t stretchableCount)))
  else a.

(** *** Sharp angles *)

Definition SHARP_ANGLE_THRESHOLD : float := F32.of_Z 30.

(** The running minimum is replaced when the angle is below it or when
    it is itself below [0.1f]. *)
Definition replacesMinimum (angle stored : float) : bool :=
  F32.lt angle stored || F32.lt stored F32.lit_0p1.

Definition sharpAngleStep (m : Mesh) (a : Analyzer) (entry : Edge * list nat) : Analyzer :=
  let '(edge, facesUsingEdge) := entry in
  if length facesUsingEdge =? 2 then
    let angle := calculateDihedralAngle m
                   (nth 0 facesUsingEdge 0) (nth 1 facesUsingEdge 0)
                   (fst edge) (snd edge) in
    let a :=
      if replacesMinimum angle (minDihedralAngle (metrics a))
      then set_metrics a (set_minDihedralAngle (metrics a) angle)
      else a in
    let a :=
      if F32.gt angle (maxDihedralAngle (metrics a))
      then set_metrics a (set_maxDihedralAngle (metrics a) angle)
      else a in
    if F32.lt angle SHARP_ANGLE_THRESHOLD then
      push_issue a {| type := SHARP_ANGLE;
                      elementIndex := fst edge;
                      severity := F32.sub F32.one (F32.div angle SHARP_ANGLE_THRESHOLD);
                      relatedElements := [snd edge] |}
    else a
  else a.

Definition checkSharpAngles (m : Mesh) (a : Analyzer) : Analyzer :=
  fold_left (sharpAngleStep m) (edgeFaceMap a) a.

Definition calculateOverallMetrics (a : Analyzer) : Analyzer := a.

(** ** The entry point and the queries *)

Definition analyzeQuality (m : Mesh) (a : Analyzer) : Analyzer :=
  let a := set_issues a [] in
  let a := buildTopology m a in
  let a := checkDegenerateFaces m a in
  let a := checkAspectRatio m a in
  let a := checkNonManifoldEdges a in
  let a := checkVertexValence a in
  let a := checkOverlappingVertices m a in
  let a := checkNormalDirection m a in
  let a := checkUVStretch m a in
  let a := checkSharpAngles m a in
  calculateOverallMetrics a.

Definition getIssues (a : Analyzer) : list MeshIssue := issues a.

Definition getMetrics (a : Analyzer) : MeshQualityMetrics := metrics a.

(** The two filtering queries are [const] member functions: they take
    the analyzer and build a fresh vector with [push_back]. *)
Definition getIssuesByType (a : Analyzer) (t : IssueType) : list MeshIssue :=
  fold_left
    (fun filteredIssues issue =>
       if IssueType_eqb (type issue) t then filteredIssues ++ [issue] else filteredIssues)
    (issues a) [].

Definition getIssuesBySeverity (a : Analyzer) (minSeverity : float) : list MeshIssue :=
  fold_left
    (fun filteredIssues issue =>
       if F32.ge (severity issue) minSeverity then filteredIssues ++ [issue] else filteredIssues)
    (issues a) [].

End Analysis.

(** ** Auxiliary notions used in the statements *)

(** Every vertex index of every face is below the vertex count: the
    precondition under which the source has defined behaviour. *)
Definition indicesInRange (m : Mesh) : bool :=
  forallb (fun f => forallb (fun i => i <? length (getVertices m)) (vertexIndices f))
          (getFaces m).

(** Lookup in the ordered edge map. *)
Fixpoint edgeFaceMap_lookup (key : Edge) (efm : EdgeFaceMap) : option (list nat) :=
  match efm with
  | [] => None
  | (k, fs) :: rest =>
      match Edge_compare key k with
      | Eq => Some fs
      | Lt => None
      | Gt => edgeFaceMap_lookup key rest
      end
  end.

Definition facesOf (key : Edge) (efm : EdgeFaceMap) : list nat :=
  match edgeFaceMap_lookup key efm with
  | Some fs => fs
  | None => []
  end.

(** Keys strictly ascending. *)
Definition keysAscending (efm : EdgeFaceMap) : Prop :=
  StronglySorted (fun p q => Edge_compare (fst p) (fst q) = Lt) efm.

Definition normalizedEdge (a b : nat) : Edge := (Nat.min a b, Nat.max a b).

(** The issues the all-pairs scan reports, pair by pair in loop order. *)
Definition overlapIssuesFrom (m : Mesh) (i : nat) : list MeshIssue :=
  flat_map (fun j => if overlaps (vertexAt m i) (vertexAt m j) then [overlapIssue m i j] else [])
           (seq (i + 1) (length (getVertices m) - (i + 1))).

Definition overlapIssues (m : Mesh) : list MeshIssue :=
  flat_map (overlapIssuesFrom m) (seq 0 (length (getVertices m))).

Definition isNonManifold (entry : Edge * list nat) : bool := 2 <? length (snd entry).

(** An issue of the non-manifold pass that names the edge [e]. *)
Definition reportsEdge (e : Edge) (i : MeshIssue) : bool :=
  IssueType_eqb (type i) NON_MANIFOLD_EDGE
  && (elementIndex i =? fst e)
  && match relatedElements i with
     | [w] => w =? snd e
     | _ => false
     end.




Definition validVertex (p : Vertex.t) : bool :=
  F32.valid (Vertex.x p) && F32.valid (Vertex.y p) && F32.valid (Vertex.z p)
  && F32.valid (Vertex.nx p) && F32.valid (Vertex.ny p) && F32.valid (Vertex.nz p)
  && F32.valid (Vertex.u p) && F32.valid (Vertex.v p).

(** Two analyzers that differ at most in their metrics and threshold. *)
Definition agree (a b : Analyzer) : Prop :=
  issues a = issues b
  /\ edgeFaceMap a = edgeFaceMap b
  /\ vertexConnectivity a = vertexConnectivity b.

(** [a] is [a0] with issues satisfying [Q] appended and, possibly, other
    metrics; the topology and the non-manifold counter are untouched. *)
Definition appendsOnly (Q : MeshIssue -> Prop) (a0 a : Analyzer) : Prop :=
  edgeFaceMap a = edgeFaceMap a0
  /\ vertexConnectivity a = vertexConnectivity a0
  /\ nonManifoldEdgeCount (metrics a) = nonManifoldEdgeCount (metrics a0)
  /\ exists l, issues a = issues a0 ++ l /\ Forall Q l.

Definition hasType (t : IssueType) (i : MeshIssue) : Prop := type i = t.

Definition isValenceIssue (i : MeshIssue) : Prop :=
  type i = LOW_VALENCE_VERTEX \/ type i = HIGH_VALENCE_VERTEX.

(** An issue of a pass other than the non-manifold and the overlap pass. *)
Definition otherPass (i : MeshIssue) : Prop :=
  type i <> NON_MANIFOLD_EDGE /\ type i <> OVERLAPPING_VERTICES.

Definition nonManifoldIssues (efm : EdgeFaceMap) : list MeshIssue :=
  map nonManifoldIssue (filter isNonManifold efm).

(** Loop states: local accumulators equal, analyzers in agreement. *)
Definition agreeWith {L : Type} (s s' : L * Analyzer) : Prop :=
  fst s = fst s' /\ agree (snd s) (snd s').

(** Every stored coordinate is a binary32 value (canonical mantissa,
    exponent in range). *)
Definition validMesh (m : Mesh) : Prop :=
  Forall (fun p => validVertex p = true) (getVertices m).

(** The float a rounding step assembles from a non-negative mantissa and
    an exponent: zero, a finite number, or infinity on overflow. *)
Definition packed (s : bool) (m e : Z) : float :=
  match m with
  | Z0 => S754_zero s
  | Zpos p => if (e <=? 104)%Z then S754_finite s p e else S754_infinity s
  | Zneg _ => S754_nan
  end.

(** A vertex placed at integer coordinates. *)
Definition placedAt (p : Vertex.t) (x y z : Z) : Prop :=
  Vertex.x p = F32.of_Z x /\ Vertex.y p = F32.of_Z y /\ Vertex.z p = F32.of_Z z.

(** ** Notions for the topology, the runs and the counters *)

Definition ringKey (ring : list nat) (i : nat) : Edge :=
  normalizedEdge (nth i ring 0) (nth ((i + 1) mod length ring) ring 0).

Definition Edge_eqb (a b : Edge) : bool :=
  match Edge_compare a b with Eq => true | _ => false end.

(** The ring positions of a face whose edge has the given key. *)
Definition ringSpans (key : Edge) (ring : list nat) : list nat :=
  filter (fun i => Edge_eqb (ringKey ring i) key) (seq 0 (length ring)).

(** Face [f] once per ring position of [f] that spans the edge, faces in
    ascending order. *)
Definition incidentFaces (m : Mesh) (key : Edge) : list nat :=
  flat_map (fun f => repeat (fst f) (length (ringSpans key (vertexIndices (snd f)))))
           (indexed (getFaces m)).

(** The consecutive vertex pairs of a ring, wrap-around included. *)
Definition ringPairs (ring : list nat) : list (nat * nat) :=
  map (fun i => (nth i ring 0, nth ((i + 1) mod length ring) ring 0))
      (seq 0 (length ring)).

Definition meshPairs (m : Mesh) : list (nat * nat) :=
  flat_map (fun f => ringPairs (vertexIndices f)) (getFaces m).

Definition isLowValence (vn : nat * list nat) : bool :=
  (0 <? length (snd vn)) && (length (snd vn) <? LOW_VALENCE_THRESHOLD).

Definition isHighValence (vn : nat * list nat) : bool :=
  HIGH_VALENCE_THRESHOLD <? length (snd vn).

Definition lowValenceIssue (vn : nat * list nat) : MeshIssue :=
  {| type := LOW_VALENCE_VERTEX;
     elementIndex := fst vn;
     severity := F32.sub F32.one
                   (F32.div (F32.of_size_t (length (snd vn)))
                            (F32.of_size_t LOW_VALENCE_THRESHOLD));
     relatedElements := snd vn |}.

Definition highValenceIssue (vn : nat * list nat) : MeshIssue :=
  {| type := HIGH_VALENCE_VERTEX;
     elementIndex := fst vn;
     severity := F32.std_min F32.one
                   (F32.div (F32.of_size_t (length (snd vn) - HIGH_VALENCE_THRESHOLD))
                            (F32.of_Z 8));
     relatedElements := snd vn |}.

Definition valenceIssues (vn : nat * list nat) : list MeshIssue :=
  (if isLowValence vn then [lowValenceIssue vn] else [])
  ++ (if isHighValence vn then [highValenceIssue vn] else []).

Definition byType (t : IssueType) (i : MeshIssue) : bool := IssueType_eqb (type i) t.

(** Not a negative number: NaN, a zero, +infinity or a positive float. *)
Definition nonNegative (x : float) : bool :=
  match x with
  | S754_finite s _ _ | S754_infinity s => negb s
  | _ => true
  end.

Definition set_threshold (a : Analyzer) (t : float) : Analyzer :=
  {| minQualityThreshold := t;
     issues := issues a;
     metrics := metrics a;
     edgeFaceMap := edgeFaceMap a;
     vertexConnectivity := vertexConnectivity a |}.

Definition with_threshold {L : Type} (t : float) (st : L * Analyzer) : L * Analyzer :=
  (fst st, set_threshold (snd st) t).

(** [a] is [a0] after degenerate-face issues [l] were reported: the
    counter has advanced once per issue. *)
Definition countedDegenerate (a0 a : Analyzer) : Prop :=
  exists l, issues a = issues a0 ++ l
            /\ Forall (hasType DEGENERATE_FACE) l
            /\ degenerateFaceCount (metrics a)
               = Nat.iter (length l) size_t_incr (degenerateFaceCount (metrics a0)).

Definition keepsDegenerateCount (a0 a : Analyzer) : Prop :=
  degenerateFaceCount (metrics a) = degenerateFaceCount (metrics a0).

(** ** Notions for the face passes, the metrics and the summary *)

(** The first three vertex indices of a face, as every face pass reads
    them. *)
Definition corner (face : Face) (k : nat) : nat := nth k (vertexIndices face) 0.

Definition faceArea (m : Mesh) (face : Face) : float :=
  calculateTriangleArea m (corner face 0) (corner face 1) (corner face 2).

Definition faceAspectRatio (m : Mesh) (face : Face) : float :=
  calculateAspectRatio m (corner face 0) (corner face 1) (corner face 2).

Definition hasTriangle (face : Face) : bool := negb (length (vertexIndices face) <? 3).

Definition isDegenerate (m : Mesh) (f : nat * Face) : bool :=
  hasTriangle (snd f) && F32.lt (faceArea m (snd f)) DEGENERATE_THRESHOLD.

Definition degenerateIssue (m : Mesh) (f : nat * Face) : MeshIssue :=
  {| type := DEGENERATE_FACE;
     elementIndex := fst f;
     severity := F32.sub F32.one (F32.div (faceArea m (snd f)) DEGENERATE_THRESHOLD);
     relatedElements := vertexIndices (snd f) |}.

Definition isStretched (m : Mesh) (f : nat * Face) : bool :=
  hasTriangle (snd f) && F32.gt (faceAspectRatio m (snd f)) HIGH_ASPECT_THRESHOLD.

Definition aspectIssue (m : Mesh) (f : nat * Face) : MeshIssue :=
  {| type := HIGH_ASPECT_RATIO;
     elementIndex := fst f;
     severity := F32.std_min F32.one
                   (F32.div (F32.sub (faceAspectRatio m (snd f)) HIGH_ASPECT_THRESHOLD)
                            (F32.of_Z 30));
     relatedElements := vertexIndices (snd f) |}.

(** The dot product of the unit face normal with the unit average of
    the three shading normals; none when either vector is shorter than
    [1e-6f]. *)
Definition alignment (m : Mesh) (face : Face) : option float :=
  let v1 := vertexAt m (corner face 0) in
  let v2 := vertexAt m (corner face 1) in
  let v3 := vertexAt m (corner face 2) in
  let e1x := F32.sub (Vertex.x v2) (Vertex.x v1) in
  let e1y := F32.sub (Vertex.y v2) (Vertex.y v1) in
  let e1z := F32.sub (Vertex.z v2) (Vertex.z v1) in
  let e2x := F32.sub (Vertex.x v3) (Vertex.x v1) in
  let e2y := F32.sub (Vertex.y v3) (Vertex.y v1) in
  let e2z := F32.sub (Vertex.z v3) (Vertex.z v1) in
  let n_x := F32.sub (F32.mul e1y e2z) (F32.mul e1z e2y) in
  let n_y := F32.sub (F32.mul e1z e2x) (F32.mul e1x e2z) in
  let n_z := F32.sub (F32.mul e1x e2y) (F32.mul e1y e2x) in
  let len := F32.sqrt (F32.add (F32.add (F32.mul n_x n_x) (F32.mul n_y n_y)) (F32.mul n_z n_z)) in
  if F32.gt len F32.lit_1em6 then
    let three := F32.of_Z 3 in
    let vnx := F32.div (F32.add (F32.add (Vertex.nx v1) (Vertex.nx v2)) (Vertex.nx v3)) three in
    let vny := F32.div (F32.add (F32.add (Vertex.ny v1) (Vertex.ny v2)) (Vertex.ny v3)) three in
    let vnz := F32.div (F32.add (F32.add (Vertex.nz v1) (Vertex.nz v2)) (Vertex.nz v3)) three in
    let vnLen := F32.sqrt (F32.add (F32.add (F32.mul vnx vnx) (F32.mul vny vny)) (F32.mul vnz vnz)) in
    if F32.gt vnLen F32.lit_1em6 then
      Some (dot3 (F32.div n_x len, F32.div n_y len, F32.div n_z len)
                 (F32.div vnx vnLen, F32.div vny vnLen, F32.div vnz vnLen))
    else None
  else None.

Definition isInverted (m : Mesh) (f : nat * Face) : bool :=
  hasTriangle (snd f)
  && match alignment m (snd f) with
     | Some dotProduct => F32.lt dotProduct F32.zero
     | None => false
     end.

Definition invertedIssue (m : Mesh) (f : nat * Face) : MeshIssue :=
  {| type := INVERTED_NORMAL;
     elementIndex := fst f;
     severity := match alignment m (snd f) with
                 | Some dotProduct => F32.std_min F32.one (F32.neg dotProduct)
                 | None => F32.one
                 end;
     relatedElements := vertexIndices (snd f) |}.

Definition hasHighStretch (m : Mesh) (f : nat * Face) : bool :=
  F32.gt (calculateUVStretch m (fst f)) F32.zero
  && F32.gt (calculateUVStretch m (fst f)) HIGH_STRETCH_THRESHOLD.

Definition stretchIssue (m : Mesh) (f : nat * Face) : MeshIssue :=
  {| type := TEXTURE_STRETCH;
     elementIndex := fst f;
     severity := F32.std_min F32.one
                   (F32.div (F32.sub (calculateUVStretch m (fst f)) HIGH_STRETCH_THRESHOLD)
                            (F32.of_Z 6));
     relatedElements := vertexIndices (faceAt m (fst f)) |}.

(** The dihedral angle the sharp-angle pass computes for an entry of the
    edge map. *)
Definition edgeAngle (acosf : float -> float) (m : Mesh) (entry : Edge * list nat) : float :=
  calculateDihedralAngle acosf m (nth 0 (snd entry) 0) (nth 1 (snd entry) 0)
                         (fst (fst entry)) (snd (fst entry)).

Definition isSharp (acosf : float -> float) (m : Mesh) (entry : Edge * list nat) : bool :=
  (length (snd entry) =? 2) && F32.lt (edgeAngle acosf m entry) SHARP_ANGLE_THRESHOLD.

Definition sharpIssue (acosf : float -> float) (m : Mesh) (entry : Edge * list nat)
    : MeshIssue :=
  {| type := SHARP_ANGLE;
     elementIndex := fst (fst entry);
     severity := F32.sub F32.one (F32.div (edgeAngle acosf m entry) SHARP_ANGLE_THRESHOLD);
     relatedElements := [snd (fst entry)] |}.

(** The faces a face pass measures: those with at least three vertex
    indices, in face order. *)
Definition measuredFaces (m : Mesh) : list Face := filter hasTriangle (getFaces m).

(** The running statistics after the values [xs]. *)
Definition statsOf (xs : list float) : RunningStats := fold_left observe xs startStats.

(** Metrics fields the passes after the aspect-ratio pass never write. *)
Definition faceStats (q : MeshQualityMetrics) : list float :=
  [minFaceArea q; maxFaceArea q; avgFaceArea q;
   minAspectRatio q; maxAspectRatio q; avgAspectRatio q].

(** The faces the stretch pass averages over: those whose stretch
    compares above zero. *)
Definition positiveStretches (m : Mesh) : list float :=
  filter (fun s => F32.gt s F32.zero)
         (map (calculateUVStretch m) (seq 0 (length (getFaces m)))).

(** The entries of the edge map the sharp-angle pass measures. *)
Definition isManifoldEntry (entry : Edge * list nat) : bool := length (snd entry) =? 2.

(** Metrics fields only the last two passes write. *)
Definition angleAndStretch (q : MeshQualityMetrics) : list float :=
  [minDihedralAngle q; maxDihedralAngle q; uvStretchFactor q].

(** ** The issue section of the quality summary *)

Local Open Scope string_scope.

(** The [default] branch of the [switch] is not reached by any of the
    nine enumerators. *)
Definition getIssueTypeName (t : IssueType) : String.string :=
  match t with
  | DEGENERATE_FACE => "Degenerate Face"
  | HIGH_ASPECT_RATIO => "High Aspect Ratio"
  | OVERLAPPING_VERTICES => "Overlapping Vertices"
  | NON_MANIFOLD_EDGE => "Non-manifold Edge"
  | INVERTED_NORMAL => "Inverted Normal"
  | HIGH_VALENCE_VERTEX => "High Valence Vertex"
  | LOW_VALENCE_VERTEX => "Low Valence Vertex"
  | TEXTURE_STRETCH => "Texture Stretch"
  | SHARP_ANGLE => "Sharp Angle"
  end.

Definition issuesFoundHeading : String.string := "Issues Found:".
Definition linePrefix : String.string := "- ".
Definition lineSeparator : String.string := ": ".

Local Close Scope string_scope.

Definition newline : String.string :=
  String.String (Ascii.ascii_of_nat 10) String.EmptyString.

(** [std::to_string] on an [int]. *)
Definition to_string (n : Z) : String.string :=
  DecimalString.NilZero.string_of_int (Z.to_int n).

(** The value of an enumerator: the order of the keys of
    [std::map<IssueType, int>]. *)
Definition IssueType_value (t : IssueType) : nat :=
  match t with
  | DEGENERATE_FACE => 0
  | HIGH_ASPECT_RATIO => 1
  | OVERLAPPING_VERTICES => 2
  | NON_MANIFOLD_EDGE => 3
  | INVERTED_NORMAL => 4
  | HIGH_VALENCE_VERTEX => 5
  | LOW_VALENCE_VERTEX => 6
  | TEXTURE_STRETCH => 7
  | SHARP_ANGLE => 8
  end.

(** [issueCounts[t]++] on the map as a key-ascending association list:
    a missing key is inserted with count zero and then incremented. *)
Fixpoint issueCounts_incr (t : IssueType) (counts : list (IssueType * Z))
    : list (IssueType * Z) :=
  match counts with
  | [] => [(t, (0 + 1)%Z)]
  | (t', c) :: rest =>
      match Nat.compare (IssueType_value t) (IssueType_value t') with
      | Lt => (t, (0 + 1)%Z) :: counts
      | Eq => (t', (c + 1)%Z) :: rest
      | Gt => (t', c) :: issueCounts_incr t rest
      end
  end.

Definition issueCounts (a : Analyzer) : list (IssueType * Z) :=
  fold_left (fun counts issue => issueCounts_incr (type issue) counts) (issues a) [].

Definition issueLine (entry : IssueType * Z) : String.string :=
  String.append linePrefix
    (String.append (getIssueTypeName (fst entry))
       (String.append lineSeparator
          (String.append (to_string (snd entry)) newline))).

(** The tail of [getQualitySummary], from the heading of the issue
    section on. *)
Definition issuesFound (a : Analyzer) : String.string :=
  fold_left (fun summary entry => String.append summary (issueLine entry))
            (issueCounts a)
            (String.append issuesFoundHeading newline).

(** The enumerators in declaration order. *)
Definition allIssueTypes : list IssueType :=
  [DEGENERATE_FACE; HIGH_ASPECT_RATIO; OVERLAPPING_VERTICES; NON_MANIFOLD_EDGE;
   INVERTED_NORMAL; HIGH_VALENCE_VERTEX; LOW_VALENCE_VERTEX; TEXTURE_STRETCH; SHARP_ANGLE].

(** The count table that holds [cnt t] for every type with a positive
    count. *)
Definition countTable (cnt : IssueType -> nat) : list (IssueType * Z) :=
  flat_map (fun t => if 0 <? cnt t then [(t, Z.of_nat (cnt t))] else []) allIssueTypes.

Definition bump (t : IssueType) (cnt : IssueType -> nat) (t' : IssueType) : nat :=
  if IssueType_eqb t' t then S (cnt t') else cnt t'.

(** The number of face entries the edge map holds, over all keys. *)
Definition spanCount (efm : EdgeFaceMap) : nat :=
  list_sum (map (fun p => length (snd p)) efm).

(** ** The viewer's use of the analyzer *)

(** One round of the loop of [analyze_cb]: a fresh analyzer with the
    default threshold [0.5f], one run; the summary is read from the
    result. *)
Definition analyze_cb_mesh (acosf : float -> float) (m : Mesh) : Analyzer :=
  analyzeQuality acosf m (MeshQualityAnalyzer F32.half).

(** ** Sample inputs *)

(** A coarse stand-in for [std::acos], exact at [1] and [-1] and a right
    angle elsewhere; it instantiates the section variable in the closed
    examples. *)
Definition acos_sample (d : float) : float :=
  if SFeqb d F32.one then F32.zero
  else if SFeqb d (F32.neg F32.one) then S754_finite false 13176795 (-22)
  else S754_finite false 13176795 (-23).

(** A vertex at integer coordinates with integer texture coordinates. *)
Definition vertexZ (x y z u v : Z) : Vertex.t :=
  Vertex.mk (F32.of_Z x) (F32.of_Z y) (F32.of_Z z)
            F32.zero F32.zero F32.one
            (F32.of_Z u) (F32.of_Z v).

Definition triangleFace (a b c : nat) : Face :=
  {| vertexIndices := [a; b; c]; texCoordIndices := [a; b; c] |}.

(** The fixture triangle (0,0,0), (1,0,0), (0,1,0). *)
Definition unitTriangle : Mesh :=
  {| getVertices := [vertexZ 0 0 0 0 0; vertexZ 1 0 0 1 0; vertexZ 0 1 0 0 1];
     getFaces := [triangleFace 0 1 2] |}.


(** Two vertices at the origin, no face. *)
Definition twoCoincident : Mesh :=
  {| getVertices := [vertexZ 0 0 0 0 0; vertexZ 0 0 0 0 0];
     getFaces := [] |}.

(** Three collinear vertices: one face of area zero. *)
Definition sliver : Mesh :=
  {| getVertices := [vertexZ 0 0 0 0 0; vertexZ 1 0 0 1 0; vertexZ 2 0 0 2 0];
     getFaces := [triangleFace 0 1 2] |}.

(** Three triangles around the edge (0,1). *)
Definition fan3 : Mesh :=
  {| getVertices := [vertexZ 0 0 0 0 0; vertexZ 1 0 0 1 0; vertexZ 0 1 0 0 1;
                     vertexZ 0 0 1 1 1; vertexZ 0 (-1) 0 0 2];
     getFaces := [triangleFace 0 1 2; triangleFace 0 1 3; triangleFace 0 1 4] |}.

(** Two triangles folded at a right angle along the edge (0,1). *)
Definition hinge : Mesh :=
  {| getVertices := [vertexZ 0 0 0 0 0; vertexZ 1 0 0 1 0; vertexZ 0 1 0 0 1;
                     vertexZ 0 0 1 1 1];
     getFaces := [triangleFace 0 1 2; triangleFace 0 1 3] |}.

(** A single face with two vertex indices. *)
Definition segmentFace : Mesh :=
  {| getVertices := [vertexZ 0 0 0 0 0; vertexZ 1 0 0 1 0];
     getFaces := [{| vertexIndices := [1; 0]; texCoordIndices := [1; 0] |}] |}.


(** A triangle whose edges and texture extent are 10^20: both areas
    overflow single precision. *)
Definition hugeTriangle : Mesh :=
  {| getVertices := [vertexZ 0 0 0 0 0;
                     vertexZ (10 ^ 20) 0 0 (10 ^ 20) 0;
                     vertexZ 0 (10 ^ 20) 0 0 (10 ^ 20)];
     getFaces := [triangleFace 0 1 2] |}.

(** * Properties *)

(** ** Loops as folds *)

Lemma fold_left_push_filter {A : Type} (p : A -> bool) (l acc : list A) :
  fold_left (fun out x => if p x then out ++ [x] else out) l acc = acc ++ filter p l.
Proof.
  revert acc; induction l as [|x l IH]; intros acc; simpl.
  - now rewrite app_nil_r.
  - rewrite IH. destruct (p x); simpl; [now rewrite <- app_assoc | reflexivity].
Qed.

Lemma fold_left_invariant {S X : Type} (P : S -> Prop) (step : S -> X -> S) (l : list X) :
  (forall s x, In x l -> P s -> P (step s x)) ->
  forall s, P s -> P (fold_left step l s).
Proof.
  induction l as [|x l IH]; intros Hstep s Hs; simpl; [assumption|].
  apply IH.
  - intros s' x' Hin. apply Hstep. now right.
  - apply Hstep; [now left | assumption].
Qed.

Lemma fold_left_related {S X : Type} (R : S -> S -> Prop) (step : S -> X -> S) (l : list X) :
  (forall s s' x, R s s' -> R (step s x) (step s' x)) ->
  forall s s', R s s' -> R (fold_left step l s) (fold_left step l s').
Proof.
  intros Hstep. induction l as [|x l IH]; intros s s' H; simpl; auto.
Qed.

Lemma fold_left_identity {S X : Type} (step : S -> X -> S) (l : list X) (s : S) :
  (forall s' x, In x l -> step s' x = s') -> fold_left step l s = s.
Proof.
  intros H. apply (fold_left_invariant (fun t => t = s)); [|reflexivity].
  intros t x Hin ->. now apply H.
Qed.

Lemma IssueType_eqb_eq (a b : IssueType) : IssueType_eqb a b = true <-> a = b.
Proof.
  split; [destruct a, b; simpl; congruence | intros ->; now destruct b].
Qed.

Lemma flat_map_all_nil {A B : Type} (f : A -> list B) (l : list A) :
  (forall y, In y l -> f y = []) -> flat_map f l = [].
Proof.
  induction l as [|h t IH]; intros H; simpl; [reflexivity|].
  rewrite (H h) by now left. simpl. apply IH. intros y Hy. apply H. now right.
Qed.


(** ** What a pass may change *)

Lemma appendsOnly_refl Q a : appendsOnly Q a a.
Proof.
  repeat split. exists []. now rewrite app_nil_r.
Qed.

Lemma appendsOnly_push (Q : MeshIssue -> Prop) a0 a i :
  Q i -> appendsOnly Q a0 a -> appendsOnly Q a0 (push_issue a i).
Proof.
  intros Hi (E & V & C & l & I & F). repeat split; simpl; auto.
  exists (l ++ [i]). split.
  - now rewrite I, app_assoc.
  - apply Forall_app. auto.
Qed.

Lemma appendsOnly_set_metrics Q a0 a q :
  nonManifoldEdgeCount q = nonManifoldEdgeCount (metrics a) ->
  appendsOnly Q a0 a -> appendsOnly Q a0 (set_metrics a q).
Proof.
  intros Hq (E & V & C & l & I & F). repeat split; simpl; auto; try congruence.
  now exists l.
Qed.

Lemma appendsOnly_weaken (Q Q' : MeshIssue -> Prop) a0 a :
  (forall i, Q i -> Q' i) -> appendsOnly Q a0 a -> appendsOnly Q' a0 a.
Proof.
  intros H (E & V & C & l & I & F). repeat split; auto.
  exists l. split; [assumption|]. eapply Forall_impl; eauto.
Qed.

Create HintDb passes.

#[local] Hint Resolve appendsOnly_refl appendsOnly_push appendsOnly_set_metrics : passes.

Ltac split_ifs :=
  repeat match goal with
         | |- context [if ?c then _ else _] => destruct c
         end.

Lemma degenerateFaceStep_appends m a0 st f :
  appendsOnly (hasType DEGENERATE_FACE) a0 (snd st) ->
  appendsOnly (hasType DEGENERATE_FACE) a0 (snd (degenerateFaceStep m st f)).
Proof.
  destruct st as [rs a], f as [faceIdx face]. unfold degenerateFaceStep. simpl.
  intros H. split_ifs; simpl; auto with passes.
  apply appendsOnly_set_metrics; [reflexivity|].
  apply appendsOnly_push; [reflexivity | assumption].
Qed.

Lemma checkDegenerateFaces_appends m a :
  appendsOnly (hasType DEGENERATE_FACE) a (checkDegenerateFaces m a).
Proof.
  unfold checkDegenerateFaces.
  pose proof (fold_left_invariant
                (fun st => appendsOnly (hasType DEGENERATE_FACE) a (snd st))
                (degenerateFaceStep m) (indexed (getFaces m))
                (fun st f _ => degenerateFaceStep_appends m a st f)
                (startStats, a) (appendsOnly_refl _ a)) as H.
  destruct (fold_left _ _ _) as [rs a']. simpl in H.
  split_ifs; auto; apply appendsOnly_set_metrics; auto.
Qed.

Lemma aspectRatioStep_appends m a0 st f :
  appendsOnly (hasType HIGH_ASPECT_RATIO) a0 (snd st) ->
  appendsOnly (hasType HIGH_ASPECT_RATIO) a0 (snd (aspectRatioStep m st f)).
Proof.
  destruct st as [rs a], f as [faceIdx face]. unfold aspectRatioStep. simpl.
  intros H. split_ifs; simpl; auto with passes.
  apply appendsOnly_push; [reflexivity | assumption].
Qed.

Lemma checkAspectRatio_appends m a :
  appendsOnly (hasType HIGH_ASPECT_RATIO) a (checkAspectRatio m a).
Proof.
  unfold checkAspectRatio.
  pose proof (fold_left_invariant
                (fun st => appendsOnly (hasType HIGH_ASPECT_RATIO) a (snd st))
                (aspectRatioStep m) (indexed (getFaces m))
                (fun st f _ => aspectRatioStep_appends m a st f)
                (startStats, a) (appendsOnly_refl _ a)) as H.
  destruct (fold_left _ _ _) as [rs a']. simpl in H.
  split_ifs; auto; apply appendsOnly_set_metrics; auto.
Qed.

Lemma valenceStep_appends a0 a vn :
  appendsOnly isValenceIssue a0 a -> appendsOnly isValenceIssue a0 (valenceStep a vn).
Proof.
  destruct vn as [vertexIdx neighbours]. unfold valenceStep. intros H.
  split_ifs; auto; repeat apply appendsOnly_push; auto; unfold isValenceIssue; simpl; auto.
Qed.

Lemma checkVertexValence_appends a :
  appendsOnly isValenceIssue a (checkVertexValence a).
Proof.
  unfold checkVertexValence.
  apply (fold_left_invariant (appendsOnly isValenceIssue a)); [|apply appendsOnly_refl].
  intros s x _. apply valenceStep_appends.
Qed.

Lemma normalDirectionStep_appends m a0 a f :
  appendsOnly (hasType INVERTED_NORMAL) a0 a ->
  appendsOnly (hasType INVERTED_NORMAL) a0 (normalDirectionStep m a f).
Proof.
  destruct f as [faceIdx face]. unfold normalDirectionStep. intros H.
  split_ifs; auto. apply appendsOnly_push; [reflexivity | assumption].
Qed.

Lemma checkNormalDirection_appends m a :
  appendsOnly (hasType INVERTED_NORMAL) a (checkNormalDirection m a).
Proof.
  unfold checkNormalDirection.
  apply (fold_left_invariant (appendsOnly (hasType INVERTED_NORMAL) a));
    [|apply appendsOnly_refl].
  intros s x _. apply normalDirectionStep_appends.
Qed.

Lemma uvStretchStep_appends m a0 st f :
  appendsOnly (hasType TEXTURE_STRETCH) a0 (snd st) ->
  appendsOnly (hasType TEXTURE_STRETCH) a0 (snd (uvStretchStep m st f)).
Proof.
  destruct st as [[t c] a], f as [faceIdx face]. unfold uvStretchStep. simpl.
  intros H. split_ifs; simpl; auto.
  apply appendsOnly_push; [reflexivity | assumption].
Qed.

Lemma checkUVStretch_appends m a :
  appendsOnly (hasType TEXTURE_STRETCH) a (checkUVStretch m a).
Proof.
  unfold checkUVStretch.
  pose proof (fold_left_invariant
                (fun st => appendsOnly (hasType TEXTURE_STRETCH) a (snd st))
                (uvStretchStep m) (indexed (getFaces m))
                (fun st f _ => uvStretchStep_appends m a st f)
                (F32.zero, 0, a) (appendsOnly_refl _ a)) as H.
  destruct (fold_left _ _ _) as [[t c] a']. simpl in H.
  split_ifs; auto; apply appendsOnly_set_metrics; auto.
Qed.

Lemma set_issues_idem a l1 l2 : set_issues (set_issues a l1) l2 = set_issues a l2.
Proof. reflexivity. Qed.

Lemma set_issues_same a : set_issues a (issues a) = a.
Proof. now destruct a. Qed.

Lemma push_or_keep (c : bool) a i :
  (if c then push_issue a i else a) = set_issues a (issues a ++ (if c then [i] else [])).
Proof.
  destruct c; [reflexivity|]. now rewrite app_nil_r, set_issues_same.
Qed.

Lemma fold_left_pushes {X : Type} (g : X -> list MeshIssue) (step : Analyzer -> X -> Analyzer) :
  (forall a x, step a x = set_issues a (issues a ++ g x)) ->
  forall l a, fold_left step l a = set_issues a (issues a ++ flat_map g l).
Proof.
  intros Hstep. induction l as [|x l IH]; intros a; simpl.
  - now rewrite app_nil_r, set_issues_same.
  - rewrite IH, Hstep. simpl. now rewrite <- app_assoc.
Qed.

Lemma overlapOuter_pushes m a i :
  overlapOuter m a i = set_issues a (issues a ++ overlapIssuesFrom m i).
Proof.
  unfold overlapOuter, overlapIssuesFrom. apply fold_left_pushes.
  intros a' j. unfold overlapInner. apply push_or_keep.
Qed.

Lemma checkOverlappingVertices_pushes m a :
  checkOverlappingVertices m a = set_issues a (issues a ++ overlapIssues m).
Proof.
  unfold checkOverlappingVertices, overlapIssues. apply fold_left_pushes.
  intros a' i. apply overlapOuter_pushes.
Qed.

Lemma overlapIssues_type m : Forall (hasType OVERLAPPING_VERTICES) (overlapIssues m).
Proof.
  unfold overlapIssues, overlapIssuesFrom. apply Forall_forall. intros i Hi.
  apply in_flat_map in Hi. destruct Hi as (x & _ & Hi).
  apply in_flat_map in Hi. destruct Hi as (y & _ & Hi).
  destruct (overlaps _ _); simpl in Hi; [|contradiction].
  destruct Hi as [<-|[]]. reflexivity.
Qed.

Lemma nonManifold_fold l : forall a,
  let a' := fold_left nonManifoldStep l a in
  issues a' = issues a ++ nonManifoldIssues l
  /\ nonManifoldEdgeCount (metrics a') =
       Nat.iter (length (filter isNonManifold l)) size_t_incr
                (nonManifoldEdgeCount (metrics a))
  /\ edgeFaceMap a' = edgeFaceMap a
  /\ vertexConnectivity a' = vertexConnectivity a.
Proof.
  unfold nonManifoldIssues.
  induction l as [|x l IH]; intros a; simpl.
  - now rewrite app_nil_r.
  - destruct (IH (nonManifoldStep a x)) as (I & C & E & V).
    rewrite I, C, E, V. unfold nonManifoldStep, isNonManifold.
    destruct (2 <? length (snd x)); simpl.
    + repeat split. now rewrite <- app_assoc.
      clear. induction (length _); simpl; congruence.
    + repeat split.
Qed.

Lemma nonManifoldIssues_type efm : Forall (hasType NON_MANIFOLD_EDGE) (nonManifoldIssues efm).
Proof.
  unfold nonManifoldIssues. apply Forall_forall. intros i Hi.
  apply in_map_iff in Hi. now destruct Hi as (x & <- & _).
Qed.

(** ** The issue list does not depend on the metrics *)

Ltac solve_agree :=
  unfold agree in *; simpl in *; intuition congruence.

Lemma agree_push a b i : agree a b -> agree (push_issue a i) (push_issue b i).
Proof. solve_agree. Qed.

Lemma agree_set_metrics a b q q' : agree a b -> agree (set_metrics a q) (set_metrics b q').
Proof. solve_agree. Qed.

Lemma agree_set_metrics_l a b q : agree a b -> agree (set_metrics a q) b.
Proof. solve_agree. Qed.

Lemma agree_set_metrics_r a b q : agree a b -> agree a (set_metrics b q).
Proof. solve_agree. Qed.

#[local] Hint Resolve agree_push agree_set_metrics agree_set_metrics_l agree_set_metrics_r : passes.

Lemma degenerateFaceStep_agree m st st' f :
  agreeWith st st' -> agreeWith (degenerateFaceStep m st f) (degenerateFaceStep m st' f).
Proof.
  destruct st as [rs a], st' as [rs' a'], f as [faceIdx face].
  intros [E A]; simpl in E; subst rs'. simpl in A.
  unfold degenerateFaceStep. split_ifs; split; simpl; auto with passes.
Qed.

Lemma checkDegenerateFaces_agree m a b :
  agree a b -> agree (checkDegenerateFaces m a) (checkDegenerateFaces m b).
Proof.
  intros A. unfold checkDegenerateFaces.
  pose proof (fold_left_related agreeWith (degenerateFaceStep m) (indexed (getFaces m))
                (degenerateFaceStep_agree m) (startStats, a) (startStats, b)
                (conj eq_refl A)) as H.
  destruct (fold_left _ _ (startStats, a)) as [rs1 a1].
  destruct (fold_left _ _ (startStats, b)) as [rs2 a2].
  destruct H as [E H]; simpl in E, H. subst rs2.
  split_ifs; auto with passes.
Qed.

Lemma aspectRatioStep_agree m st st' f :
  agreeWith st st' -> agreeWith (aspectRatioStep m st f) (aspectRatioStep m st' f).
Proof.
  destruct st as [rs a], st' as [rs' a'], f as [faceIdx face].
  intros [E A]; simpl in E; subst rs'. simpl in A.
  unfold aspectRatioStep. split_ifs; split; simpl; auto with passes.
Qed.

Lemma checkAspectRatio_agree m a b :
  agree a b -> agree (checkAspectRatio m a) (checkAspectRatio m b).
Proof.
  intros A. unfold checkAspectRatio.
  pose proof (fold_left_related agreeWith (aspectRatioStep m) (indexed (getFaces m))
                (aspectRatioStep_agree m) (startStats, a) (startStats, b)
                (conj eq_refl A)) as H.
  destruct (fold_left _ _ (startStats, a)) as [rs1 a1].
  destruct (fold_left _ _ (startStats, b)) as [rs2 a2].
  destruct H as [E H]; simpl in E, H. subst rs2.
  split_ifs; auto with passes.
Qed.

Lemma checkNonManifoldEdges_agree a b :
  agree a b -> agree (checkNonManifoldEdges a) (checkNonManifoldEdges b).
Proof.
  intros A. unfold checkNonManifoldEdges.
  replace (edgeFaceMap b) with (edgeFaceMap a) by apply A.
  apply fold_left_related; [|assumption].
  intros s s' x H. unfold nonManifoldStep. split_ifs; auto with passes.
Qed.

Lemma checkVertexValence_agree a b :
  agree a b -> agree (checkVertexValence a) (checkVertexValence b).
Proof.
  intros A. unfold checkVertexValence.
  replace (vertexConnectivity b) with (vertexConnectivity a) by apply A.
  apply fold_left_related; [|assumption].
  intros s s' [vertexIdx neighbours] H. unfold valenceStep. split_ifs; auto with passes.
Qed.

Lemma checkOverlappingVertices_agree m a b :
  agree a b -> agree (checkOverlappingVertices m a) (checkOverlappingVertices m b).
Proof.
  intros A. rewrite !checkOverlappingVertices_pushes. solve_agree.
Qed.

Lemma checkNormalDirection_agree m a b :
  agree a b -> agree (checkNormalDirection m a) (checkNormalDirection m b).
Proof.
  intros A. unfold checkNormalDirection.
  apply fold_left_related; [|assumption].
  intros s s' [faceIdx face] H. unfold normalDirectionStep. split_ifs; auto with passes.
Qed.

Lemma uvStretchStep_agree m st st' f :
  agreeWith st st' -> agreeWith (uvStretchStep m st f) (uvStretchStep m st' f).
Proof.
  destruct st as [[t c] a], st' as [[t' c'] a'], f as [faceIdx face].
  intros [E A]; simpl in E; inversion E; subst t' c'. simpl in A.
  unfold uvStretchStep. split_ifs; split; simpl; auto with passes.
Qed.

Lemma checkUVStretch_agree m a b :
  agree a b -> agree (checkUVStretch m a) (checkUVStretch m b).
Proof.
  intros A. unfold checkUVStretch.
  pose proof (fold_left_related agreeWith (uvStretchStep m) (indexed (getFaces m))
                (uvStretchStep_agree m) (F32.zero, 0, a) (F32.zero, 0, b)
                (conj eq_refl A)) as H.
  destruct (fold_left _ _ (F32.zero, 0, a)) as [[t1 c1] a1].
  destruct (fold_left _ _ (F32.zero, 0, b)) as [[t2 c2] a2].
  destruct H as [E H]; simpl in E, H. inversion E; subst t2 c2.
  split_ifs; auto with passes.
Qed.

Section Properties.

Variable acosf : float -> float.

Lemma sharpAngleStep_agree m a b entry :
  agree a b -> agree (sharpAngleStep acosf m a entry) (sharpAngleStep acosf m b entry).
Proof.
  destruct entry as [edge facesUsingEdge]. intros A. unfold sharpAngleStep.
  destruct (length facesUsingEdge =? 2); [|assumption].
  destruct (F32.lt _ SHARP_ANGLE_THRESHOLD); [apply agree_push|];
    split_ifs; auto with passes.
Qed.

Lemma checkSharpAngles_agree m a b :
  agree a b -> agree (checkSharpAngles acosf m a) (checkSharpAngles acosf m b).
Proof.
  intros A. unfold checkSharpAngles.
  replace (edgeFaceMap b) with (edgeFaceMap a) by apply A.
  apply fold_left_related; [|assumption].
  intros s s' x. apply sharpAngleStep_agree.
Qed.

Lemma analyzeQuality_agree m a b :
  agree (analyzeQuality acosf m a) (analyzeQuality acosf m b).
Proof.
  unfold analyzeQuality, calculateOverallMetrics.
  apply checkSharpAngles_agree, checkUVStretch_agree, checkNormalDirection_agree,
    checkOverlappingVertices_agree, checkVertexValence_agree, checkNonManifoldEdges_agree,
    checkAspectRatio_agree, checkDegenerateFaces_agree.
  unfold buildTopology. solve_agree.
Qed.

(** The issue list and the topology an analysis leaves behind are
    functions of the mesh alone: a second run rebuilds the same list. *)
Lemma analyzeQuality_issues_rerun m a :
  getIssues (analyzeQuality acosf m (analyzeQuality acosf m a))
  = getIssues (analyzeQuality acosf m a).
Proof.
  apply analyzeQuality_agree.
Qed.

Lemma sharpAngleStep_appends m a0 a entry :
  appendsOnly (hasType SHARP_ANGLE) a0 a ->
  appendsOnly (hasType SHARP_ANGLE) a0 (sharpAngleStep acosf m a entry).
Proof.
  destruct entry as [edge facesUsingEdge]. unfold sharpAngleStep. intros H.
  destruct (length facesUsingEdge =? 2); [|assumption].
  destruct (F32.lt _ SHARP_ANGLE_THRESHOLD);
    [apply appendsOnly_push; [reflexivity|]|];
    split_ifs; auto; repeat (apply appendsOnly_set_metrics; [reflexivity|]); auto.
Qed.

Lemma checkSharpAngles_appends m a :
  appendsOnly (hasType SHARP_ANGLE) a (checkSharpAngles acosf m a).
Proof.
  unfold checkSharpAngles.
  apply (fold_left_invariant (appendsOnly (hasType SHARP_ANGLE) a));
    [|apply appendsOnly_refl].
  intros s x _. apply sharpAngleStep_appends.
Qed.

(** The issue list of a run, pass by pass: the non-manifold and the
    overlap pass contribute the two explicit segments, every other
    issue is of another type. *)
Lemma analyzeQuality_shape m a :
  let efm := edgeFaceMap (buildTopology m a) in
  exists pre mid post,
    issues (analyzeQuality acosf m a)
    = pre ++ nonManifoldIssues efm ++ mid ++ overlapIssues m ++ post
    /\ Forall otherPass pre /\ Forall otherPass mid /\ Forall otherPass post
    /\ edgeFaceMap (analyzeQuality acosf m a) = efm
    /\ nonManifoldEdgeCount (metrics (analyzeQuality acosf m a))
       = Nat.iter (length (filter isNonManifold efm)) size_t_incr
                  (nonManifoldEdgeCount (metrics a)).
Proof.
  intros efm. unfold analyzeQuality, calculateOverallMetrics.
  set (a0 := buildTopology m (set_issues a [])).
  assert (E0 : edgeFaceMap a0 = efm) by reflexivity.
  assert (I0 : issues a0 = []) by reflexivity.
  assert (C0 : nonManifoldEdgeCount (metrics a0) = nonManifoldEdgeCount (metrics a))
    by reflexivity.
  destruct (checkDegenerateFaces_appends m a0) as (E1 & _ & C1 & l1 & I1 & F1).
  set (a1 := checkDegenerateFaces m a0) in *.
  destruct (checkAspectRatio_appends m a1) as (E2 & _ & C2 & l2 & I2 & F2).
  set (a2 := checkAspectRatio m a1) in *.
  destruct (nonManifold_fold (edgeFaceMap a2) a2) as (I3 & C3 & E3 & _).
  fold (checkNonManifoldEdges a2) in I3, C3, E3.
  set (a3 := checkNonManifoldEdges a2) in *.
  destruct (checkVertexValence_appends a3) as (E4 & _ & C4 & l4 & I4 & F4).
  set (a4 := checkVertexValence a3) in *.
  rewrite (checkOverlappingVertices_pushes m a4).
  set (a5 := set_issues a4 (issues a4 ++ overlapIssues m)).
  destruct (checkNormalDirection_appends m a5) as (E6 & _ & C6 & l6 & I6 & F6).
  set (a6 := checkNormalDirection m a5) in *.
  destruct (checkUVStretch_appends m a6) as (E7 & _ & C7 & l7 & I7 & F7).
  set (a7 := checkUVStretch m a6) in *.
  destruct (checkSharpAngles_appends m a7) as (E8 & _ & C8 & l8 & I8 & F8).
  set (a8 := checkSharpAngles acosf m a7) in *.
  assert (Eall : edgeFaceMap a2 = efm) by congruence.
  exists (l1 ++ l2), l4, (l6 ++ l7 ++ l8). repeat split.
  - rewrite I8, I7, I6. unfold a5 at 1. simpl.
    rewrite I4, I3, I2, I1, I0, Eall. simpl. now rewrite <- !app_assoc.
  - apply Forall_app; split; eapply Forall_impl; try eassumption;
      unfold hasType, otherPass; intros i ->; split; discriminate.
  - eapply Forall_impl; try eassumption.
    unfold isValenceIssue, otherPass; intros i [-> | ->]; split; discriminate.
  - repeat (apply Forall_app; split); eapply Forall_impl; try eassumption;
      unfold hasType, otherPass; intros i ->; split; discriminate.
  - rewrite E8, E7, E6. unfold a5. simpl. congruence.
  - rewrite C8, C7, C6. unfold a5. simpl. rewrite C4, C3, C2, C1, C0, Eall. reflexivity.
Qed.

Lemma filter_none {A : Type} (p : A -> bool) (Q : A -> Prop) (l : list A) :
  (forall x, Q x -> p x = false) -> Forall Q l -> filter p l = [].
Proof.
  intros H F. induction F as [|x l Hx _ IH]; simpl; [reflexivity|].
  now rewrite (H x Hx).
Qed.

Lemma filter_all {A : Type} (p : A -> bool) (Q : A -> Prop) (l : list A) :
  (forall x, Q x -> p x = true) -> Forall Q l -> filter p l = l.
Proof.
  intros H F. induction F as [|x l Hx _ IH]; simpl; [reflexivity|].
  rewrite (H x Hx). now f_equal.
Qed.

(** ** Queries *)

(** C9. After an analysis run (and for any analyzer state), the query by
    type returns the subsequence of the issue list whose type is the
    requested one, the query by severity the subsequence whose severity
    is at least the threshold under the inclusive float comparison; both
    keep the relative order.  The queries are functions of the analyzer
    that return a fresh list: the issue list and the metrics they read
    are the unchanged ones of the analyzer. *)
Theorem queries_return_filtered_subsequences m a0 t s :
  let a := analyzeQuality acosf m a0 in
  getIssuesByType a t = filter (fun i => IssueType_eqb (type i) t) (getIssues a)
  /\ (forall i, In i (getIssuesByType a t) <-> In i (getIssues a) /\ type i = t)
  /\ getIssuesBySeverity a s = filter (fun i => SFleb s (severity i)) (getIssues a)
  /\ (forall i, In i (getIssuesBySeverity a s)
                <-> In i (getIssues a) /\ F32.ge (severity i) s = true).
Proof.
  intros a.
  assert (T : getIssuesByType a t = filter (fun i => IssueType_eqb (type i) t) (getIssues a))
    by apply (fold_left_push_filter (fun i => IssueType_eqb (type i) t)).
  assert (S : getIssuesBySeverity a s = filter (fun i => SFleb s (severity i)) (getIssues a))
    by apply (fold_left_push_filter (fun i => F32.ge (severity i) s)).
  repeat split; auto.
  - rewrite T in H. now apply filter_In in H.
  - rewrite T in H. apply filter_In in H. now apply IssueType_eqb_eq.
  - intros [Hin Ht]. rewrite T. apply filter_In. split; [assumption|].
    now apply IssueType_eqb_eq.
  - rewrite S in H. now apply filter_In in H.
  - rewrite S in H. now apply filter_In in H.
  - intros [Hin Hs]. rewrite S. apply filter_In. now split.
Qed.

(** ** The running minimum of the sharp-angle pass *)

(** C3. When the sharp-angle pass reaches a manifold edge (two incident
    faces) in the iteration order of the edge map, the stored minimum
    dihedral angle becomes the new angle exactly when the new angle is
    below the stored one or the stored one is below 0.1, and is kept
    otherwise.  Hence an angle that compares below the largest float
    replaces the initial sentinel, and a stored minimum between 0 and
    0.1 is overwritten by whatever angle comes next, larger ones
    included. *)
Theorem min_dihedral_update m a pre edge f1 f2 post :
  edgeFaceMap a = pre ++ (edge, [f1; f2]) :: post ->
  let before := fold_left (sharpAngleStep acosf m) pre a in
  let after := sharpAngleStep acosf m before (edge, [f1; f2]) in
  let angle := calculateDihedralAngle acosf m f1 f2 (fst edge) (snd edge) in
  let stored := minDihedralAngle (metrics before) in
  checkSharpAngles acosf m a = fold_left (sharpAngleStep acosf m) post after
  /\ minDihedralAngle (metrics after)
     = (if F32.lt angle stored || F32.lt stored F32.lit_0p1 then angle else stored)
  /\ (stored = F32.FLT_MAX -> F32.lt angle F32.FLT_MAX = true ->
      minDihedralAngle (metrics after) = angle)
  /\ (F32.lt F32.zero stored = true -> F32.lt stored F32.lit_0p1 = true ->
      minDihedralAngle (metrics after) = angle).
Proof.
  intros Hmap before after angle stored.
  assert (Hmin : minDihedralAngle (metrics after)
                 = (if F32.lt angle stored || F32.lt stored F32.lit_0p1
                    then angle else stored)).
  { unfold after, sharpAngleStep. simpl. fold angle. unfold replacesMinimum. fold stored.
    destruct (F32.lt angle stored || F32.lt stored F32.lit_0p1); split_ifs; reflexivity. }
  split; [|split; [exact Hmin|split]].
  - unfold checkSharpAngles. rewrite Hmap, fold_left_app. reflexivity.
  - intros Hs Hlt. rewrite Hmin, Hs, Hlt. reflexivity.
  - intros _ Hlt. rewrite Hmin, Hlt, orb_true_r. reflexivity.
Qed.

(** ** The ordered edge map *)

Lemma Edge_compare_Lt a b :
  Edge_compare a b = Lt <-> fst a < fst b \/ (fst a = fst b /\ snd a < snd b).
Proof.
  unfold Edge_compare.
  destruct (Nat.compare_spec (fst a) (fst b)) as [E|L|G].
  - rewrite Nat.compare_lt_iff. lia.
  - split; [left; assumption | reflexivity].
  - split; [discriminate | lia].
Qed.

Lemma Edge_compare_Gt a b :
  Edge_compare a b = Gt <-> fst b < fst a \/ (fst a = fst b /\ snd b < snd a).
Proof.
  unfold Edge_compare.
  destruct (Nat.compare_spec (fst a) (fst b)) as [E|L|G].
  - rewrite Nat.compare_gt_iff. lia.
  - split; [discriminate | lia].
  - split; [left; assumption | reflexivity].
Qed.

Lemma Edge_compare_Eq a b : Edge_compare a b = Eq <-> a = b.
Proof.
  unfold Edge_compare. destruct a as [a1 a2], b as [b1 b2]. simpl.
  destruct (Nat.compare_spec a1 b1) as [E|L|G].
  - rewrite Nat.compare_eq_iff. split; [intros ->; now subst | now inversion 1].
  - split; [discriminate | inversion 1; lia].
  - split; [discriminate | inversion 1; lia].
Qed.

Lemma Edge_compare_refl e : Edge_compare e e = Eq.
Proof. now apply Edge_compare_Eq. Qed.

Lemma Edge_compare_trans a b c :
  Edge_compare a b = Lt -> Edge_compare b c = Lt -> Edge_compare a c = Lt.
Proof. rewrite !Edge_compare_Lt. lia. Qed.

Lemma Edge_compare_flip a b : Edge_compare a b = Gt -> Edge_compare b a = Lt.
Proof. rewrite Edge_compare_Gt, Edge_compare_Lt. lia. Qed.

Lemma edgeFaceMap_push_keys (R : Edge -> Prop) key faceIdx efm :
  R key -> Forall (fun q => R (fst q)) efm ->
  Forall (fun q => R (fst q)) (edgeFaceMap_push key faceIdx efm).
Proof.
  intros Hk. induction efm as [|[k fs] rest IH]; intros F; simpl.
  - constructor; [assumption | constructor].
  - inversion F as [|? ? Hh Ht]; subst.
    destruct (Edge_compare key k); constructor; auto.
Qed.

Lemma edgeFaceMap_push_ascending key faceIdx efm :
  keysAscending efm -> keysAscending (edgeFaceMap_push key faceIdx efm).
Proof.
  unfold keysAscending.
  induction efm as [|[k fs] rest IH]; intros Hs; simpl.
  - constructor; constructor.
  - inversion Hs as [|? ? Hrest Hall]; subst.
    destruct (Edge_compare key k) eqn:C.
    + constructor; assumption.
    + constructor; [assumption|]. constructor; [exact C|].
      eapply Forall_impl; [|exact Hall]. simpl. intros q Hq.
      eapply Edge_compare_trans; eassumption.
    + constructor; [auto|].
      apply (edgeFaceMap_push_keys (fun e => Edge_compare k e = Lt));
        [now apply Edge_compare_flip | assumption].
Qed.

Lemma edgeFaceMap_push_facesOf key faceIdx efm :
  facesOf key (edgeFaceMap_push key faceIdx efm) = facesOf key efm ++ [faceIdx].
Proof.
  unfold facesOf. induction efm as [|[k fs] rest IH]; simpl.
  - now rewrite Edge_compare_refl.
  - destruct (Edge_compare key k) eqn:C; simpl.
    + now rewrite C.
    + now rewrite Edge_compare_refl.
    + now rewrite C.
Qed.

Lemma walkEdge_ascending faceIdx ring t i :
  keysAscending (fst t) -> keysAscending (fst (walkEdge faceIdx ring t i)).
Proof.
  intros H. unfold walkEdge. destruct (_ <? _); simpl;
    now apply edgeFaceMap_push_ascending.
Qed.

Lemma walkFace_ascending t f :
  keysAscending (fst t) -> keysAscending (fst (walkFace t f)).
Proof.
  unfold walkFace.
  apply (fold_left_invariant (fun t => keysAscending (fst t))).
  intros s i _. apply walkEdge_ascending.
Qed.

Lemma buildTopology_ascending m a : keysAscending (edgeFaceMap (buildTopology m a)).
Proof.
  unfold buildTopology. simpl.
  apply (fold_left_invariant (fun t => keysAscending (fst t))).
  - intros s f _. apply walkFace_ascending.
  - constructor.
Qed.

Lemma buildTopology_edgeFaceMap m a b :
  edgeFaceMap (buildTopology m a) = edgeFaceMap (buildTopology m b).
Proof. reflexivity. Qed.

Lemma reportsEdge_nonManifoldIssue e x :
  reportsEdge e (nonManifoldIssue x) = true <-> fst x = e.
Proof.
  unfold reportsEdge, nonManifoldIssue. simpl.
  destruct x as [[x1 x2] fs], e as [e1 e2]. simpl.
  rewrite andb_true_iff, !Nat.eqb_eq. split; [intros [-> ->]; reflexivity | now inversion 1].
Qed.

Lemma reportsEdge_type e i : reportsEdge e i = true -> type i = NON_MANIFOLD_EDGE.
Proof.
  unfold reportsEdge. rewrite !andb_true_iff. intros [[H _] _].
  now apply IssueType_eqb_eq.
Qed.

Lemma reportsEdge_later e efm :
  Forall (fun q => Edge_compare e (fst q) = Lt) efm ->
  filter (reportsEdge e) (nonManifoldIssues efm) = [].
Proof.
  intros F. unfold nonManifoldIssues.
  apply (filter_none _ (fun i => exists x, i = nonManifoldIssue x /\ Edge_compare e (fst x) = Lt)).
  - intros i (x & -> & C). destruct (reportsEdge e (nonManifoldIssue x)) eqn:R; [|reflexivity].
    apply reportsEdge_nonManifoldIssue in R. subst e.
    rewrite Edge_compare_refl in C. discriminate.
  - apply Forall_forall. intros i Hi. apply in_map_iff in Hi.
    destruct Hi as (x & <- & Hx). apply filter_In in Hx. destruct Hx as [Hx _].
    exists x. split; [reflexivity|]. now apply (proj1 (Forall_forall _ _) F).
Qed.

Lemma reportsEdge_unique efm e fs :
  keysAscending efm -> In (e, fs) efm -> isNonManifold (e, fs) = true ->
  filter (reportsEdge e) (nonManifoldIssues efm) = [nonManifoldIssue (e, fs)].
Proof.
  unfold keysAscending. intros Hs Hin Hnm.
  induction Hs as [|x rest Hrest IH Hall]; [contradiction|].
  unfold nonManifoldIssues in *. simpl. destruct Hin as [-> | Hin].
  - rewrite Hnm. simpl.
    replace (reportsEdge e (nonManifoldIssue (e, fs))) with true
      by (symmetry; now apply reportsEdge_nonManifoldIssue).
    f_equal. now apply reportsEdge_later.
  - assert (C : Edge_compare (fst x) e = Lt)
      by apply (proj1 (Forall_forall _ _) Hall (e, fs) Hin).
    assert (N : reportsEdge e (nonManifoldIssue x) = false).
    { destruct (reportsEdge e (nonManifoldIssue x)) eqn:R; [|reflexivity].
      apply reportsEdge_nonManifoldIssue in R. rewrite R, Edge_compare_refl in C.
      discriminate. }
    destruct (isNonManifold x); simpl; [rewrite N|]; now apply IH.
Qed.

Lemma normalizedEdge_swap a b :
  (if b <? a then (b, a) else (a, b)) = normalizedEdge a b.
Proof.
  unfold normalizedEdge. destruct (Nat.ltb_spec b a).
  - now rewrite Nat.min_r, Nat.max_l by lia.
  - now rewrite Nat.min_l, Nat.max_r by lia.
Qed.

Lemma normalizedEdge_comm a b : normalizedEdge b a = normalizedEdge a b.
Proof. unfold normalizedEdge. now rewrite Nat.min_comm, Nat.max_comm. Qed.

Lemma sharpAngleStep_minimum m a edge f1 f2 :
  let angle := calculateDihedralAngle acosf m f1 f2 (fst edge) (snd edge) in
  minDihedralAngle (metrics (sharpAngleStep acosf m a (edge, [f1; f2])))
  = if replacesMinimum angle (minDihedralAngle (metrics a))
    then angle else minDihedralAngle (metrics a).
Proof.
  intros angle. unfold sharpAngleStep. simpl. fold angle.
  destruct (replacesMinimum angle _); split_ifs; reflexivity.
Qed.

(** ** Faces with two vertex indices *)

(** C10. Walking a face whose ring is the two indices [a] and [b] pushes
    the face index twice under the one normalized key (min, max): once
    for the ring position 0 and once for the wrap-around position 1.  In
    a mesh (with indices in range) that has only this face the edge map
    is the single entry (min, max) -> [0; 0]; its cardinality is 2, so
    the sharp-angle pass takes it for a manifold edge and feeds the
    dihedral angle of face 0 with itself into the running minimum. *)
Theorem two_vertex_face_counted_twice vs a b tc an :
  let face := {| vertexIndices := [a; b]; texCoordIndices := tc |} in
  let key := normalizedEdge a b in
  let m := {| getVertices := vs; getFaces := [face] |} in
  indicesInRange m = true ->
  (forall faceIdx t,
      let t' := walkFace t (faceIdx, face) in
      fst t' = edgeFaceMap_push key faceIdx (edgeFaceMap_push key faceIdx (fst t))
      /\ facesOf key (fst t') = facesOf key (fst t) ++ [faceIdx; faceIdx])
  /\ (let topo := buildTopology m an in
      let angle := calculateDihedralAngle acosf m 0 0 (fst key) (snd key) in
      edgeFaceMap topo = [(key, [0; 0])]
      /\ checkSharpAngles acosf m topo = sharpAngleStep acosf m topo (key, [0; 0])
      /\ minDihedralAngle (metrics (checkSharpAngles acosf m topo))
         = if replacesMinimum angle (minDihedralAngle (metrics an))
           then angle else minDihedralAngle (metrics an)).
Proof.
  intros face key m _.
  assert (W : forall faceIdx t,
             fst (walkFace t (faceIdx, face))
             = edgeFaceMap_push key faceIdx (edgeFaceMap_push key faceIdx (fst t))).
  { intros faceIdx t. unfold walkFace, walkEdge. simpl.
    rewrite (normalizedEdge_swap a b), (normalizedEdge_swap b a), normalizedEdge_comm.
    reflexivity. }
  split.
  - intros faceIdx t. split; [apply W|].
    rewrite W, !edgeFaceMap_push_facesOf, <- app_assoc. reflexivity.
  - assert (E : edgeFaceMap (buildTopology m an) = [(key, [0; 0])]).
    { unfold buildTopology. cbn [edgeFaceMap set_topology].
      change (indexed (getFaces m)) with [(0, face)]. cbn [fold_left].
      rewrite W. simpl. now rewrite Edge_compare_refl. }
    split; [exact E|]. split.
    + unfold checkSharpAngles. rewrite E. reflexivity.
    + unfold checkSharpAngles. rewrite E. cbn [fold_left].
      exact (sharpAngleStep_minimum m (buildTopology m an) key 0 0).
Qed.

(** ** Non-manifold edges *)

(** Advancing a [size_t] counter [n] times, [n] positive, adds [n]
    modulo 2^64, whatever the counter holds. *)
Lemma size_t_incr_times n c :
  0 < n -> Nat.iter n size_t_incr c = ((c + Z.of_nat n) mod 2 ^ 64)%Z.
Proof.
  intros Hn. destruct n as [|n]; [lia|]. clear Hn.
  induction n as [|n IH].
  - reflexivity.
  - change (Nat.iter (S (S n)) size_t_incr c)
      with (size_t_incr (Nat.iter (S n) size_t_incr c)).
    rewrite IH. unfold size_t_incr, SIZE_MOD.
    rewrite Zplus_mod_idemp_l. f_equal. lia.
Qed.

(** C5. For a mesh with indices in range and every entry of the edge map
    whose face list has length n > 2: the issue list of the run holds
    exactly one Non-Manifold Edge issue naming that edge (first endpoint
    as element, second as related element), its severity is
    min(1, (n-2)/4) in single precision, and processing the entry makes
    the non-manifold counter (old + 1) mod 2^64, which is old + 1 unless
    the counter was at its maximum; the counter of the run is the
    incoming counter plus the number of such entries, again modulo 2^64.
    With n = 3 the severity is 0.25. *)
Theorem non_manifold_edge_reported_once m a e fs :
  indicesInRange m = true ->
  In (e, fs) (edgeFaceMap (buildTopology m a)) ->
  2 < length fs ->
  let final := analyzeQuality acosf m a in
  filter (reportsEdge e) (getIssues final)
  = [ {| type := NON_MANIFOLD_EDGE;
         elementIndex := fst e;
         severity := F32.std_min F32.one
                       (F32.div (F32.of_size_t (length fs - 2)) (F32.of_Z 4));
         relatedElements := [snd e] |} ]
  /\ (forall st,
        nonManifoldEdgeCount (metrics (nonManifoldStep st (e, fs)))
        = ((nonManifoldEdgeCount (metrics st) + 1) mod 2 ^ 64)%Z)
  /\ (forall st,
        (0 <= nonManifoldEdgeCount (metrics st) < 2 ^ 64 - 1)%Z ->
        nonManifoldEdgeCount (metrics (nonManifoldStep st (e, fs)))
        = (nonManifoldEdgeCount (metrics st) + 1)%Z)
  /\ In (e, fs) (filter isNonManifold (edgeFaceMap final))
  /\ nonManifoldEdgeCount (getMetrics final)
     = ((nonManifoldEdgeCount (metrics a)
         + Z.of_nat (length (filter isNonManifold (edgeFaceMap final)))) mod 2 ^ 64)%Z
  /\ (length fs = 3 ->
      F32.std_min F32.one (F32.div (F32.of_size_t (length fs - 2)) (F32.of_Z 4))
      = F32.literal 1 4).
Proof.
  intros _ Hin Hlen final.
  assert (Hnm : isNonManifold (e, fs) = true)
    by (unfold isNonManifold; simpl; now apply Nat.ltb_lt).
  destruct (analyzeQuality_shape m a) as (pre & mid & post & I & Fpre & Fmid & Fpost & E & C).
  fold final in I, E, C.
  assert (O : forall l, Forall otherPass l -> filter (reportsEdge e) l = []).
  { intros l. apply filter_none. intros i [Hi _].
    destruct (reportsEdge e i) eqn:R; [|reflexivity].
    apply reportsEdge_type in R. contradiction. }
  repeat split.
  - unfold getIssues. rewrite I, !filter_app, (O pre), (O mid), (O post) by assumption.
    rewrite (filter_none (reportsEdge e) (hasType OVERLAPPING_VERTICES) (overlapIssues m)).
    + rewrite (reportsEdge_unique _ e fs); [reflexivity | | | assumption].
      * apply buildTopology_ascending.
      * exact Hin.
    + intros i Hi. destruct (reportsEdge e i) eqn:R; [|reflexivity].
      apply reportsEdge_type in R. unfold hasType in Hi. congruence.
    + apply overlapIssues_type.
  - intros st. unfold nonManifoldStep. simpl.
    replace (2 <? length fs) with true by (symmetry; now apply Nat.ltb_lt).
    reflexivity.
  - intros st Hst. unfold nonManifoldStep. simpl.
    replace (2 <? length fs) with true by (symmetry; now apply Nat.ltb_lt).
    simpl. unfold size_t_incr, SIZE_MOD. apply Z.mod_small. lia.
  - rewrite E. apply filter_In. split; assumption.
  - unfold getMetrics. rewrite C, E. apply size_t_incr_times.
    assert (Hf : In (e, fs) (filter isNonManifold (edgeFaceMap (buildTopology m a))))
      by (apply filter_In; split; assumption).
    destruct (filter isNonManifold (edgeFaceMap (buildTopology m a)));
      [contradiction | simpl; lia].
  - intros ->. reflexivity.
Qed.

(** ** Overlapping vertices *)




(** ** Meshes without faces *)

Lemma checkVertexValence_isolated a :
  Forall (fun l => l = []) (vertexConnectivity a) -> checkVertexValence a = a.
Proof.
  intros F. unfold checkVertexValence. apply fold_left_identity.
  intros s [vertexIdx neighbours] Hin. apply in_combine_r in Hin.
  rewrite (proj1 (Forall_forall _ _) F neighbours Hin). reflexivity.
Qed.

Lemma analyzeQuality_no_faces m a :
  getFaces m = [] ->
  analyzeQuality acosf m a
  = set_issues (set_topology a [] (repeat [] (length (getVertices m)))) (overlapIssues m).
Proof.
  intros H. unfold analyzeQuality, calculateOverallMetrics.
  assert (T : buildTopology m (set_issues a [])
              = set_topology (set_issues a []) [] (repeat [] (length (getVertices m)))).
  { unfold buildTopology. rewrite H. reflexivity. }
  rewrite T. set (a0 := set_topology _ _ _).
  assert (D : checkDegenerateFaces m a0 = a0)
    by (unfold checkDegenerateFaces; rewrite H; reflexivity).
  rewrite D.
  assert (R : checkAspectRatio m a0 = a0)
    by (unfold checkAspectRatio; rewrite H; reflexivity).
  rewrite R.
  change (checkNonManifoldEdges a0) with a0.
  rewrite checkVertexValence_isolated
    by (apply Forall_forall; intros l Hl; now apply repeat_spec in Hl).
  rewrite checkOverlappingVertices_pushes.
  set (a5 := set_issues a0 _).
  assert (N : checkNormalDirection m a5 = a5)
    by (unfold checkNormalDirection; rewrite H; reflexivity).
  rewrite N.
  assert (U : checkUVStretch m a5 = a5)
    by (unfold checkUVStretch; rewrite H; reflexivity).
  rewrite U. reflexivity.
Qed.

(** C2, as the code has it.  For a mesh with no face, one run of a
    freshly constructed analyzer leaves every metrics field at its
    initial sentinel (minima at the largest float, maxima, averages,
    counters and the UV stretch factor at zero); the issue list holds
    the Overlapping Vertices issues of the all-pairs vertex scan and
    nothing else, so it is empty exactly when that scan reports no pair,
    in particular when no two vertices pass the overlap test. *)
Theorem zero_faces_keep_sentinels m threshold :
  getFaces m = [] ->
  let a := analyzeQuality acosf m (MeshQualityAnalyzer threshold) in
  getMetrics a = initial_metrics
  /\ (minFaceArea (getMetrics a) = F32.FLT_MAX /\ maxFaceArea (getMetrics a) = F32.zero
      /\ minAspectRatio (getMetrics a) = F32.FLT_MAX
      /\ maxAspectRatio (getMetrics a) = F32.zero
      /\ degenerateFaceCount (getMetrics a) = 0%Z
      /\ uvStretchFactor (getMetrics a) = F32.zero)
  /\ getIssues a = overlapIssues m
  /\ Forall (hasType OVERLAPPING_VERTICES) (getIssues a)
  /\ ((forall i j, i < j -> j < length (getVertices m) ->
                   overlaps (vertexAt m i) (vertexAt m j) = false) ->
      getIssues a = []).
Proof.
  intros H a. unfold a, getMetrics, getIssues.
  rewrite (analyzeQuality_no_faces m _ H). simpl.
  repeat split; try reflexivity.
  - apply overlapIssues_type.
  - intros Hnone. unfold overlapIssues, overlapIssuesFrom.
    apply flat_map_all_nil. intros i Hi. apply flat_map_all_nil. intros j Hj.
    apply in_seq in Hj. rewrite Hnone; [reflexivity | lia | lia].
Qed.

(** ** Re-running the analysis *)

(** C1, at two concrete meshes.  The issue list of a second run equals
    that of the first, but the two counters are never reset: on a mesh
    with one degenerate face the degenerate-face counter reads 1 after
    the first run and 2 after the second, and on a fan of three
    triangles around one edge the non-manifold counter reads 1 and then
    2. *)
Theorem rerun_accumulates_counters threshold :
  let first := analyzeQuality acosf sliver (MeshQualityAnalyzer threshold) in
  let second := analyzeQuality acosf sliver first in
  let first' := analyzeQuality acosf fan3 (MeshQualityAnalyzer threshold) in
  let second' := analyzeQuality acosf fan3 first' in
  getIssues second = getIssues first
  /\ degenerateFaceCount (getMetrics first) = 1%Z
  /\ degenerateFaceCount (getMetrics second) = 2%Z
  /\ getMetrics second <> getMetrics first
  /\ getIssues second' = getIssues first'
  /\ nonManifoldEdgeCount (getMetrics first') = 1%Z
  /\ nonManifoldEdgeCount (getMetrics second') = 2%Z.
Proof.
  intros first second first' second'.
  assert (D1 : degenerateFaceCount (getMetrics first) = 1%Z) by (vm_compute; reflexivity).
  assert (D2 : degenerateFaceCount (getMetrics second) = 2%Z) by (vm_compute; reflexivity).
  split; [apply analyzeQuality_issues_rerun|].
  split; [exact D1|]. split; [exact D2|].
  split; [intros E; rewrite E, D1 in D2; discriminate|].
  split; [apply analyzeQuality_issues_rerun|].
  split; vm_compute; reflexivity.
Qed.

End Properties.

(** ** Binary32 rounding: digits, shifts and validity *)

Local Open Scope Z_scope.


Lemma fexp32 e : fexp F32.prec F32.emax e = Z.max (e - 24) (-149).
Proof. reflexivity. Qed.

Lemma digits2_pos_size p : digits2_pos p = Pos.size p.
Proof. induction p; simpl; congruence. Qed.

Lemma Zdigits2_log2 m : 0 < m -> Zdigits2 m = Z.log2 m + 1.
Proof.
  destruct m as [|p|p]; try lia. intros _. simpl. rewrite digits2_pos_size.
  destruct p; simpl; lia.
Qed.

Lemma Zdigits2_nonneg m : 0 <= Zdigits2 m.
Proof. destruct m; simpl; lia. Qed.

Lemma Zdigits2_pos m : 0 < m -> 0 < Zdigits2 m.
Proof. destruct m; simpl; lia. Qed.

Lemma Zdigits2_shiftr m n :
  0 <= m -> 0 <= n -> 0 < Z.shiftr m n -> Zdigits2 (Z.shiftr m n) = Zdigits2 m - n.
Proof.
  intros Hm Hn Hs.
  assert (0 < m).
  { destruct (Z.eq_dec m 0) as [->|]; [rewrite Z.shiftr_0_l in Hs|]; lia. }
  rewrite !Zdigits2_log2 by assumption.
  rewrite Z.log2_shiftr by assumption.
  destruct (Z.lt_ge_cases (Z.log2 m) n) as [L|L].
  - rewrite Z.shiftr_eq_0 in Hs by lia. lia.
  - lia.
Qed.

Lemma Zdigits2_shiftr_0 m n :
  0 <= m -> 0 <= n -> Z.shiftr m n = 0 -> Zdigits2 m <= n.
Proof.
  intros Hm Hn Hs. destruct (Z.eq_dec m 0) as [->|Hne]; [simpl; lia|].
  rewrite Zdigits2_log2 by lia.
  apply Z.shiftr_eq_0_iff in Hs. destruct Hs as [->|[_ L]]; lia.
Qed.

Lemma Zdigits2_succ m :
  0 <= m -> Zdigits2 (m + 1) = Zdigits2 m \/ Zdigits2 (m + 1) = Zdigits2 m + 1.
Proof.
  intros Hm. destruct (Z.eq_dec m 0) as [->|Hne]; [right; reflexivity|].
  rewrite !Zdigits2_log2 by lia.
  destruct (Z.log2_succ_or m) as [E|E]; unfold Z.succ in E; rewrite E; lia.
Qed.

Lemma shr_1_m r : 0 <= shr_m r -> shr_m (shr_1 r) = Z.shiftr (shr_m r) 1.
Proof.
  destruct r as [m b c]. simpl. intros Hm.
  rewrite <- Z.div2_spec. destruct m as [|[p|p|]|]; try reflexivity; lia.
Qed.

Lemma iter_shr_1_m p : forall r,
  0 <= shr_m r -> shr_m (iter_pos shr_1 p r) = Z.shiftr (shr_m r) (Zpos p).
Proof.
  induction p as [p IH|p IH|]; intros r Hr; simpl.
  - assert (H1 : 0 <= shr_m (shr_1 r)) by (rewrite shr_1_m by assumption; now apply Z.shiftr_nonneg).
    assert (H2 : 0 <= shr_m (iter_pos shr_1 p (shr_1 r))) by (rewrite IH by assumption; now apply Z.shiftr_nonneg).
    rewrite IH, IH, shr_1_m by assumption.
    rewrite !Z.shiftr_shiftr by lia. f_equal. lia.
  - assert (H2 : 0 <= shr_m (iter_pos shr_1 p r)) by (rewrite IH by assumption; now apply Z.shiftr_nonneg).
    rewrite IH, IH by assumption. rewrite Z.shiftr_shiftr by lia. f_equal. lia.
  - now apply shr_1_m.
Qed.

Lemma shr_fexp_spec m e l :
  0 <= m -> e <= fexp F32.prec F32.emax (Zdigits2 m + e) ->
  let e1 := fexp F32.prec F32.emax (Zdigits2 m + e) in
  shr_m (fst (shr_fexp F32.prec F32.emax m e l)) = Z.shiftr m (e1 - e)
  /\ snd (shr_fexp F32.prec F32.emax m e l) = e1.
Proof.
  intros Hm He e1. unfold shr_fexp, shr. fold e1.
  assert (R : shr_m (shr_record_of_loc m l) = m) by (destruct l as [|[]]; reflexivity).
  destruct (e1 - e) as [|p|p] eqn:E; simpl.
  - rewrite R. split; [reflexivity | lia].
  - rewrite iter_shr_1_m by (rewrite R; assumption). rewrite R. split; [reflexivity|lia].
  - lia.
Qed.

Lemma round_nearest_even_or m l :
  round_nearest_even m l = m \/ round_nearest_even m l = m + 1.
Proof.
  destruct l as [|[]]; simpl; auto. destruct (Z.even m); auto.
Qed.

Lemma binary_round_aux_spec s m e l :
  0 <= m -> e <= fexp F32.prec F32.emax (Zdigits2 m + e) ->
  let e1 := fexp F32.prec F32.emax (Zdigits2 m + e) in
  exists m2 e2,
    binary_round_aux F32.prec F32.emax s m e l = packed s m2 e2
    /\ 0 <= m2
    /\ e1 <= e2 <= e1 + 1
    /\ (0 < m2 -> fexp F32.prec F32.emax (Zdigits2 m2 + e2) = e2)
    /\ (0 < Z.shiftr m (e1 - e) -> 0 < m2).
Proof.
  intros Hm He e1.
  destruct (shr_fexp_spec m e l Hm He) as [S1 S2]. fold e1 in S1, S2.
  unfold binary_round_aux.
  destruct (shr_fexp F32.prec F32.emax m e l) as [mrs1 e1'] eqn:R1.
  simpl in S1, S2. subst e1'.
  set (m1 := Z.shiftr m (e1 - e)) in *.
  assert (Hm1 : 0 <= m1) by (apply Z.shiftr_nonneg; assumption).
  set (m1' := round_nearest_even (shr_m mrs1) (loc_of_shr_record mrs1)).
  assert (Hr : m1' = m1 \/ m1' = m1 + 1)
    by (unfold m1'; rewrite S1; apply round_nearest_even_or).
  assert (Hm1' : 0 <= m1') by lia.
  pose proof (Zdigits2_succ m1 Hm1) as Hd.
  pose proof (Zdigits2_nonneg m) as Hdm.
  assert (HA : 0 < m1 -> Zdigits2 m1 = Zdigits2 m - (e1 - e))
    by (intros; apply Zdigits2_shiftr; lia).
  assert (HB : m1 = 0 -> Zdigits2 m <= e1 - e)
    by (intros; apply Zdigits2_shiftr_0; lia).
  assert (E1 : e1 = Z.max (Zdigits2 m + e - 24) (-149)) by reflexivity.
  assert (D0 : Zdigits2 0 = 0) by reflexivity.
  assert (D1 : Zdigits2 (0 + 1) = 1) by reflexivity.
  clearbody m1' m1 e1.
  assert (Hpre : e1 <= fexp F32.prec F32.emax (Zdigits2 m1' + e1)).
  { rewrite fexp32. destruct (Z.eq_dec m1 0) as [Z|NZ].
    - specialize (HB Z). rewrite Z in Hr.
      destruct Hr as [-> | ->]; lia.
    - destruct Hr as [-> | ->]; lia. }
  destruct (shr_fexp_spec m1' e1 loc_Exact Hm1' Hpre) as [T1 T2].
  destruct (shr_fexp F32.prec F32.emax m1' e1 loc_Exact) as [mrs2 e2] eqn:R2.
  simpl in T1, T2.
  exists (shr_m mrs2), e2.
  assert (E2 : e2 = Z.max (Zdigits2 m1' + e1 - 24) (-149)) by (rewrite T2; apply fexp32).
  assert (Hn : e1 <= e2 <= e1 + 1).
  { destruct (Z.eq_dec m1 0) as [Z|NZ].
    - specialize (HB Z). rewrite Z in Hr.
      destruct Hr as [Hr | Hr]; rewrite Hr in E2; lia.
    - destruct Hr as [Hr | Hr]; rewrite Hr in E2; lia. }
  assert (Hm2 : 0 <= shr_m mrs2) by (rewrite T1; apply Z.shiftr_nonneg; assumption).
  split; [|split; [exact Hm2|split; [exact Hn|split]]].
  - unfold packed. destruct (shr_m mrs2); reflexivity.
  - intros Hpos. rewrite T1 in Hpos |- *. rewrite <- T2 in *.
    rewrite Zdigits2_shiftr by lia. rewrite fexp32 in *. lia.
  - intros Hpos. rewrite T1, <- T2.
    assert (Hc : Z.shiftr m1' (e2 - e1) = 0 -> False).
    { intros Z0'. apply Zdigits2_shiftr_0 in Z0'; [|lia|lia].
      pose proof (Zdigits2_pos m1 Hpos) as Hp.
      destruct Hr as [Hr | Hr]; rewrite Hr in Z0', E2;
        clear - Hd E1 E2 Hn Z0' Hp; lia. }
    pose proof (proj2 (Z.shiftr_nonneg m1' (e2 - e1)) Hm1') as Hnn.
    clear - Hc Hnn. lia.
Qed.

Lemma valid_finite s m e :
  F32.valid (S754_finite s m e) = true <->
  fexp F32.prec F32.emax (Zdigits2 (Zpos m) + e) = e /\ e <= 104.
Proof.
  unfold F32.valid, valid_binary, bounded, canonical_mantissa.
  rewrite andb_true_iff, Z.eqb_eq, Z.leb_le. reflexivity.
Qed.

Lemma packed_valid s m e :
  (0 < m -> fexp F32.prec F32.emax (Zdigits2 m + e) = e) ->
  F32.valid (packed s m e) = true.
Proof.
  intros H. destruct m as [|p|p]; simpl; try reflexivity.
  destruct (Z.leb_spec e 104); [|reflexivity].
  apply valid_finite. split; [apply H; lia | assumption].
Qed.

Lemma binary_round_aux_valid s m e l :
  0 <= m -> e <= fexp F32.prec F32.emax (Zdigits2 m + e) ->
  F32.valid (binary_round_aux F32.prec F32.emax s m e l) = true.
Proof.
  intros Hm He.
  destruct (binary_round_aux_spec s m e l Hm He) as (m2 & e2 & -> & _ & _ & C & _).
  now apply packed_valid.
Qed.

Lemma digits2_pos_iter_xO m d :
  Zpos (digits2_pos (Pos.iter xO m d)) = Zpos (digits2_pos m) + Zpos d.
Proof.
  induction d as [|d IH] using Pos.peano_ind.
  - simpl. lia.
  - rewrite Pos.iter_succ. simpl. lia.
Qed.

Lemma binary_round_valid s m e : F32.valid (binary_round F32.prec F32.emax s m e) = true.
Proof.
  unfold binary_round, shl_align.
  destruct (fexp F32.prec F32.emax (Zpos (digits2_pos m) + e) - e) as [|p|p] eqn:E;
    apply binary_round_aux_valid; try lia; simpl Zdigits2.
  - lia.
  - lia.
  - rewrite digits2_pos_iter_xO.
    replace (Zpos (digits2_pos m) + Zpos p
             + fexp F32.prec F32.emax (Zpos (digits2_pos m) + e))
      with (Zpos (digits2_pos m) + e) by lia.
    lia.
Qed.

Lemma binary_normalize_valid m e s :
  F32.valid (binary_normalize F32.prec F32.emax m e s) = true.
Proof.
  destruct m; simpl; [reflexivity| |]; apply binary_round_valid.
Qed.

Lemma F32_add_valid x y :
  F32.valid x = true -> F32.valid y = true -> F32.valid (F32.add x y) = true.
Proof.
  intros Hx Hy. unfold F32.add.
  destruct x as [sx|sx| |sx mx ex], y as [sy|sy| |sy my ey];
    try reflexivity; try assumption;
    try (destruct sx, sy; reflexivity).
  apply binary_normalize_valid.
Qed.

Lemma F32_sub_valid x y :
  F32.valid x = true -> F32.valid y = true -> F32.valid (F32.sub x y) = true.
Proof.
  intros Hx Hy. unfold F32.sub.
  destruct x as [sx|sx| |sx mx ex], y as [sy|sy| |sy my ey];
    try reflexivity; try assumption;
    try (destruct sx, sy; reflexivity).
  apply binary_normalize_valid.
Qed.


Lemma F32_mul_valid x y :
  F32.valid x = true -> F32.valid y = true -> F32.valid (F32.mul x y) = true.
Proof.
  intros Hx Hy. unfold F32.mul.
  destruct x as [sx|sx| |sx mx ex], y as [sy|sy| |sy my ey]; try reflexivity.
  apply valid_finite in Hx, Hy. destruct Hx as [Cx _], Hy as [Cy _].
  unfold SFmul. apply binary_round_aux_valid; [lia|].
  rewrite fexp32 in *.
  assert (D : Zdigits2 (Zpos mx) + Zdigits2 (Zpos my) - 1 <= Zdigits2 (Zpos (mx * my))).
  { rewrite !Zdigits2_log2 by lia. rewrite Pos2Z.inj_mul.
    pose proof (Z.log2_mul_below (Zpos mx) (Zpos my)). lia. }
  pose proof (Zdigits2_pos (Zpos mx)). pose proof (Zdigits2_pos (Zpos my)).
  lia.
Qed.


(** ** Square root and division *)


Lemma log2_sqrt a : 0 < a -> Z.log2 (Z.sqrt a) = Z.log2 a / 2.
Proof.
  intros Ha.
  pose proof (Z.log2_nonneg a) as HL.
  destruct (Z.log2_spec a Ha) as [Lo Hi].
  assert (Hk : exists k, k = Z.log2 a / 2 /\ 0 <= k /\ 2 * k <= Z.log2 a < 2 * k + 2).
  { exists (Z.log2 a / 2). split; [reflexivity|]. generalize dependent (Z.log2 a).
    intros L ? ? ?. Z.div_mod_to_equations. lia. }
  destruct Hk as (k & <- & K0 & K1).
  clear HL. generalize dependent (Z.log2 a). intros L Lo Hi K1.
  assert (P : 0 < 2 ^ k) by (apply Z.pow_pos_nonneg; lia).
  assert (P' : 0 < 2 ^ (k + 1)) by (apply Z.pow_pos_nonneg; lia).
  apply Z.log2_unique; [lia|]. split.
  - apply Z.sqrt_le_square; [lia | lia |].
    rewrite <- Z.pow_add_r by lia.
    apply Z.le_trans with (2 ^ L); [|assumption].
    apply Z.pow_le_mono_r; lia.
  - apply Z.sqrt_lt_square; [lia | unfold Z.succ; lia |].
    unfold Z.succ. rewrite <- Z.pow_add_r by lia.
    apply Z.lt_le_trans with (2 ^ Z.succ L); [assumption|].
    apply Z.pow_le_mono_r; lia.
Qed.

Lemma Zdigits2_sqrt a : 0 < a -> Zdigits2 (Z.sqrt a) = (Zdigits2 a + 1) / 2.
Proof.
  intros Ha.
  assert (0 < Z.sqrt a) by (apply Z.sqrt_pos; assumption).
  rewrite !Zdigits2_log2 by assumption. rewrite log2_sqrt by assumption.
  pose proof (Z.log2_nonneg a). Z.div_mod_to_equations. lia.
Qed.

Lemma Zdigits2_shiftl a n : 0 < a -> 0 <= n -> Zdigits2 (Z.shiftl a n) = Zdigits2 a + n.
Proof.
  intros Ha Hn.
  assert (0 < Z.shiftl a n).
  { rewrite Z.shiftl_mul_pow2 by assumption. apply Z.mul_pos_pos; [assumption|].
    apply Z.pow_pos_nonneg; lia. }
  rewrite !Zdigits2_log2 by assumption. rewrite Z.log2_shiftl by assumption. lia.
Qed.

(** The scaled mantissa of the division and square-root cores. *)
Lemma scaled_mantissa m s :
  0 <= s ->
  match s with Zpos _ => Z.shiftl (Zpos m) s | Z0 => Zpos m | Zneg _ => 0 end
  = Z.shiftl (Zpos m) s.
Proof. destruct s; try reflexivity. lia. Qed.

Lemma sqrt_core_spec m e :
  let '(q, e', l) := SFsqrt_core_binary F32.prec F32.emax (Zpos m) e in
  0 < q
  /\ Zdigits2 q + e' = (Zdigits2 (Zpos m) + e + 1) / 2
  /\ e' <= fexp F32.prec F32.emax (Zdigits2 q + e').
Proof.
  unfold SFsqrt_core_binary.
  set (d := Zdigits2 (Zpos m)).
  set (e' := Z.min (fexp F32.prec F32.emax (Z.div2 (d + e + 1))) (Z.div2 e)).
  assert (He' : e' <= fexp F32.prec F32.emax ((d + e + 1) / 2) /\ 2 * e' <= e).
  { unfold e'. rewrite !Z.div2_div. Z.div_mod_to_equations. lia. }
  clearbody e'. destruct He' as [H1 H2].
  rewrite scaled_mantissa by lia.
  set (m' := Z.shiftl (Zpos m) (e - 2 * e')).
  assert (Dm' : Zdigits2 m' = d + (e - 2 * e')) by (apply Zdigits2_shiftl; lia).
  assert (Pm' : 0 < m').
  { unfold m'. rewrite Z.shiftl_mul_pow2 by lia. apply Z.mul_pos_pos; [lia|].
    apply Z.pow_pos_nonneg; lia. }
  pose proof (Z.sqrtrem_sqrt m') as Hq.
  destruct (Z.sqrtrem m') as [q r]. simpl in Hq. subst q.
  assert (Dq : Zdigits2 (Z.sqrt m') + e' = (d + e + 1) / 2).
  { rewrite Zdigits2_sqrt by assumption. rewrite Dm'. clear. Z.div_mod_to_equations. lia. }
  split; [apply Z.sqrt_pos; assumption|]. split; [exact Dq|].
  rewrite Dq. exact H1.
Qed.

Lemma F32_sqrt_valid x : F32.valid (F32.sqrt x) = true.
Proof.
  unfold F32.sqrt. destruct x as [sx|[|]| |[|] mx ex]; try reflexivity.
  unfold SFsqrt. pose proof (sqrt_core_spec mx ex) as H.
  destruct (SFsqrt_core_binary F32.prec F32.emax (Zpos mx) ex) as [[q e'] l].
  destruct H as (Q & _ & P). apply binary_round_aux_valid; lia.
Qed.

(** The square root of a valid float lies below 2^65. *)
Lemma F32_sqrt_magnitude x :
  F32.valid x = true ->
  match F32.sqrt x with
  | S754_finite _ m e => Zdigits2 (Zpos m) + e <= 65
  | _ => True
  end.
Proof.
  intros V. unfold F32.sqrt. destruct x as [sx|[|]| |[|] mx ex]; try exact I.
  apply valid_finite in V. destruct V as [C B].
  unfold SFsqrt. pose proof (sqrt_core_spec mx ex) as H.
  destruct (SFsqrt_core_binary F32.prec F32.emax (Zpos mx) ex) as [[q e'] l].
  destruct H as (Q & D & P).
  destruct (binary_round_aux_spec false q e' l (Z.lt_le_incl _ _ Q) P)
    as (m2 & e2 & -> & _ & E & K & _).
  unfold packed. destruct m2 as [|p|p]; try exact I.
  destruct (e2 <=? 104); [|exact I].
  specialize (K eq_refl). rewrite fexp32 in *.
  pose proof (Zdigits2_pos (Zpos mx)).
  assert ((Zdigits2 (Zpos mx) + ex + 1) / 2 <= 64) by (Z.div_mod_to_equations; lia).
  lia.
Qed.

Lemma Zdigits2_div_lower a b :
  0 < a -> 0 < b -> Zdigits2 a - Zdigits2 b <= Zdigits2 (a / b).
Proof.
  intros Ha Hb. pose proof (Zdigits2_nonneg (a / b)) as Hq.
  rewrite (Zdigits2_log2 a), (Zdigits2_log2 b) by assumption.
  destruct (Z.le_gt_cases (Z.log2 a) (Z.log2 b)) as [L|L]; [lia|].
  destruct (Z.log2_spec a Ha) as [La _]. destruct (Z.log2_spec b Hb) as [_ Ub].
  pose proof (Z.log2_nonneg b) as Nb.
  assert (Q : 2 ^ (Z.log2 a - Z.log2 b - 1) <= a / b).
  { apply Z.div_le_lower_bound; [assumption|].
    apply Z.le_trans with (2 ^ Z.succ (Z.log2 b) * 2 ^ (Z.log2 a - Z.log2 b - 1)).
    - apply Z.mul_le_mono_nonneg_r; [apply Z.pow_nonneg|]; lia.
    - rewrite <- Z.pow_add_r by lia.
      replace (Z.succ (Z.log2 b) + (Z.log2 a - Z.log2 b - 1)) with (Z.log2 a) by lia.
      assumption. }
  assert (P : 0 < a / b).
  { eapply Z.lt_le_trans; [|exact Q]. apply Z.pow_pos_nonneg; lia. }
  rewrite (Zdigits2_log2 (a / b)) by assumption.
  apply Z.log2_le_pow2 in Q; [lia | assumption].
Qed.

Lemma Zdigits2_div_upper a b :
  0 < a -> 0 < b -> Zdigits2 (a / b) <= Z.max 0 (Zdigits2 a - Zdigits2 b + 1).
Proof.
  intros Ha Hb.
  assert (N : 0 <= a / b) by (apply Z.div_pos; lia).
  destruct (Z.eq_dec (a / b) 0) as [->|NZ]; [simpl; lia|].
  assert (P : 0 < a / b) by lia.
  assert (Hab : b <= a).
  { destruct (Z.le_gt_cases b a); [assumption|]. rewrite Z.div_small in NZ; lia. }
  pose proof (Z.log2_le_mono b a Hab) as Lm.
  rewrite (Zdigits2_log2 a), (Zdigits2_log2 b), (Zdigits2_log2 (a / b)) by assumption.
  destruct (Z.log2_spec a Ha) as [_ Ua]. destruct (Z.log2_spec b Hb) as [Lb _].
  pose proof (Z.log2_nonneg b) as Nb.
  assert (Q : a / b < 2 ^ (Z.log2 a - Z.log2 b + 1)).
  { apply Z.div_lt_upper_bound; [assumption|].
    apply Z.lt_le_trans with (2 ^ Z.log2 b * 2 ^ (Z.log2 a - Z.log2 b + 1)).
    - rewrite <- Z.pow_add_r by lia.
      replace (Z.log2 b + (Z.log2 a - Z.log2 b + 1)) with (Z.succ (Z.log2 a)) by lia.
      assumption.
    - apply Z.mul_le_mono_nonneg_r; [apply Z.pow_nonneg; lia | assumption]. }
  apply Z.log2_lt_pow2 in Q; [lia | assumption].
Qed.

Lemma div_core_spec mx ex my ey :
  let '(q, e', l) := SFdiv_core_binary F32.prec F32.emax (Zpos mx) ex (Zpos my) ey in
  let D := Zdigits2 (Zpos mx) + ex - (Zdigits2 (Zpos my) + ey) in
  0 <= q
  /\ e' = Z.min (fexp F32.prec F32.emax D) (ex - ey)
  /\ q = Z.shiftl (Zpos mx) (ex - ey - e') / Zpos my
  /\ D <= Zdigits2 q + e' <= Z.max e' (D + 1)
  /\ e' <= fexp F32.prec F32.emax (Zdigits2 q + e').
Proof.
  unfold SFdiv_core_binary.
  set (D := Zdigits2 (Zpos mx) + ex - (Zdigits2 (Zpos my) + ey)).
  remember (Z.min (fexp F32.prec F32.emax D) (ex - ey)) as e' eqn:Ee'.
  assert (Hs : 0 <= ex - ey - e') by lia.
  rewrite scaled_mantissa by assumption.
  remember (Z.shiftl (Zpos mx) (ex - ey - e')) as m' eqn:Em'.
  assert (Pm' : 0 < m').
  { subst m'. rewrite Z.shiftl_mul_pow2 by lia. apply Z.mul_pos_pos; [lia|].
    apply Z.pow_pos_nonneg; lia. }
  assert (Dm' : Zdigits2 m' = Zdigits2 (Zpos mx) + (ex - ey - e'))
    by (subst m'; apply Zdigits2_shiftl; lia).
  assert (Hq : fst (Z.div_eucl m' (Zpos my)) = m' / Zpos my) by reflexivity.
  destruct (Z.div_eucl m' (Zpos my)) as [q r]. simpl in Hq. subst q.
  pose proof (Zdigits2_div_lower m' (Zpos my) Pm' eq_refl) as Lo.
  pose proof (Zdigits2_div_upper m' (Zpos my) Pm' eq_refl) as Up.
  assert (N : 0 <= m' / Zpos my) by (apply Z.div_pos; lia).
  rewrite Dm' in Lo, Up. unfold D in *. clear D. rewrite fexp32 in *.
  repeat split; try assumption; try reflexivity; try (now rewrite Em'); lia.
Qed.

Lemma F32_div_valid x y : F32.valid (F32.div x y) = true.
Proof.
  unfold F32.div.
  destruct x as [sx|sx| |sx mx ex], y as [sy|sy| |sy my ey]; try reflexivity.
  unfold SFdiv. pose proof (div_core_spec mx ex my ey) as H.
  destruct (SFdiv_core_binary _ _ _ _ _ _) as [[q e'] l].
  destruct H as (Q & _ & _ & _ & P). now apply binary_round_aux_valid.
Qed.

(** A quotient of a numerator below 2^65 by a denominator of at least
    2^-20 does not overflow. *)
Lemma F32_div_finite sx mx ex sy my ey :
  Zdigits2 (Zpos mx) + ex <= 65 -> -19 <= Zdigits2 (Zpos my) + ey ->
  F32.is_finite (F32.div (S754_finite sx mx ex) (S754_finite sy my ey)) = true.
Proof.
  intros Hx Hy. unfold F32.div, SFdiv.
  pose proof (div_core_spec mx ex my ey) as H.
  destruct (SFdiv_core_binary _ _ _ _ _ _) as [[q e'] l].
  destruct H as (Q & E & _ & B & P).
  destruct (binary_round_aux_spec (xorb sx sy) q e' l Q P) as (m2 & e2 & -> & N & R & _).
  rewrite fexp32 in *.
  unfold packed. destruct m2 as [|p|p]; [reflexivity | | lia].
  destruct (Z.leb_spec e2 104); [reflexivity | lia].
Qed.

Lemma Zdigits2_24 p : Zdigits2 (Zpos p) = 24 -> 8388608 <= Zpos p.
Proof.
  intros H. rewrite Zdigits2_log2 in H by lia.
  destruct (Z.log2_spec (Zpos p)) as [L _]; [lia|].
  replace (Z.log2 (Zpos p)) with 23 in L by lia. exact L.
Qed.




(** ** Ordering *)


(** Comparison of two positive finite numbers: exponent first, then
    mantissa. *)
Lemma lt_finite_pos m1 e1 m2 e2 :
  F32.lt (S754_finite false m1 e1) (S754_finite false m2 e2) = true
  <-> e1 < e2 \/ (e1 = e2 /\ Zpos m1 < Zpos m2).
Proof.
  unfold F32.lt, SFltb, SFcompare. rewrite Pos.compare_cont_spec. simpl Pos.switch_Eq.
  destruct (Z.compare_spec e1 e2) as [E|E|E].
  - destruct (Pos.compare_spec m1 m2) as [M|M|M]; split; intros H;
      try discriminate; try reflexivity; lia.
  - split; [intros _; lia | reflexivity].
  - split; [discriminate | lia].
Qed.

Lemma ge_finite_pos m1 e1 m2 e2 :
  F32.ge (S754_finite false m1 e1) (S754_finite false m2 e2) = true
  <-> e2 < e1 \/ (e1 = e2 /\ Zpos m2 <= Zpos m1).
Proof.
  unfold F32.ge, SFleb, SFcompare. rewrite Pos.compare_cont_spec. simpl Pos.switch_Eq.
  destruct (Z.compare_spec e2 e1) as [E|E|E].
  - destruct (Pos.compare_spec m2 m1) as [M|M|M]; split; intros H;
      try discriminate; try reflexivity; lia.
  - split; [intros _; lia | reflexivity].
  - split; [discriminate | lia].
Qed.

Ltac crush_compare :=
  cbv [F32.ge F32.lt F32.gt SFleb SFltb SFcompare F32.one F32.lit_1em6];
  try discriminate; try reflexivity.




Lemma gt_eps_finite s m e :
  F32.valid (S754_finite s m e) = true ->
  F32.gt (S754_finite s m e) F32.lit_1em6 = true ->
  s = false /\ Zdigits2 (Zpos m) = 24 /\ -43 <= e.
Proof.
  intros V L. apply valid_finite in V. destruct V as [C _]. rewrite fexp32 in C.
  destruct s; [revert L; crush_compare|].
  unfold F32.gt, F32.lit_1em6 in L. apply lt_finite_pos in L. lia.
Qed.




Local Close Scope Z_scope.

(** ** Validity of the geometric primitives *)


Lemma validVertex_fields p :
  validVertex p = true ->
  F32.valid (Vertex.x p) = true /\ F32.valid (Vertex.y p) = true
  /\ F32.valid (Vertex.z p) = true /\ F32.valid (Vertex.u p) = true
  /\ F32.valid (Vertex.v p) = true.
Proof.
  unfold validVertex. rewrite !andb_true_iff. tauto.
Qed.

Lemma vertexAt_valid m i : validMesh m -> validVertex (vertexAt m i) = true.
Proof.
  intros V. unfold vertexAt.
  destruct (nth_in_or_default i (getVertices m) origin) as [H | ->].
  - exact (proj1 (Forall_forall _ _) V _ H).
  - reflexivity.
Qed.

Lemma squaredDistance_valid p q :
  validVertex p = true -> validVertex q = true -> F32.valid (squaredDistance p q) = true.
Proof.
  intros Hp Hq.
  destruct (validVertex_fields p Hp) as (X1 & Y1 & Z1 & _).
  destruct (validVertex_fields q Hq) as (X2 & Y2 & Z2 & _).
  unfold squaredDistance.
  repeat first [apply F32_add_valid | apply F32_mul_valid | apply F32_sub_valid]; assumption.
Qed.

Lemma calculateTriangleArea_valid m i1 i2 i3 :
  F32.valid (calculateTriangleArea m i1 i2 i3) = true.
Proof.
  unfold calculateTriangleArea. apply F32_mul_valid; [reflexivity | apply F32_sqrt_valid].
Qed.


Lemma std_max_cases a b : F32.std_max a b = a \/ F32.std_max a b = b.
Proof. unfold F32.std_max. destruct (F32.lt a b); auto. Qed.

Lemma std_max3_cases a b c :
  F32.std_max3 a b c = a \/ F32.std_max3 a b c = b \/ F32.std_max3 a b c = c.
Proof.
  unfold F32.std_max3.
  destruct (std_max_cases (F32.std_max a b) c) as [-> | ->]; [|auto].
  destruct (std_max_cases a b) as [-> | ->]; auto.
Qed.

(** The longest edge of a triangle of valid vertices is valid and below
    2^65. *)
Lemma longest_edge_bounded m i1 i2 i3 :
  validMesh m ->
  let maxEdge := F32.std_max3 (calculateDistance m i1 i2) (calculateDistance m i2 i3)
                              (calculateDistance m i3 i1) in
  F32.valid maxEdge = true
  /\ match maxEdge with
     | S754_finite _ mm e => (Zdigits2 (Zpos mm) + e <= 65)%Z
     | _ => True
     end.
Proof.
  intros V maxEdge.
  assert (H : forall i j, F32.valid (calculateDistance m i j) = true
                          /\ match calculateDistance m i j with
                             | S754_finite _ mm e => (Zdigits2 (Zpos mm) + e <= 65)%Z
                             | _ => True
                             end).
  { intros i j. unfold calculateDistance. split; [apply F32_sqrt_valid|].
    apply F32_sqrt_magnitude, squaredDistance_valid; now apply vertexAt_valid. }
  unfold maxEdge.
  destruct (std_max3_cases (calculateDistance m i1 i2) (calculateDistance m i2 i3)
                           (calculateDistance m i3 i1)) as [-> | [-> | ->]]; apply H.
Qed.

Lemma guarded_quotient_finite maxEdge x :
  F32.valid maxEdge = true ->
  match maxEdge with
  | S754_finite _ mm e => (Zdigits2 (Zpos mm) + e <= 65)%Z
  | _ => True
  end ->
  let minHeight := F32.div x maxEdge in
  F32.gt minHeight F32.lit_1em6 = true ->
  F32.is_finite (F32.div maxEdge minHeight) = true.
Proof.
  intros V B minHeight G.
  pose proof (F32_div_valid x maxEdge) as Vh. fold minHeight in Vh.
  destruct minHeight as [sh|[|]| |sh mh eh] eqn:Eh;
    try (revert G; crush_compare; fail).
  - (* the height is +infinity *)
    destruct maxEdge as [s|s| |s mm e]; try reflexivity;
      destruct x as [sx|sx| |sx mx ex]; discriminate.
  - destruct (gt_eps_finite _ _ _ Vh G) as (-> & Dh & Hh).
    destruct maxEdge as [s|s| |s mm e]; try reflexivity.
    + destruct x as [sx|sx| |sx mx ex]; discriminate.
    + destruct x as [sx|sx| |sx mx ex]; discriminate.
    + apply F32_div_finite; [assumption | lia].
Qed.

(** ** UV stretch *)


(** ** Aspect ratio *)

(** C7, as the code has it.  The aspect ratio is a total function of
    three vertex indices.  When the area is not above 1e-6 (NaN
    included) the minimum height is 0; when the minimum height is not
    above 1e-6 (NaN included) the result is the largest float and no
    quotient by the height is taken; otherwise the result is the longest
    edge divided by 2*area/longestEdge, with a divisor above 1e-6.  For
    a mesh of valid floats the returned value is never NaN and never
    infinite. *)
Theorem aspect_ratio_guarded m v1Idx v2Idx v3Idx :
  validMesh m ->
  let maxEdge := F32.std_max3 (calculateDistance m v1Idx v2Idx)
                              (calculateDistance m v2Idx v3Idx)
                              (calculateDistance m v3Idx v1Idx) in
  let area := calculateTriangleArea m v1Idx v2Idx v3Idx in
  let minHeight := triangleMinHeight area maxEdge in
  let r := calculateAspectRatio m v1Idx v2Idx v3Idx in
  (F32.gt area F32.lit_1em6 = false -> minHeight = F32.zero)
  /\ (F32.gt minHeight F32.lit_1em6 = false -> r = F32.FLT_MAX)
  /\ (F32.gt minHeight F32.lit_1em6 = true ->
      F32.gt area F32.lit_1em6 = true
      /\ r = F32.div maxEdge (F32.div (F32.mul F32.two area) maxEdge))
  /\ F32.is_finite r = true
  /\ F32.is_nan r = false.
Proof.
  intros V maxEdge area minHeight r.
  assert (R : r = if F32.gt minHeight F32.lit_1em6
                  then F32.div maxEdge minHeight else F32.FLT_MAX) by reflexivity.
  assert (Low : F32.gt area F32.lit_1em6 = false -> minHeight = F32.zero).
  { intros H. unfold minHeight, triangleMinHeight. now rewrite H. }
  assert (High : F32.gt minHeight F32.lit_1em6 = true ->
                 F32.gt area F32.lit_1em6 = true
                 /\ minHeight = F32.div (F32.mul F32.two area) maxEdge).
  { intros H. destruct (F32.gt area F32.lit_1em6) eqn:Ha.
    - split; [reflexivity|]. unfold minHeight, triangleMinHeight. now rewrite Ha.
    - rewrite (Low eq_refl) in H. discriminate. }
  assert (Fin : F32.is_finite r = true).
  { rewrite R. destruct (F32.gt minHeight F32.lit_1em6) eqn:G; [|reflexivity].
    destruct (High eq_refl) as [_ E]. rewrite E in G |- *.
    destruct (longest_edge_bounded m v1Idx v2Idx v3Idx V) as [Vm Bm].
    now apply guarded_quotient_finite. }
  split; [exact Low|]. split; [|split; [|split]].
  - intros H. rewrite R, H. reflexivity.
  - intros H. destruct (High H) as [Ha E]. split; [exact Ha|].
    rewrite R, H, E. reflexivity.
  - exact Fin.
  - destruct r; try reflexivity; discriminate.
Qed.

(** ** The fixture triangle *)

(** C8. For three vertices placed at (0,0,0), (1,0,0) and (0,1,0) the
    triangle area is exactly 0.5 and the aspect ratio exactly 2.0 in
    single precision, hence both within 1e-4 of those values. *)
Theorem fixture_triangle_area_and_ratio m i1 i2 i3 :
  placedAt (vertexAt m i1) 0 0 0 ->
  placedAt (vertexAt m i2) 1 0 0 ->
  placedAt (vertexAt m i3) 0 1 0 ->
  let area := calculateTriangleArea m i1 i2 i3 in
  let ratio := calculateAspectRatio m i1 i2 i3 in
  area = F32.literal 1 2
  /\ ratio = F32.of_Z 2
  /\ (Qabs (F32.to_Q area - (1 # 2)) <= 1 # 10000)%Q
  /\ (Qabs (F32.to_Q ratio - 2) <= 1 # 10000)%Q.
Proof.
  intros (X1 & Y1 & Z1) (X2 & Y2 & Z2) (X3 & Y3 & Z3) area ratio.
  assert (A : area = F32.literal 1 2).
  { unfold area, calculateTriangleArea.
    rewrite X1, Y1, Z1, X2, Y2, Z2, X3, Y3, Z3. vm_compute. reflexivity. }
  assert (B : ratio = F32.of_Z 2).
  { unfold ratio, calculateAspectRatio, calculateDistance, squaredDistance,
      calculateTriangleArea.
    rewrite X1, Y1, Z1, X2, Y2, Z2, X3, Y3, Z3. vm_compute. reflexivity. }
  rewrite A, B. repeat split; vm_compute; discriminate.
Qed.

(** ** Closed instances *)

Lemma unitTriangle_valid : validMesh unitTriangle.
Proof. repeat constructor. Qed.

Lemma hugeTriangle_valid : validMesh hugeTriangle.
Proof. repeat constructor. Qed.

(** The sharp-angle pass on the hinge: the first manifold edge replaces
    the initial sentinel by its angle. *)
Lemma min_dihedral_update_witness :
  let a := buildTopology hinge (MeshQualityAnalyzer F32.half) in
  minDihedralAngle (metrics (sharpAngleStep acos_sample hinge a ((0, 1), [0; 1])))
  = calculateDihedralAngle acos_sample hinge 0 1 0 1.
Proof.
  intros a.
  destruct (min_dihedral_update acos_sample hinge a [] (0, 1) 0 1
              [((0, 2), [0]); ((0, 3), [1]); ((1, 2), [0]); ((1, 3), [1])] eq_refl)
    as (_ & _ & H & _).
  apply H; reflexivity.
Defined.


(** The edge (0,1) of [fan3] carries three faces: one issue, and the
    counter of a fresh analyzer goes from 0 to 1. *)
Lemma non_manifold_edge_reported_once_witness :
  filter (reportsEdge (0, 1))
         (getIssues (analyzeQuality acos_sample fan3 (MeshQualityAnalyzer F32.half)))
  = [ {| type := NON_MANIFOLD_EDGE; elementIndex := 0;
         severity := F32.literal 1 4; relatedElements := [1] |} ]
  /\ nonManifoldEdgeCount
       (getMetrics (analyzeQuality acos_sample fan3 (MeshQualityAnalyzer F32.half)))
     = 1%Z.
Proof.
  destruct (non_manifold_edge_reported_once acos_sample fan3 (MeshQualityAnalyzer F32.half)
              (0, 1) [0; 1; 2]) as (H & _ & _ & _ & Hc & _).
  - reflexivity.
  - left. reflexivity.
  - simpl. lia.
  - split; [exact H | rewrite Hc; reflexivity].
Defined.

(** A face over the two indices 1 and 0. *)
Lemma two_vertex_face_counted_twice_witness :
  edgeFaceMap (buildTopology segmentFace (MeshQualityAnalyzer F32.half))
  = [((0, 1), [0; 0])].
Proof.
  destruct (two_vertex_face_counted_twice acos_sample (getVertices segmentFace) 1 0 [1; 0]
              (MeshQualityAnalyzer F32.half) eq_refl) as (_ & H & _).
  exact H.
Defined.

(** Two coincident vertices and no face: sentinels kept, one issue. *)
Lemma zero_faces_keep_sentinels_witness :
  getMetrics (analyzeQuality acos_sample twoCoincident (MeshQualityAnalyzer F32.half))
  = initial_metrics
  /\ getIssues (analyzeQuality acos_sample twoCoincident (MeshQualityAnalyzer F32.half))
     = overlapIssues twoCoincident.
Proof.
  destruct (zero_faces_keep_sentinels acos_sample twoCoincident F32.half eq_refl)
    as (M & _ & I & _).
  split; [exact M | exact I].
Defined.


(** C2, the claim as stated fails: no face, yet the issue list is not
    empty. *)
Lemma zero_faces_issue_list_not_empty :
  getFaces twoCoincident = []
  /\ getIssues (analyzeQuality acos_sample twoCoincident (MeshQualityAnalyzer F32.half))
     <> [].
Proof.
  split; [reflexivity|]. vm_compute. discriminate.
Qed.



Lemma aspect_ratio_guarded_witness :
  F32.is_finite (calculateAspectRatio unitTriangle 0 1 2) = true
  /\ F32.is_nan (calculateAspectRatio unitTriangle 0 1 2) = false.
Proof.
  destruct (aspect_ratio_guarded unitTriangle 0 1 2 unitTriangle_valid)
    as (_ & _ & _ & F & N).
  split; [exact F | exact N].
Defined.

(** C7, the claim as stated fails: on a triangle of valid floats whose
    area and longest edge overflow, the quotient 2*area/longestEdge is
    NaN; the height is then not "at most 1e-6" under the float
    comparison, yet the function returns the largest float and not the
    quotient of the longest edge by the height. *)
Lemma aspect_ratio_overflow_nan_height :
  let maxEdge := F32.std_max3 (calculateDistance hugeTriangle 0 1)
                              (calculateDistance hugeTriangle 1 2)
                              (calculateDistance hugeTriangle 2 0) in
  let area := calculateTriangleArea hugeTriangle 0 1 2 in
  let minHeight := triangleMinHeight area maxEdge in
  validMesh hugeTriangle
  /\ SFleb area F32.lit_1em6 = false
  /\ minHeight = S754_nan
  /\ F32.div (F32.mul F32.two area) maxEdge = S754_nan
  /\ SFleb minHeight F32.lit_1em6 = false
  /\ calculateAspectRatio hugeTriangle 0 1 2 = F32.FLT_MAX
  /\ calculateAspectRatio hugeTriangle 0 1 2 <> F32.div maxEdge minHeight.
Proof.
  intros maxEdge area minHeight.
  split; [exact hugeTriangle_valid|].
  assert (A : SFleb area F32.lit_1em6 = false) by (vm_compute; reflexivity).
  assert (H : minHeight = S754_nan) by (vm_compute; reflexivity).
  assert (Q : F32.div (F32.mul F32.two area) maxEdge = S754_nan)
    by (vm_compute; reflexivity).
  assert (R : calculateAspectRatio hugeTriangle 0 1 2 = F32.FLT_MAX)
    by (vm_compute; reflexivity).
  assert (D : F32.div maxEdge minHeight = S754_nan) by (vm_compute; reflexivity).
  rewrite R, D, H. repeat split; try assumption. discriminate.
Qed.

Lemma fixture_triangle_area_and_ratio_witness :
  calculateTriangleArea unitTriangle 0 1 2 = F32.literal 1 2
  /\ calculateAspectRatio unitTriangle 0 1 2 = F32.of_Z 2.
Proof.
  destruct (fixture_triangle_area_and_ratio unitTriangle 0 1 2) as (A & B & _).
  - repeat split.
  - repeat split.
  - repeat split.
  - split; [exact A | exact B].
Defined.

(** * Further properties of the analyzer *)

Lemma Edge_eqb_eq a b : Edge_eqb a b = true <-> a = b.
Proof.
  unfold Edge_eqb. rewrite <- Edge_compare_Eq.
  destruct (Edge_compare a b); split; congruence.
Qed.

Lemma walkEdge_fst f ring t i :
  fst (walkEdge f ring t i) = edgeFaceMap_push (ringKey ring i) f (fst t).
Proof.
  unfold walkEdge, ringKey. rewrite <- normalizedEdge_swap.
  destruct (_ <? _); reflexivity.
Qed.

Lemma edgeFaceMap_push_facesOf_other key key' faceIdx efm :
  key' <> key ->
  facesOf key' (edgeFaceMap_push key faceIdx efm) = facesOf key' efm.
Proof.
  intros Hne. unfold facesOf.
  assert (N : Edge_compare key' key <> Eq) by (rewrite Edge_compare_Eq; exact Hne).
  induction efm as [|[k fs] rest IH]; simpl.
  - destruct (Edge_compare key' key); congruence.
  - destruct (Edge_compare key k) eqn:C; simpl.
    + apply Edge_compare_Eq in C. subst k.
      destruct (Edge_compare key' key); congruence.
    + destruct (Edge_compare key' key) eqn:C'; try congruence.
      rewrite (Edge_compare_trans _ _ _ C' C). reflexivity.
    + destruct (Edge_compare key' k); try reflexivity. exact IH.
Qed.

Lemma walkEdge_facesOf key f ring t i :
  facesOf key (fst (walkEdge f ring t i))
  = facesOf key (fst t) ++ (if Edge_eqb (ringKey ring i) key then [f] else []).
Proof.
  rewrite walkEdge_fst. destruct (Edge_eqb (ringKey ring i) key) eqn:E.
  - apply Edge_eqb_eq in E. rewrite E. apply edgeFaceMap_push_facesOf.
  - rewrite app_nil_r. apply edgeFaceMap_push_facesOf_other.
    intros ->. rewrite (proj2 (Edge_eqb_eq _ _) eq_refl) in E. discriminate.
Qed.

Lemma walkEdges_facesOf key f ring l : forall t,
  facesOf key (fst (fold_left (walkEdge f ring) l t))
  = facesOf key (fst t)
    ++ repeat f (length (filter (fun i => Edge_eqb (ringKey ring i) key) l)).
Proof.
  induction l as [|i l IH]; intros t; simpl.
  - now rewrite app_nil_r.
  - rewrite IH, walkEdge_facesOf, <- app_assoc.
    destruct (Edge_eqb (ringKey ring i) key); reflexivity.
Qed.

Lemma walkFaces_facesOf key l : forall t,
  facesOf key (fst (fold_left walkFace l t))
  = facesOf key (fst t)
    ++ flat_map (fun f => repeat (fst f) (length (ringSpans key (vertexIndices (snd f))))) l.
Proof.
  induction l as [|f l IH]; intros t; simpl.
  - now rewrite app_nil_r.
  - rewrite IH. unfold walkFace. rewrite walkEdges_facesOf, <- app_assoc.
    reflexivity.
Qed.

Lemma buildTopology_facesOf m a key :
  facesOf key (edgeFaceMap (buildTopology m a)) = incidentFaces m key.
Proof.
  unfold buildTopology. simpl. rewrite walkFaces_facesOf. reflexivity.
Qed.

Lemma Edge_compare_Lt_Gt a b : Edge_compare a b = Lt -> Edge_compare b a = Gt.
Proof. rewrite Edge_compare_Lt, Edge_compare_Gt. lia. Qed.

Lemma edgeFaceMap_lookup_In efm key fs :
  keysAscending efm ->
  (In (key, fs) efm <-> edgeFaceMap_lookup key efm = Some fs).
Proof.
  unfold keysAscending. intros Hs.
  induction Hs as [|[k0 fs0] rest Hrest IH Hall]; simpl.
  - split; [contradiction | discriminate].
  - split.
    + intros [E | Hin].
      * inversion E; subst. now rewrite Edge_compare_refl.
      * pose proof (proj1 (Forall_forall _ _) Hall _ Hin) as C. simpl in C.
        rewrite (Edge_compare_Lt_Gt _ _ C). now apply IH.
    + destruct (Edge_compare key k0) eqn:C; intros H.
      * apply Edge_compare_Eq in C. inversion H; subst. now left.
      * discriminate.
      * right. now apply IH.
Qed.

Lemma edgeFaceMap_push_nonempty key faceIdx efm :
  Forall (fun p => snd p <> []) efm ->
  Forall (fun p => snd p <> []) (edgeFaceMap_push key faceIdx efm).
Proof.
  induction efm as [|[k fs] rest IH]; intros F; simpl.
  - constructor; [discriminate | constructor].
  - inversion F as [|? ? Hh Ht]; subst.
    destruct (Edge_compare key k); constructor; auto; simpl;
      try discriminate.
    intros E. apply app_eq_nil in E. destruct E. discriminate.
Qed.

Lemma buildTopology_nonempty m a :
  Forall (fun p => snd p <> []) (edgeFaceMap (buildTopology m a)).
Proof.
  unfold buildTopology. simpl.
  apply (fold_left_invariant (fun t => Forall (fun p => snd p <> []) (fst t))).
  - intros t f _ H. unfold walkFace.
    apply (fold_left_invariant (fun t => Forall (fun p => snd p <> []) (fst t))).
    + intros t' i _ H'. rewrite walkEdge_fst. now apply edgeFaceMap_push_nonempty.
    + exact H.
  - constructor.
Qed.

Lemma buildTopology_normalized m a :
  Forall (fun p => fst (fst p) <= snd (fst p)) (edgeFaceMap (buildTopology m a)).
Proof.
  unfold buildTopology. simpl.
  apply (fold_left_invariant (fun t => Forall (fun p => fst (fst p) <= snd (fst p)) (fst t))).
  - intros t f _ H. unfold walkFace.
    apply (fold_left_invariant
             (fun t => Forall (fun p => fst (fst p) <= snd (fst p)) (fst t))).
    + intros t' i _ H'. rewrite walkEdge_fst.
      apply (edgeFaceMap_push_keys (fun e => fst e <= snd e)); [|exact H'].
      unfold ringKey, normalizedEdge. simpl. lia.
    + exact H.
  - constructor.
Qed.

Lemma StronglySorted_app_le (l1 l2 : list nat) :
  StronglySorted le l1 -> StronglySorted le l2 ->
  (forall x y, In x l1 -> In y l2 -> x <= y) ->
  StronglySorted le (l1 ++ l2).
Proof.
  induction l1 as [|h t IH]; intros S1 S2 H; simpl; [assumption|].
  inversion S1 as [|? ? St Ht]; subst. constructor.
  - apply IH; auto. intros x y Hx Hy. apply H; [now right | assumption].
  - apply Forall_app. split; [assumption|].
    apply Forall_forall. intros y Hy. apply H; [now left | assumption].
Qed.

Lemma StronglySorted_repeat (x n : nat) : StronglySorted le (repeat x n).
Proof.
  induction n; simpl; constructor; auto.
  apply Forall_forall. intros y Hy. apply repeat_spec in Hy. lia.
Qed.

Lemma blocks_sorted {A : Type} (c : A -> nat) (l : list A) : forall s,
  StronglySorted le (flat_map (fun f => repeat (fst f) (c (snd f)))
                              (combine (seq s (length l)) l))
  /\ Forall (fun x => s <= x < s + length l)
            (flat_map (fun f => repeat (fst f) (c (snd f)))
                      (combine (seq s (length l)) l)).
Proof.
  induction l as [|h t IH]; intros s; simpl.
  - split; constructor.
  - destruct (IH (S s)) as [S1 B1]. split.
    + apply StronglySorted_app_le; [apply StronglySorted_repeat | exact S1 |].
      intros x y Hx Hy. apply repeat_spec in Hx. subst x.
      pose proof (proj1 (Forall_forall _ _) B1 y Hy) as Hb. cbv beta in Hb. lia.
    + apply Forall_app. split.
      * apply Forall_forall. intros x Hx. apply repeat_spec in Hx. lia.
      * eapply Forall_impl; [|exact B1]. simpl. intros. lia.
Qed.

Lemma incidentFaces_sorted m key :
  StronglySorted le (incidentFaces m key)
  /\ Forall (fun f => f < length (getFaces m)) (incidentFaces m key).
Proof.
  unfold incidentFaces, indexed.
  destruct (blocks_sorted (fun face => length (ringSpans key (vertexIndices face)))
                          (getFaces m) 0) as [S B].
  split; [exact S|]. eapply Forall_impl; [|exact B]. simpl. intros. lia.
Qed.

Lemma buildTopology_entries m a key fs :
  In (key, fs) (edgeFaceMap (buildTopology m a))
  <-> fs = incidentFaces m key /\ fs <> [].
Proof.
  rewrite (edgeFaceMap_lookup_In _ key fs (buildTopology_ascending m a)).
  pose proof (buildTopology_facesOf m a key) as F. unfold facesOf in F.
  split.
  - intros L. rewrite L in F. split; [exact F|].
    pose proof (proj2 (edgeFaceMap_lookup_In _ key fs (buildTopology_ascending m a)) L)
      as Hin.
    exact (proj1 (Forall_forall _ _) (buildTopology_nonempty m a) _ Hin).
  - intros [E N]. destruct (edgeFaceMap_lookup key _) as [fs'|]; congruence.
Qed.

(** The edge map after a build: under every key stands the list of the
    faces that span the edge, once per ring position, in ascending face
    order; keys no face spans are absent. *)
Theorem edge_map_holds_incident_faces m a key :
  let efm := edgeFaceMap (buildTopology m a) in
  facesOf key efm = incidentFaces m key
  /\ (forall fs, In (key, fs) efm <-> fs = incidentFaces m key /\ fs <> []).
Proof.
  intros efm. split; [apply buildTopology_facesOf|].
  intros fs. apply buildTopology_entries.
Qed.

(** Keys are normalized and strictly ascending; every face list is in
    ascending order and holds face indices only. *)
Theorem buildTopology_edge_map_wellformed m a :
  let efm := edgeFaceMap (buildTopology m a) in
  keysAscending efm
  /\ NoDup (map fst efm)
  /\ Forall (fun p => fst (fst p) <= snd (fst p)) efm
  /\ Forall (fun p => StronglySorted le (snd p)
                      /\ Forall (fun f => f < length (getFaces m)) (snd p)
                      /\ snd p <> []) efm.
Proof.
  intros efm. split; [apply buildTopology_ascending|]. split; [|split].
  - pose proof (buildTopology_ascending m a) as Hs. fold efm in Hs.
    unfold keysAscending in Hs. clearbody efm.
    induction Hs as [|p rest Hrest IH Hall]; simpl; constructor; [|exact IH].
    intros Hin. apply in_map_iff in Hin. destruct Hin as (q & E & Hq).
    pose proof (proj1 (Forall_forall _ _) Hall q Hq) as C. cbv beta in C.
    rewrite E in C.
    rewrite Edge_compare_refl in C. discriminate.
  - apply buildTopology_normalized.
  - apply Forall_forall. intros [k fs] Hin.
    apply buildTopology_entries in Hin. destruct Hin as [-> N]. simpl.
    destruct (incidentFaces_sorted m k). auto.
Qed.

Lemma replace_at_length {A : Type} (i : nat) (x : A) (l : list A) :
  length (replace_at i x l) = length l.
Proof.
  revert i. induction l as [|h t IH]; intros [|i]; simpl; auto.
Qed.

Lemma replace_at_nth {A : Type} (i j : nat) (x d : A) (l : list A) :
  nth j (replace_at i x l) d
  = if (j =? i) && (i <? length l) then x else nth j l d.
Proof.
  revert i j. induction l as [|h t IH]; intros i j; simpl.
  - destruct i, j; simpl; try reflexivity; now rewrite andb_false_r.
  - destruct i as [|i], j as [|j]; simpl; try reflexivity. apply IH.
Qed.

Lemma replace_at_Forall {A : Type} (P : A -> Prop) (i : nat) (x : A) (l : list A) :
  P x -> Forall P l -> Forall P (replace_at i x l).
Proof.
  intros Hx. revert i. induction l as [|h t IH]; intros i F.
  - destruct i; constructor.
  - inversion F; subst. destruct i; simpl; constructor; auto.
Qed.

Lemma existsb_eqb_In (b : nat) (l : list nat) :
  existsb (Nat.eqb b) l = true <-> In b l.
Proof.
  rewrite existsb_exists. split.
  - intros (x & Hx & E). apply Nat.eqb_eq in E. now subst.
  - intros H. exists b. split; [assumption | apply Nat.eqb_refl].
Qed.

Lemma connect_length a b vc : length (connect a b vc) = length vc.
Proof.
  unfold connect. destruct (existsb _ _); [reflexivity | apply replace_at_length].
Qed.

Lemma connect_NoDup a b vc :
  Forall (@NoDup nat) vc -> Forall (@NoDup nat) (connect a b vc).
Proof.
  intros F. unfold connect. destruct (existsb (Nat.eqb b) (nth a vc [])) eqn:E;
    [assumption|].
  apply replace_at_Forall; [|assumption].
  assert (Nb : ~ In b (nth a vc [])).
  { intros H. apply existsb_eqb_In in H. congruence. }
  assert (Na : NoDup (nth a vc [])).
  { destruct (nth_in_or_default a vc []) as [H | ->]; [|constructor].
    exact (proj1 (Forall_forall _ _) F _ H). }
  apply NoDup_app; [assumption | repeat constructor; auto |].
  intros x Hx [<- | []]. contradiction.
Qed.

Lemma connect_In a b vc x y :
  a < length vc ->
  (In y (nth x (connect a b vc) []) <-> In y (nth x vc []) \/ (x = a /\ y = b)).
Proof.
  intros Ha. unfold connect.
  destruct (existsb (Nat.eqb b) (nth a vc [])) eqn:E.
  - apply existsb_eqb_In in E. split; [auto|]. intros [H | [-> ->]]; assumption.
  - rewrite replace_at_nth.
    replace (a <? length vc) with true by (symmetry; now apply Nat.ltb_lt).
    rewrite andb_true_r. destruct (Nat.eqb_spec x a) as [-> | N].
    + rewrite in_app_iff. simpl. intuition congruence.
    + intuition congruence.
Qed.

(** One ring position: both directions of the pair are recorded. *)
Lemma walkEdge_adjacency f ring t i x y :
  nth i ring 0 < length (snd t) ->
  nth ((i + 1) mod length ring) ring 0 < length (snd t) ->
  let p := nth i ring 0 in
  let q := nth ((i + 1) mod length ring) ring 0 in
  (In y (nth x (snd (walkEdge f ring t i)) [])
   <-> In y (nth x (snd t) []) \/ (x = p /\ y = q) \/ (x = q /\ y = p)).
Proof.
  intros Hp Hq p q. unfold walkEdge. fold p q.
  destruct (q <? p); simpl;
    rewrite connect_In by (rewrite connect_length; assumption);
    rewrite connect_In by assumption; tauto.
Qed.

Lemma walkEdge_length f ring t i :
  length (snd (walkEdge f ring t i)) = length (snd t).
Proof.
  unfold walkEdge. destruct (_ <? _); simpl; now rewrite !connect_length.
Qed.

Lemma walkEdge_NoDup f ring t i :
  Forall (@NoDup nat) (snd t) -> Forall (@NoDup nat) (snd (walkEdge f ring t i)).
Proof.
  intros H. unfold walkEdge. destruct (_ <? _); simpl; now repeat apply connect_NoDup.
Qed.

Lemma walkFace_length t f : length (snd (walkFace t f)) = length (snd t).
Proof.
  unfold walkFace.
  apply (fold_left_invariant (fun t' => length (snd t') = length (snd t)));
    [|reflexivity].
  intros s i _ H. now rewrite walkEdge_length.
Qed.

Lemma ring_position_In (ring : list nat) i :
  i < length ring ->
  In (nth i ring 0) ring /\ In (nth ((i + 1) mod length ring) ring 0) ring.
Proof.
  intros H. split; apply nth_In; [assumption|].
  apply Nat.mod_upper_bound. lia.
Qed.

Lemma walkEdges_adjacency f ring n l : forall t,
  length (snd t) = n ->
  Forall (fun v => v < n) ring ->
  Forall (fun i => i < length ring) l ->
  forall x y,
    In y (nth x (snd (fold_left (walkEdge f ring) l t)) [])
    <-> In y (nth x (snd t) [])
        \/ exists i, In i l
             /\ ((x, y) = (nth i ring 0, nth ((i + 1) mod length ring) ring 0)
                 \/ (y, x) = (nth i ring 0, nth ((i + 1) mod length ring) ring 0)).
Proof.
  induction l as [|i l IH]; intros t Hn Hr Hl x y; simpl.
  - split; [auto|]. intros [H | (i & [] & _)]. exact H.
  - inversion Hl as [|? ? Hi Hl']; subst.
    destruct (ring_position_In ring i Hi) as [I1 I2].
    pose proof (proj1 (Forall_forall _ _) Hr _ I1) as B1.
    pose proof (proj1 (Forall_forall _ _) Hr _ I2) as B2. cbv beta in B1, B2.
    rewrite (IH (walkEdge f ring t i)); [| now rewrite walkEdge_length | assumption
                                         | assumption].
    rewrite walkEdge_adjacency by lia.
    split.
    + intros [[H | [[-> ->] | [-> ->]]] | (j & Hj & H)].
      * now left.
      * right. exists i. split; [now left | now left].
      * right. exists i. split; [now left | now right].
      * right. exists j. split; [now right | assumption].
    + intros [H | (j & [<- | Hj] & H)].
      * left. now left.
      * left. right. destruct H as [H | H]; inversion H; subst; tauto.
      * right. exists j. split; assumption.
Qed.

Lemma walkFace_adjacency n t f x y :
  length (snd t) = n ->
  Forall (fun v => v < n) (vertexIndices (snd f)) ->
  (In y (nth x (snd (walkFace t f)) [])
   <-> In y (nth x (snd t) [])
       \/ In (x, y) (ringPairs (vertexIndices (snd f)))
       \/ In (y, x) (ringPairs (vertexIndices (snd f)))).
Proof.
  intros Hn Hr. unfold walkFace.
  rewrite (walkEdges_adjacency (fst f) (vertexIndices (snd f)) n _ t Hn Hr);
    [|apply Forall_forall; intros i Hi; apply in_seq in Hi; lia].
  unfold ringPairs. rewrite !in_map_iff. split.
  - intros [H | (i & Hi & [E | E])]; [now left | right; left | right; right];
      exists i; split; auto.
  - intros [H | [(i & E & Hi) | (i & E & Hi)]]; [now left | right | right];
      exists i; split; auto.
Qed.

Lemma walkFaces_adjacency n l : forall t x y,
  length (snd t) = n ->
  Forall (fun f => Forall (fun v => v < n) (vertexIndices (snd f))) l ->
  (In y (nth x (snd (fold_left walkFace l t)) [])
   <-> In y (nth x (snd t) [])
       \/ In (x, y) (flat_map (fun f => ringPairs (vertexIndices (snd f))) l)
       \/ In (y, x) (flat_map (fun f => ringPairs (vertexIndices (snd f))) l)).
Proof.
  induction l as [|f l IH]; intros t x y Hn Hr; simpl.
  - tauto.
  - inversion Hr as [|? ? Hf Hl]; subst.
    rewrite IH; [| now rewrite walkFace_length | assumption].
    rewrite (walkFace_adjacency (length (snd t)) t f x y eq_refl Hf).
    rewrite !in_app_iff. tauto.
Qed.

Lemma flat_map_indexed {A B : Type} (g : A -> list B) (l : list A) : forall s,
  flat_map (fun f => g (snd f)) (combine (seq s (length l)) l) = flat_map g l.
Proof.
  induction l as [|h t IH]; intros s; simpl; [reflexivity|]. now rewrite IH.
Qed.

Lemma nth_repeat_nil {A : Type} (x n : nat) : nth x (repeat (@nil A) n) [] = [].
Proof.
  revert x. induction n; intros [|x]; simpl; auto.
Qed.

Lemma indicesInRange_Forall m :
  indicesInRange m = true ->
  Forall (fun f => Forall (fun v => v < length (getVertices m)) (vertexIndices f))
         (getFaces m).
Proof.
  unfold indicesInRange. rewrite forallb_forall. intros H.
  apply Forall_forall. intros f Hf. specialize (H f Hf).
  rewrite forallb_forall in H. apply Forall_forall. intros v Hv.
  apply Nat.ltb_lt. now apply H.
Qed.

(** After a build the adjacency list of [x] holds [y] exactly when some
    face ring has [x] and [y] as consecutive vertices, in either order;
    adjacency is symmetric. *)
Theorem buildTopology_adjacency m a x y :
  indicesInRange m = true ->
  let vc := vertexConnectivity (buildTopology m a) in
  (In y (nth x vc []) <-> In (x, y) (meshPairs m) \/ In (y, x) (meshPairs m))
  /\ (In y (nth x vc []) <-> In x (nth y vc [])).
Proof.
  intros H vc.
  assert (C : forall x y, In y (nth x vc [])
                          <-> In (x, y) (meshPairs m) \/ In (y, x) (meshPairs m)).
  { intros x' y'. unfold vc, buildTopology. simpl.
    rewrite (walkFaces_adjacency (length (getVertices m))).
    - cbn [snd]. rewrite nth_repeat_nil. unfold indexed, meshPairs.
      rewrite (flat_map_indexed (fun f => ringPairs (vertexIndices f)) (getFaces m) 0).
      simpl. tauto.
    - simpl. apply repeat_length.
    - apply Forall_forall. intros [fi f] Hf. unfold indexed in Hf.
      apply in_combine_r in Hf. simpl.
      exact (proj1 (Forall_forall _ _) (indicesInRange_Forall m H) _ Hf). }
  split; [apply C|]. rewrite !C. tauto.
Qed.

Lemma buildTopology_connectivity_length m a :
  length (vertexConnectivity (buildTopology m a)) = length (getVertices m).
Proof.
  unfold buildTopology. simpl.
  apply (fold_left_invariant (fun t => length (snd t) = length (getVertices m))).
  - intros t f _ L. now rewrite walkFace_length.
  - simpl. apply repeat_length.
Qed.

(** One adjacency list per vertex of the mesh, none with a repeated
    neighbour, whatever the analyzer held before. *)
Theorem buildTopology_connectivity_wellformed m a :
  let vc := vertexConnectivity (buildTopology m a) in
  length vc = length (getVertices m) /\ Forall (@NoDup nat) vc.
Proof.
  intros vc. split; [apply buildTopology_connectivity_length|].
  unfold vc, buildTopology. simpl.
  apply (fold_left_invariant (fun t => Forall (@NoDup nat) (snd t))).
  - intros t f _ N. unfold walkFace.
    apply (fold_left_invariant (fun t => Forall (@NoDup nat) (snd t))); [|exact N].
    intros t' i _. apply walkEdge_NoDup.
  - simpl. apply Forall_forall. intros l Hl. apply repeat_spec in Hl. subst. constructor.
Qed.

Lemma valenceStep_pushes a vn :
  valenceStep a vn = set_issues a (issues a ++ valenceIssues vn).
Proof.
  destruct vn as [v nb], a as [th iss q efm vc].
  unfold valenceStep, valenceIssues, isLowValence, isHighValence, push_issue, set_issues.
  simpl.
  destruct ((0 <? length nb) && (length nb <? LOW_VALENCE_THRESHOLD));
    destruct (HIGH_VALENCE_THRESHOLD <? length nb); simpl;
    rewrite <- ?app_assoc, ?app_nil_r; reflexivity.
Qed.

Lemma checkVertexValence_pushes a :
  checkVertexValence a
  = set_issues a (issues a ++ flat_map valenceIssues (indexed (vertexConnectivity a))).
Proof.
  unfold checkVertexValence. apply fold_left_pushes. apply valenceStep_pushes.
Qed.

Lemma getIssuesByType_filter a t :
  getIssuesByType a t = filter (byType t) (issues a).
Proof. apply (fold_left_push_filter (byType t)). Qed.

Lemma filter_hasType_other (t t' : IssueType) (l : list MeshIssue) :
  t <> t' -> Forall (hasType t') l -> filter (byType t) l = [].
Proof.
  intros N. apply filter_none. unfold hasType, byType. intros i ->.
  destruct (IssueType_eqb t' t) eqn:E; [|reflexivity].
  apply IssueType_eqb_eq in E. congruence.
Qed.

Lemma filter_low_valence l :
  filter (byType LOW_VALENCE_VERTEX) (flat_map valenceIssues l)
  = map lowValenceIssue (filter isLowValence l).
Proof.
  induction l as [|vn l IH]; simpl; [reflexivity|].
  rewrite filter_app, IH. unfold valenceIssues.
  destruct (isLowValence vn), (isHighValence vn); reflexivity.
Qed.

Lemma filter_high_valence l :
  filter (byType HIGH_VALENCE_VERTEX) (flat_map valenceIssues l)
  = map highValenceIssue (filter isHighValence l).
Proof.
  induction l as [|vn l IH]; simpl; [reflexivity|].
  rewrite filter_app, IH. unfold valenceIssues.
  destruct (isLowValence vn), (isHighValence vn); reflexivity.
Qed.

Lemma combine_seq_In {A : Type} (l : list A) (d : A) i x : forall s,
  In (i, x) (combine (seq s (length l)) l)
  <-> s <= i /\ i < s + length l /\ nth (i - s) l d = x.
Proof.
  induction l as [|h t IH]; intros s.
  - simpl. split; [contradiction | lia].
  - cbn [length seq combine In]. rewrite IH. split.
    + intros [E | (B1 & B2 & E)].
      * inversion E; subst. rewrite Nat.sub_diag. simpl. repeat split; lia.
      * replace (i - s) with (S (i - S s)) by lia. simpl. split; [lia|].
        split; [lia | exact E].
    + intros (B1 & B2 & E). destruct (Nat.eq_dec i s) as [-> | N].
      * left. rewrite Nat.sub_diag in E. simpl in E. now subst.
      * right. replace (i - s) with (S (i - S s)) in E by lia. simpl in E, B2.
        split; [lia|]. split; [lia | exact E].
Qed.

Lemma indexed_In {A : Type} (l : list A) (d : A) i x :
  In (i, x) (indexed l) <-> i < length l /\ nth i l d = x.
Proof.
  unfold indexed. rewrite (combine_seq_In l d i x 0), Nat.sub_0_r. simpl.
  split; [intros (_ & B & E) | intros (B & E)]; repeat split; try assumption; lia.
Qed.

Section Run.

Variable acosf : float -> float.

Lemma analyzeQuality_segments m a :
  let t := buildTopology m a in
  exists l1 l2 l6 l7 l8,
    getIssues (analyzeQuality acosf m a)
    = l1 ++ l2 ++ nonManifoldIssues (edgeFaceMap t)
      ++ flat_map valenceIssues (indexed (vertexConnectivity t))
      ++ overlapIssues m ++ l6 ++ l7 ++ l8
    /\ Forall (hasType DEGENERATE_FACE) l1
    /\ Forall (hasType HIGH_ASPECT_RATIO) l2
    /\ Forall (hasType INVERTED_NORMAL) l6
    /\ Forall (hasType TEXTURE_STRETCH) l7
    /\ Forall (hasType SHARP_ANGLE) l8.
Proof.
  intros t. unfold getIssues, analyzeQuality, calculateOverallMetrics.
  set (a0 := buildTopology m (set_issues a [])).
  assert (E0 : edgeFaceMap a0 = edgeFaceMap t) by reflexivity.
  assert (V0 : vertexConnectivity a0 = vertexConnectivity t) by reflexivity.
  assert (I0 : issues a0 = []) by reflexivity.
  destruct (checkDegenerateFaces_appends m a0) as (E1 & V1 & _ & l1 & I1 & F1).
  set (a1 := checkDegenerateFaces m a0) in *.
  destruct (checkAspectRatio_appends m a1) as (E2 & V2 & _ & l2 & I2 & F2).
  set (a2 := checkAspectRatio m a1) in *.
  destruct (nonManifold_fold (edgeFaceMap a2) a2) as (I3 & _ & E3 & V3).
  fold (checkNonManifoldEdges a2) in I3, E3, V3.
  set (a3 := checkNonManifoldEdges a2) in *.
  rewrite (checkVertexValence_pushes a3).
  set (a4 := set_issues a3 _).
  rewrite (checkOverlappingVertices_pushes m a4).
  set (a5 := set_issues a4 _).
  destruct (checkNormalDirection_appends m a5) as (_ & _ & _ & l6 & I6 & F6).
  set (a6 := checkNormalDirection m a5) in *.
  destruct (checkUVStretch_appends m a6) as (_ & _ & _ & l7 & I7 & F7).
  set (a7 := checkUVStretch m a6) in *.
  destruct (checkSharpAngles_appends acosf m a7) as (_ & _ & _ & l8 & I8 & F8).
  exists l1, l2, l6, l7, l8. repeat split; try assumption.
  rewrite I8, I7, I6. unfold a5, a4. simpl.
  rewrite I3, I2, I1, I0.
  replace (edgeFaceMap a2) with (edgeFaceMap t) by congruence.
  replace (vertexConnectivity a3) with (vertexConnectivity t) by congruence.
  simpl. rewrite <- !app_assoc. reflexivity.
Qed.

Ltac drop_other T :=
  repeat match goal with
         | H : Forall (hasType ?t') ?l |- context [filter (byType T) ?l] =>
             rewrite (filter_hasType_other T t' l ltac:(discriminate) H)
         end.

Lemma filter_hasType_same t l : Forall (hasType t) l -> filter (byType t) l = l.
Proof.
  apply filter_all. unfold hasType, byType. intros i ->. now apply IssueType_eqb_eq.
Qed.

Lemma filter_valence_other t l :
  t <> LOW_VALENCE_VERTEX -> t <> HIGH_VALENCE_VERTEX ->
  filter (byType t) (flat_map valenceIssues l) = [].
Proof.
  intros N1 N2. apply (filter_none _ isValenceIssue).
  - unfold isValenceIssue, byType. intros i [-> | ->];
      destruct t; try reflexivity; congruence.
  - apply Forall_forall. intros i Hi. apply in_flat_map in Hi.
    destruct Hi as (vn & _ & Hi). unfold valenceIssues in Hi.
    apply in_app_or in Hi. unfold isValenceIssue.
    destruct Hi as [Hi | Hi];
      [destruct (isLowValence vn) | destruct (isHighValence vn)];
      simpl in Hi; try contradiction; destruct Hi as [<- | []]; auto.
Qed.

Lemma issues_by_type_of_run m a :
  let t := buildTopology m a in
  let final := analyzeQuality acosf m a in
  getIssuesByType final NON_MANIFOLD_EDGE = nonManifoldIssues (edgeFaceMap t)
  /\ getIssuesByType final LOW_VALENCE_VERTEX
     = map lowValenceIssue (filter isLowValence (indexed (vertexConnectivity t)))
  /\ getIssuesByType final HIGH_VALENCE_VERTEX
     = map highValenceIssue (filter isHighValence (indexed (vertexConnectivity t)))
  /\ getIssuesByType final OVERLAPPING_VERTICES = overlapIssues m.
Proof.
  intros t final.
  destruct (analyzeQuality_segments m a) as (l1 & l2 & l6 & l7 & l8 & I & F1 & F2 & F6 & F7 & F8).
  fold final t in I. unfold getIssues in I.
  pose proof (nonManifoldIssues_type (edgeFaceMap t)) as Fn.
  pose proof (overlapIssues_type m) as Fo.
  rewrite !getIssuesByType_filter, I, !filter_app.
  repeat split.
  - rewrite (filter_hasType_same _ _ Fn), filter_valence_other by discriminate.
    drop_other NON_MANIFOLD_EDGE. simpl. now rewrite app_nil_r.
  - rewrite filter_low_valence. drop_other LOW_VALENCE_VERTEX.
    simpl. now rewrite app_nil_r.
  - rewrite filter_high_valence. drop_other HIGH_VALENCE_VERTEX.
    simpl. now rewrite app_nil_r.
  - rewrite (filter_hasType_same _ _ Fo), filter_valence_other by discriminate.
    drop_other OVERLAPPING_VERTICES. simpl. now rewrite app_nil_r.
Qed.

(** The issue list of a run is grouped by pass in the order the passes
    run: degenerate faces, aspect ratios, non-manifold edges, then the
    valence issues vertex by vertex (low before high), overlaps,
    inverted normals, texture stretch, sharp angles. *)
Theorem issues_grouped_in_detection_order m a :
  let final := analyzeQuality acosf m a in
  let vc := vertexConnectivity (buildTopology m a) in
  getIssues final
  = getIssuesByType final DEGENERATE_FACE
    ++ getIssuesByType final HIGH_ASPECT_RATIO
    ++ getIssuesByType final NON_MANIFOLD_EDGE
    ++ flat_map valenceIssues (indexed vc)
    ++ getIssuesByType final OVERLAPPING_VERTICES
    ++ getIssuesByType final INVERTED_NORMAL
    ++ getIssuesByType final TEXTURE_STRETCH
    ++ getIssuesByType final SHARP_ANGLE.
Proof.
  intros final vc.
  destruct (analyzeQuality_segments m a) as (l1 & l2 & l6 & l7 & l8 & I & F1 & F2 & F6 & F7 & F8).
  fold final vc in I. unfold getIssues in I.
  pose proof (nonManifoldIssues_type (edgeFaceMap (buildTopology m a))) as Fn.
  pose proof (overlapIssues_type m) as Fo.
  assert (T : forall t,
             getIssuesByType final t
             = filter (byType t) l1 ++ filter (byType t) l2
               ++ filter (byType t) (nonManifoldIssues (edgeFaceMap (buildTopology m a)))
               ++ filter (byType t) (flat_map valenceIssues (indexed vc))
               ++ filter (byType t) (overlapIssues m)
               ++ filter (byType t) l6 ++ filter (byType t) l7 ++ filter (byType t) l8).
  { intros t. now rewrite getIssuesByType_filter, I, !filter_app. }
  unfold getIssues. rewrite !T, I.
  rewrite !(filter_hasType_same _ _ F1), !(filter_hasType_same _ _ F2),
    !(filter_hasType_same _ _ Fn), !(filter_hasType_same _ _ Fo),
    !(filter_hasType_same _ _ F6), !(filter_hasType_same _ _ F7),
    !(filter_hasType_same _ _ F8).
  rewrite !filter_valence_other by discriminate.
  drop_other DEGENERATE_FACE. drop_other HIGH_ASPECT_RATIO.
  drop_other NON_MANIFOLD_EDGE. drop_other OVERLAPPING_VERTICES.
  drop_other INVERTED_NORMAL. drop_other TEXTURE_STRETCH. drop_other SHARP_ANGLE.
  simpl. rewrite !app_nil_r. reflexivity.
Qed.

(** What the queries by type return after a run for the passes that
    read the topology and for the overlap scan: one issue per edge-map
    entry with more than two faces, in key order; one per vertex of
    valence 1 or 2 and one per vertex of valence above 12, in vertex
    order; one per vertex pair passing the distance test. *)
Theorem topology_queries_of_run m a :
  let t := buildTopology m a in
  let final := analyzeQuality acosf m a in
  getIssuesByType final NON_MANIFOLD_EDGE
  = map nonManifoldIssue (filter isNonManifold (edgeFaceMap t))
  /\ getIssuesByType final LOW_VALENCE_VERTEX
     = map lowValenceIssue (filter isLowValence (indexed (vertexConnectivity t)))
  /\ getIssuesByType final HIGH_VALENCE_VERTEX
     = map highValenceIssue (filter isHighValence (indexed (vertexConnectivity t)))
  /\ getIssuesByType final OVERLAPPING_VERTICES
     = flat_map (overlapIssuesFrom m) (seq 0 (length (getVertices m))).
Proof.
  exact (issues_by_type_of_run m a).
Qed.

End Run.

Section ValenceRun.

Variable acosf : float -> float.

(** Valence issues name a vertex of the mesh, carry its adjacency list,
    and arise exactly for valence 1, 2 (low) and above 12 (high). *)
Theorem valence_issues_of_run m a :
  let vc := vertexConnectivity (buildTopology m a) in
  let final := analyzeQuality acosf m a in
  (forall i, In i (getIssues final) ->
             type i = LOW_VALENCE_VERTEX \/ type i = HIGH_VALENCE_VERTEX ->
             elementIndex i < length (getVertices m)
             /\ relatedElements i = nth (elementIndex i) vc []
             /\ (type i = LOW_VALENCE_VERTEX ->
                 0 < length (relatedElements i) < 3
                 /\ severity i = F32.sub F32.one
                                   (F32.div (F32.of_size_t (length (relatedElements i)))
                                            (F32.of_Z 3)))
             /\ (type i = HIGH_VALENCE_VERTEX -> 12 < length (relatedElements i)))
  /\ (forall v, v < length (getVertices m) ->
                0 < length (nth v vc []) < 3 ->
                In (lowValenceIssue (v, nth v vc [])) (getIssues final))
  /\ (forall v, v < length (getVertices m) ->
                12 < length (nth v vc []) ->
                In (highValenceIssue (v, nth v vc [])) (getIssues final)).
Proof.
  intros vc final.
  destruct (issues_by_type_of_run acosf m a) as (_ & L & H & _). fold vc final in L, H.
  pose proof (buildTopology_connectivity_length m a) as Len. fold vc in Len.
  assert (ByT : forall t i, In i (getIssuesByType final t)
                            <-> In i (getIssues final) /\ type i = t).
  { intros t i. rewrite getIssuesByType_filter, filter_In. unfold byType.
    rewrite IssueType_eqb_eq. reflexivity. }
  split; [|split].
  - intros i Hin [T | T].
    + assert (Hi : In i (getIssuesByType final LOW_VALENCE_VERTEX)) by (apply ByT; auto).
      rewrite L in Hi. apply in_map_iff in Hi. destruct Hi as ([v nb] & <- & Hv).
      apply filter_In in Hv. destruct Hv as [Hv Low].
      apply (indexed_In vc [] v nb) in Hv. destruct Hv as [Bv <-]. simpl.
      unfold isLowValence in Low. simpl in Low.
      apply andb_true_iff in Low. destruct Low as [L1 L2].
      apply Nat.ltb_lt in L1, L2. unfold LOW_VALENCE_THRESHOLD in L2.
      repeat split; try lia; try reflexivity. discriminate.
    + assert (Hi : In i (getIssuesByType final HIGH_VALENCE_VERTEX)) by (apply ByT; auto).
      rewrite H in Hi. apply in_map_iff in Hi. destruct Hi as ([v nb] & <- & Hv).
      apply filter_In in Hv. destruct Hv as [Hv High].
      apply (indexed_In vc [] v nb) in Hv. destruct Hv as [Bv <-]. simpl.
      unfold isHighValence in High. simpl in High.
      apply Nat.ltb_lt in High. unfold HIGH_VALENCE_THRESHOLD in High.
      repeat split; try lia; try reflexivity; discriminate.
  - intros v Bv Val. apply (ByT LOW_VALENCE_VERTEX). rewrite L.
    apply in_map, filter_In. split.
    + apply (indexed_In vc [] v). split; [lia | reflexivity].
    + unfold isLowValence, LOW_VALENCE_THRESHOLD. simpl.
      apply andb_true_iff. split; apply Nat.ltb_lt; lia.
  - intros v Bv Val. apply (ByT HIGH_VALENCE_VERTEX). rewrite H.
    apply in_map, filter_In. split.
    + apply (indexed_In vc [] v). split; [lia | reflexivity].
    + unfold isHighValence, HIGH_VALENCE_THRESHOLD. simpl. apply Nat.ltb_lt. lia.
Qed.

End ValenceRun.

Lemma lt_le x y : F32.lt x y = true -> SFleb x y = true.
Proof.
  unfold F32.lt, SFltb, SFleb. destruct (SFcompare x y) as [[| |]|]; congruence.
Qed.

Lemma clampUnit_range d :
  F32.is_nan (clampUnit d) = false
  /\ F32.ge (clampUnit d) (F32.neg F32.one) = true
  /\ F32.ge F32.one (clampUnit d) = true.
Proof.
  unfold clampUnit, F32.std_max, F32.std_min, F32.ge.
  destruct (F32.lt d F32.one) eqn:L1.
  - destruct (F32.lt (F32.neg F32.one) d) eqn:L2.
    + split; [|split].
      * destruct d; try reflexivity. discriminate.
      * now apply lt_le.
      * now apply lt_le.
    + repeat split.
  - repeat split.
Qed.

(** The dihedral angle of two faces along a shared edge is [std::acos],
    converted to degrees, of the clamped dot product of the two
    normals, each taken from the shared edge and the face's vertex off
    that edge.  The clamped value is the dot product itself when it
    lies strictly between -1 and 1, -1 when it is at most -1, and 1 in
    every other case, a NaN dot product included: the argument handed
    to [std::acos] is never NaN and lies in [-1, 1]. *)
Theorem dihedral_angle_argument_clamped (acosf : float -> float) m f1 f2 s1 s2 :
  let v1 := vertexAt m s1 in
  let v2 := vertexAt m s2 in
  let v3 := vertexAt m (nonSharedVertex (vertexIndices (faceAt m f1)) s1 s2) in
  let v4 := vertexAt m (nonSharedVertex (vertexIndices (faceAt m f2)) s1 s2) in
  let dot := dot3 (edgeNormal v1 v2 v3) (edgeNormal v1 v2 v4) in
  let d := if F32.lt dot F32.one
           then if F32.lt (F32.neg F32.one) dot then dot else F32.neg F32.one
           else F32.one in
  calculateDihedralAngle acosf m f1 f2 s1 s2
  = F64.to_float
      (F64.div (F64.of_float (F32.mul (acosf d) (F32.of_Z 180))) F64.M_PI)
  /\ clampUnit dot = d
  /\ (F32.is_nan dot = true -> d = F32.one)
  /\ F32.is_nan d = false
  /\ F32.ge d (F32.neg F32.one) = true
  /\ F32.ge F32.one d = true.
Proof.
  intros v1 v2 v3 v4 dot d.
  assert (E : clampUnit dot = d).
  { unfold clampUnit, F32.std_max, F32.std_min, d.
    destruct (F32.lt dot F32.one); [|reflexivity].
    destruct (F32.lt (F32.neg F32.one) dot); reflexivity. }
  split; [|split; [exact E|split]].
  - unfold calculateDihedralAngle, degrees. fold v1 v2 v3 v4. fold dot.
    rewrite E. reflexivity.
  - intros N. unfold d. destruct dot; try discriminate. reflexivity.
  - rewrite <- E. apply clampUnit_range.
Qed.

Lemma packed_nonNegative m e : nonNegative (packed false m e) = true.
Proof.
  unfold packed. destruct m; try reflexivity. destruct (_ <=? _)%Z; reflexivity.
Qed.

Lemma F32_sqrt_nonNegative x : nonNegative (F32.sqrt x) = true.
Proof.
  unfold F32.sqrt. destruct x as [sx|[|]| |[|] mx ex]; try reflexivity.
  unfold SFsqrt. pose proof (sqrt_core_spec mx ex) as H.
  destruct (SFsqrt_core_binary F32.prec F32.emax (Zpos mx) ex) as [[q e'] l].
  destruct H as (Q & _ & P).
  destruct (binary_round_aux_spec false q e' l (Z.lt_le_incl _ _ Q) P)
    as (m2 & e2 & -> & _).
  apply packed_nonNegative.
Qed.

Lemma F32_mul_half_nonNegative y :
  F32.valid y = true -> nonNegative y = true ->
  nonNegative (F32.mul F32.half y) = true.
Proof.
  intros V N. destruct y as [sy|sy| |sy my ey]; try reflexivity.
  - simpl in N. destruct sy; [discriminate | reflexivity].
  - simpl in N. destruct sy; [discriminate|].
    apply valid_finite in V. destruct V as [C _].
    unfold F32.mul, F32.half, SFmul. simpl xorb.
    assert (Pre : (-24 + ey <= fexp F32.prec F32.emax
                                 (Zdigits2 (Zpos (8388608 * my)) + (-24 + ey)))%Z).
    { rewrite fexp32 in *.
      assert (D : (24 + Zdigits2 (Zpos my) - 1 <= Zdigits2 (Zpos (8388608 * my)))%Z).
      { rewrite !Zdigits2_log2 by lia. rewrite Pos2Z.inj_mul.
        pose proof (Z.log2_mul_below 8388608 (Zpos my)).
        change (Z.log2 8388608) with 23%Z in *. lia. }
      pose proof (Zdigits2_pos (Zpos my)). lia. }
    destruct (binary_round_aux_spec false (Zpos (8388608 * my)) (-24 + ey) loc_Exact)
      as (m2 & e2 & -> & _); [lia | exact Pre |].
    apply packed_nonNegative.
Qed.

Lemma nonNegative_not_lt_zero x : nonNegative x = true -> F32.lt x F32.zero = false.
Proof.
  destruct x as [s|[|]| |[|] m e]; try discriminate; reflexivity.
Qed.

(** Distances and areas are valid binary32 values and never negative. *)
Theorem distance_and_area_not_negative m i j k :
  F32.valid (calculateDistance m i j) = true
  /\ F32.lt (calculateDistance m i j) F32.zero = false
  /\ F32.valid (calculateTriangleArea m i j k) = true
  /\ F32.lt (calculateTriangleArea m i j k) F32.zero = false.
Proof.
  split; [apply F32_sqrt_valid|]. split; [|split].
  - apply nonNegative_not_lt_zero, F32_sqrt_nonNegative.
  - apply calculateTriangleArea_valid.
  - apply nonNegative_not_lt_zero. unfold calculateTriangleArea.
    apply F32_mul_half_nonNegative; [apply F32_sqrt_valid | apply F32_sqrt_nonNegative].
Qed.

Lemma fold_left_commute {S X : Type} (h : S -> S) (step : S -> X -> S) (l : list X) :
  (forall s x, step (h s) x = h (step s x)) ->
  forall s, fold_left step l (h s) = h (fold_left step l s).
Proof.
  intros H. induction l as [|x l IH]; intros s; simpl; [reflexivity|].
  now rewrite H, IH.
Qed.

Lemma checkDegenerateFaces_threshold m a t :
  checkDegenerateFaces m (set_threshold a t) = set_threshold (checkDegenerateFaces m a) t.
Proof.
  unfold checkDegenerateFaces.
  change (startStats, set_threshold a t) with (with_threshold t (startStats, a)).
  rewrite (fold_left_commute (with_threshold t)).
  - destruct (fold_left _ _ (startStats, a)) as [rs a']. simpl.
    destruct (0 <? _); reflexivity.
  - intros [rs a'] [faceIdx face]. unfold degenerateFaceStep, with_threshold. simpl.
    split_ifs; reflexivity.
Qed.

Lemma checkAspectRatio_threshold m a t :
  checkAspectRatio m (set_threshold a t) = set_threshold (checkAspectRatio m a) t.
Proof.
  unfold checkAspectRatio.
  change (startStats, set_threshold a t) with (with_threshold t (startStats, a)).
  rewrite (fold_left_commute (with_threshold t)).
  - destruct (fold_left _ _ (startStats, a)) as [rs a']. simpl.
    destruct (0 <? _); reflexivity.
  - intros [rs a'] [faceIdx face]. unfold aspectRatioStep, with_threshold. simpl.
    split_ifs; reflexivity.
Qed.

Lemma checkNonManifoldEdges_threshold a t :
  checkNonManifoldEdges (set_threshold a t) = set_threshold (checkNonManifoldEdges a) t.
Proof.
  unfold checkNonManifoldEdges. simpl.
  apply (fold_left_commute (fun a => set_threshold a t)).
  intros s x. unfold nonManifoldStep. split_ifs; reflexivity.
Qed.

Lemma checkVertexValence_threshold a t :
  checkVertexValence (set_threshold a t) = set_threshold (checkVertexValence a) t.
Proof. rewrite !checkVertexValence_pushes. reflexivity. Qed.

Lemma checkOverlappingVertices_threshold m a t :
  checkOverlappingVertices m (set_threshold a t)
  = set_threshold (checkOverlappingVertices m a) t.
Proof. rewrite !checkOverlappingVertices_pushes. reflexivity. Qed.

Lemma checkNormalDirection_threshold m a t :
  checkNormalDirection m (set_threshold a t) = set_threshold (checkNormalDirection m a) t.
Proof.
  unfold checkNormalDirection.
  apply (fold_left_commute (fun a => set_threshold a t)).
  intros s [faceIdx face]. unfold normalDirectionStep. split_ifs; reflexivity.
Qed.

Lemma checkUVStretch_threshold m a t :
  checkUVStretch m (set_threshold a t) = set_threshold (checkUVStretch m a) t.
Proof.
  unfold checkUVStretch.
  change (F32.zero, 0, set_threshold a t) with (with_threshold t (F32.zero, 0, a)).
  rewrite (fold_left_commute (with_threshold t)).
  - destruct (fold_left _ _ (F32.zero, 0, a)) as [[tot c] a']. simpl.
    destruct (0 <? _); reflexivity.
  - intros [[tot c] a'] [faceIdx face]. unfold uvStretchStep, with_threshold. simpl.
    split_ifs; reflexivity.
Qed.

Section Threshold.

Variable acosf : float -> float.

Lemma checkSharpAngles_threshold m a t :
  checkSharpAngles acosf m (set_threshold a t)
  = set_threshold (checkSharpAngles acosf m a) t.
Proof.
  unfold checkSharpAngles. simpl.
  apply (fold_left_commute (fun a => set_threshold a t)).
  intros s [edge fs]. unfold sharpAngleStep. simpl.
  destruct (length fs =? 2); [|reflexivity].
  destruct (replacesMinimum _ _); simpl;
    destruct (F32.gt _ _); simpl; destruct (F32.lt _ SHARP_ANGLE_THRESHOLD); reflexivity.
Qed.

Lemma analyzeQuality_threshold m t :
  forall a,
    analyzeQuality acosf m (set_threshold a t)
    = set_threshold (analyzeQuality acosf m a) t.
Proof.
  intros a. unfold analyzeQuality, calculateOverallMetrics.
  change (buildTopology m (set_issues (set_threshold a t) []))
    with (set_threshold (buildTopology m (set_issues a [])) t).
  now rewrite checkDegenerateFaces_threshold, checkAspectRatio_threshold,
    checkNonManifoldEdges_threshold, checkVertexValence_threshold,
    checkOverlappingVertices_threshold, checkNormalDirection_threshold,
    checkUVStretch_threshold, checkSharpAngles_threshold.
Qed.

(** The threshold given to the constructor is dead configuration: a run
    carries it along unchanged, and two analyzers that differ in it
    only produce the same issues and the same metrics. *)
Theorem threshold_is_never_read m a t :
  let final := analyzeQuality acosf m a in
  let final' := analyzeQuality acosf m (set_threshold a t) in
  getIssues final' = getIssues final
  /\ getMetrics final' = getMetrics final
  /\ minQualityThreshold final' = t
  /\ minQualityThreshold final = minQualityThreshold a.
Proof.
  intros final final'. unfold final'. rewrite analyzeQuality_threshold.
  split; [reflexivity|]. split; [reflexivity|]. split; [reflexivity|].
  unfold final. clear.
  replace a with (set_threshold a (minQualityThreshold a)) at 1 by (now destruct a).
  now rewrite analyzeQuality_threshold.
Qed.

End Threshold.

Lemma degenerateFaceStep_counted m a0 st f :
  countedDegenerate a0 (snd st) -> countedDegenerate a0 (snd (degenerateFaceStep m st f)).
Proof.
  destruct st as [rs a], f as [faceIdx face]. unfold degenerateFaceStep. simpl.
  intros (l & I & F & C). split_ifs; simpl; try (exists l; auto; fail).
  eexists (l ++ [_]). simpl. split; [rewrite I, app_assoc; reflexivity|]. split.
  - apply Forall_app. split; [assumption|]. constructor; [reflexivity | constructor].
  - rewrite C, length_app. simpl. rewrite Nat.add_comm. reflexivity.
Qed.

Lemma checkDegenerateFaces_counted m a : countedDegenerate a (checkDegenerateFaces m a).
Proof.
  unfold checkDegenerateFaces.
  pose proof (fold_left_invariant (fun st => countedDegenerate a (snd st))
                (degenerateFaceStep m) (indexed (getFaces m))
                (fun st f _ => degenerateFaceStep_counted m a st f)
                (startStats, a)) as H.
  destruct (fold_left _ _ _) as [rs a']. simpl in H.
  assert (H0 : countedDegenerate a a).
  { exists []. rewrite app_nil_r. repeat split. constructor. }
  specialize (H H0). destruct H as (l & I & F & C).
  destruct (0 <? _); exists l; auto.
Qed.

Lemma checkAspectRatio_keeps m a : keepsDegenerateCount a (checkAspectRatio m a).
Proof.
  unfold checkAspectRatio, keepsDegenerateCount.
  pose proof (fold_left_invariant
                (fun st => degenerateFaceCount (metrics (snd st))
                           = degenerateFaceCount (metrics a))
                (aspectRatioStep m) (indexed (getFaces m))) as H.
  specialize (H ltac:(intros [rs a'] [faceIdx face] _; unfold aspectRatioStep; simpl;
                      intros E; split_ifs; simpl; exact E) (startStats, a) eq_refl).
  destruct (fold_left _ _ _) as [rs a']. simpl in H.
  destruct (0 <? _); simpl; exact H.
Qed.

Lemma checkNonManifoldEdges_keeps a : keepsDegenerateCount a (checkNonManifoldEdges a).
Proof.
  unfold checkNonManifoldEdges, keepsDegenerateCount.
  apply (fold_left_invariant
           (fun a' => degenerateFaceCount (metrics a') = degenerateFaceCount (metrics a)));
    [|reflexivity].
  intros s x _ E. unfold nonManifoldStep. split_ifs; simpl; exact E.
Qed.

Lemma checkNormalDirection_keeps m a : keepsDegenerateCount a (checkNormalDirection m a).
Proof.
  unfold checkNormalDirection, keepsDegenerateCount.
  apply (fold_left_invariant
           (fun a' => degenerateFaceCount (metrics a') = degenerateFaceCount (metrics a)));
    [|reflexivity].
  intros s [faceIdx face] _ E. unfold normalDirectionStep. split_ifs; simpl; exact E.
Qed.

Lemma checkUVStretch_keeps m a : keepsDegenerateCount a (checkUVStretch m a).
Proof.
  unfold checkUVStretch, keepsDegenerateCount.
  pose proof (fold_left_invariant
                (fun st => degenerateFaceCount (metrics (snd st))
                           = degenerateFaceCount (metrics a))
                (uvStretchStep m) (indexed (getFaces m))) as H.
  specialize (H ltac:(intros [[tot c] a'] [faceIdx face] _; unfold uvStretchStep; simpl;
                      intros E; split_ifs; simpl; exact E) (F32.zero, 0, a) eq_refl).
  destruct (fold_left _ _ _) as [[tot c] a']. simpl in H.
  destruct (0 <? _); simpl; exact H.
Qed.

Lemma size_t_incr_iter n : forall c,
  (0 <= c < SIZE_MOD)%Z ->
  Nat.iter n size_t_incr c = ((c + Z.of_nat n) mod SIZE_MOD)%Z.
Proof.
  induction n as [|n IH]; intros c Hc.
  - simpl. rewrite Z.add_0_r, Z.mod_small; [reflexivity | assumption].
  - change (Nat.iter (S n) size_t_incr c) with (size_t_incr (Nat.iter n size_t_incr c)).
    rewrite IH by assumption. unfold size_t_incr.
    rewrite Zplus_mod_idemp_l. f_equal. lia.
Qed.

Section Counters.

Variable acosf : float -> float.

Lemma checkSharpAngles_keeps m a : keepsDegenerateCount a (checkSharpAngles acosf m a).
Proof.
  unfold checkSharpAngles, keepsDegenerateCount.
  apply (fold_left_invariant
           (fun a' => degenerateFaceCount (metrics a') = degenerateFaceCount (metrics a)));
    [|reflexivity].
  intros s [edge fs] _ E. unfold sharpAngleStep.
  destruct (length fs =? 2); [|exact E].
  destruct (replacesMinimum _ _); simpl;
    destruct (F32.gt _ _); simpl; destruct (F32.lt _ SHARP_ANGLE_THRESHOLD); exact E.
Qed.

Lemma analyzeQuality_degenerate m a :
  exists l rest,
    issues (analyzeQuality acosf m a) = l ++ rest
    /\ Forall (hasType DEGENERATE_FACE) l
    /\ Forall (fun i => type i <> DEGENERATE_FACE) rest
    /\ degenerateFaceCount (metrics (analyzeQuality acosf m a))
       = Nat.iter (length l) size_t_incr (degenerateFaceCount (metrics a)).
Proof.
  unfold analyzeQuality, calculateOverallMetrics.
  set (a0 := buildTopology m (set_issues a [])).
  destruct (checkDegenerateFaces_counted m a0) as (l & I1 & F1 & C1).
  set (a1 := checkDegenerateFaces m a0) in *.
  destruct (checkAspectRatio_appends m a1) as (_ & _ & _ & l2 & I2 & F2).
  pose proof (checkAspectRatio_keeps m a1) as K2.
  set (a2 := checkAspectRatio m a1) in *.
  destruct (nonManifold_fold (edgeFaceMap a2) a2) as (I3 & _ & _ & _).
  pose proof (checkNonManifoldEdges_keeps a2) as K3.
  fold (checkNonManifoldEdges a2) in I3.
  set (a3 := checkNonManifoldEdges a2) in *.
  rewrite (checkVertexValence_pushes a3).
  set (a4 := set_issues a3 _).
  rewrite (checkOverlappingVertices_pushes m a4).
  set (a5 := set_issues a4 _).
  destruct (checkNormalDirection_appends m a5) as (_ & _ & _ & l6 & I6 & F6).
  pose proof (checkNormalDirection_keeps m a5) as K6.
  set (a6 := checkNormalDirection m a5) in *.
  destruct (checkUVStretch_appends m a6) as (_ & _ & _ & l7 & I7 & F7).
  pose proof (checkUVStretch_keeps m a6) as K7.
  set (a7 := checkUVStretch m a6) in *.
  destruct (checkSharpAngles_appends acosf m a7) as (_ & _ & _ & l8 & I8 & F8).
  pose proof (checkSharpAngles_keeps m a7) as K8.
  exists l, (l2 ++ nonManifoldIssues (edgeFaceMap a2)
               ++ flat_map valenceIssues (indexed (vertexConnectivity a3))
               ++ overlapIssues m ++ l6 ++ l7 ++ l8).
  split; [|split; [exact F1|split]].
  - rewrite I8, I7, I6. unfold a5, a4. simpl. rewrite I3, I2, I1.
    simpl. rewrite <- !app_assoc. reflexivity.
  - repeat (apply Forall_app; split);
      try (eapply Forall_impl; [|eassumption]; unfold hasType; intros i ->; discriminate).
    + eapply Forall_impl; [|apply nonManifoldIssues_type].
      unfold hasType; intros i ->; discriminate.
    + apply Forall_forall. intros i Hi. apply in_flat_map in Hi.
      destruct Hi as (vn & _ & Hi). unfold valenceIssues in Hi.
      apply in_app_or in Hi.
      destruct Hi as [Hi | Hi];
        [destruct (isLowValence vn) | destruct (isHighValence vn)];
        simpl in Hi; try contradiction; destruct Hi as [<- | []]; discriminate.
    + eapply Forall_impl; [|apply overlapIssues_type].
      unfold hasType; intros i ->; discriminate.
  - unfold keepsDegenerateCount in *. rewrite K8, K7, K6. unfold a5, a4. simpl.
    rewrite K3, K2, C1. reflexivity.
Qed.

Lemma counters_follow_issues m a :
  let final := analyzeQuality acosf m a in
  degenerateFaceCount (getMetrics final)
  = Nat.iter (length (getIssuesByType final DEGENERATE_FACE)) size_t_incr
             (degenerateFaceCount (metrics a))
  /\ nonManifoldEdgeCount (getMetrics final)
     = Nat.iter (length (getIssuesByType final NON_MANIFOLD_EDGE)) size_t_incr
                (nonManifoldEdgeCount (metrics a)).
Proof.
  intros final. split.
  - destruct (analyzeQuality_degenerate m a) as (l & rest & I & F & R & C).
    fold final in I, C. unfold getMetrics. rewrite C, getIssuesByType_filter, I.
    rewrite filter_app, (filter_hasType_same _ _ F).
    rewrite (filter_none _ (fun i => type i <> DEGENERATE_FACE) rest); [| | exact R].
    + now rewrite app_nil_r.
    + intros i N. unfold byType. destruct (IssueType_eqb _ _) eqn:E; [|reflexivity].
      apply IssueType_eqb_eq in E. contradiction.
  - destruct (analyzeQuality_shape acosf m a) as (pre & mid & post & _ & _ & _ & _ & _ & C).
    destruct (issues_by_type_of_run acosf m a) as (N & _). fold final in N, C.
    unfold getMetrics. rewrite C, N. unfold nonManifoldIssues. now rewrite length_map.
Qed.

(** The two counters advance once per issue of their pass and are never
    reset.  Run after run on one analyzer: after [k] runs from a fresh
    analyzer each counter reads [k] times the number of issues of its
    pass that one run reports, modulo 2^64. *)
Theorem counters_after_repeated_runs m threshold k :
  let once := analyzeQuality acosf m (MeshQualityAnalyzer threshold) in
  let after := Nat.iter k (analyzeQuality acosf m) (MeshQualityAnalyzer threshold) in
  degenerateFaceCount (getMetrics after)
  = ((Z.of_nat k * Z.of_nat (length (getIssuesByType once DEGENERATE_FACE)))
       mod SIZE_MOD)%Z
  /\ nonManifoldEdgeCount (getMetrics after)
     = ((Z.of_nat k * Z.of_nat (length (getIssuesByType once NON_MANIFOLD_EDGE)))
          mod SIZE_MOD)%Z.
Proof.
  intros once after. unfold after. clear after.
  assert (Same : forall t a, getIssuesByType (analyzeQuality acosf m a) t
                             = getIssuesByType once t).
  { intros t a. rewrite !getIssuesByType_filter. f_equal. apply analyzeQuality_agree. }
  induction k as [|k IH].
  - split; reflexivity.
  - change (Nat.iter (S k) (analyzeQuality acosf m) (MeshQualityAnalyzer threshold))
      with (analyzeQuality acosf m
              (Nat.iter k (analyzeQuality acosf m) (MeshQualityAnalyzer threshold))).
    destruct IH as [D N].
    destruct (counters_follow_issues m (Nat.iter k (analyzeQuality acosf m)
                                                 (MeshQualityAnalyzer threshold)))
      as [D' N'].
    cbv zeta in D', N'. rewrite Same in D', N'.
    unfold getMetrics in *. rewrite D', N', D, N.
    rewrite !size_t_incr_iter by (apply Z.mod_pos_bound; reflexivity).
    rewrite !Zplus_mod_idemp_l. split; f_equal; lia.
Qed.

End Counters.

(** ** Closed instances of the further properties *)

(** In the fixture triangle vertex 1 is a neighbour of vertex 0, and
    vertex 0 of vertex 1. *)
Lemma buildTopology_adjacency_witness :
  indicesInRange unitTriangle = true
  /\ In 1 (nth 0 (vertexConnectivity
                    (buildTopology unitTriangle (MeshQualityAnalyzer F32.half))) [])
  /\ In 0 (nth 1 (vertexConnectivity
                    (buildTopology unitTriangle (MeshQualityAnalyzer F32.half))) []).
Proof.
  split; [reflexivity|].
  destruct (buildTopology_adjacency unitTriangle (MeshQualityAnalyzer F32.half) 0 1 eq_refl)
    as [P S].
  assert (H : In 1 (nth 0 (vertexConnectivity
                             (buildTopology unitTriangle (MeshQualityAnalyzer F32.half))) [])).
  { apply P. left. simpl. auto. }
  split; [exact H | exact (proj1 S H)].
Defined.

(** In the fixture triangle vertex 0 has valence 2: a low-valence issue
    for it is reported. *)
Lemma valence_issues_of_run_witness :
  In (lowValenceIssue (0, [1; 2]))
     (getIssues (analyzeQuality acos_sample unitTriangle (MeshQualityAnalyzer F32.half))).
Proof.
  destruct (valence_issues_of_run acos_sample unitTriangle (MeshQualityAnalyzer F32.half))
    as (_ & Low & _).
  apply (Low 0); simpl; lia.
Defined.

(** * Issues and metrics of a run in closed form *)

Lemma fold_left_appends {S X : Type} (proj : S -> list MeshIssue)
    (step : S -> X -> S) (g : X -> list MeshIssue) :
  (forall s x, proj (step s x) = proj s ++ g x) ->
  forall l s, proj (fold_left step l s) = proj s ++ flat_map g l.
Proof.
  intros H. induction l as [|x l IH]; intros s; simpl.
  - now rewrite app_nil_r.
  - now rewrite IH, H, <- app_assoc.
Qed.

Lemma flat_map_optional {X Y : Type} (p : X -> bool) (g : X -> Y) (l : list X) :
  flat_map (fun x => if p x then [g x] else []) l = map g (filter p l).
Proof.
  induction l as [|x l IH]; simpl; [reflexivity|].
  rewrite IH. destruct (p x); reflexivity.
Qed.

Lemma checkDegenerateFaces_issues m a :
  issues (checkDegenerateFaces m a)
  = issues a ++ map (degenerateIssue m) (filter (isDegenerate m) (indexed (getFaces m))).
Proof.
  unfold checkDegenerateFaces.
  pose proof (fold_left_appends (fun st : RunningStats * Analyzer => issues (snd st))
                (degenerateFaceStep m)
                (fun f => if isDegenerate m f then [degenerateIssue m f] else [])) as H.
  rewrite <- flat_map_optional.
  specialize (H ltac:(intros [rs a'] [faceIdx face]; unfold degenerateFaceStep, isDegenerate,
                        hasTriangle, faceArea, corner; simpl;
                      destruct (length (vertexIndices face) <? 3); simpl;
                      [now rewrite app_nil_r|];
                      destruct (F32.lt _ DEGENERATE_THRESHOLD); simpl;
                      [reflexivity | now rewrite app_nil_r])
                (indexed (getFaces m)) (startStats, a)).
  simpl in H. rewrite <- H.
  destruct (fold_left _ _ _) as [rs a']. destruct (0 <? _); reflexivity.
Qed.

Lemma checkAspectRatio_issues m a :
  issues (checkAspectRatio m a)
  = issues a ++ map (aspectIssue m) (filter (isStretched m) (indexed (getFaces m))).
Proof.
  unfold checkAspectRatio.
  pose proof (fold_left_appends (fun st : RunningStats * Analyzer => issues (snd st))
                (aspectRatioStep m)
                (fun f => if isStretched m f then [aspectIssue m f] else [])) as H.
  rewrite <- flat_map_optional.
  specialize (H ltac:(intros [rs a'] [faceIdx face]; unfold aspectRatioStep, isStretched,
                        hasTriangle, faceAspectRatio, corner; simpl;
                      destruct (length (vertexIndices face) <? 3); simpl;
                      [now rewrite app_nil_r|];
                      destruct (F32.gt _ HIGH_ASPECT_THRESHOLD); simpl;
                      [reflexivity | now rewrite app_nil_r])
                (indexed (getFaces m)) (startStats, a)).
  simpl in H. rewrite <- H.
  destruct (fold_left _ _ _) as [rs a']. destruct (0 <? _); reflexivity.
Qed.

Lemma normalDirectionStep_issues m a f :
  issues (normalDirectionStep m a f)
  = issues a ++ (if isInverted m f then [invertedIssue m f] else []).
Proof.
  destruct f as [faceIdx face].
  unfold isInverted, invertedIssue, normalDirectionStep, hasTriangle, alignment, corner.
  cbn [fst snd].
  destruct (length (vertexIndices face) <? 3); [simpl; now rewrite app_nil_r|].
  cbv zeta. cbn [negb andb].
  destruct (F32.gt _ F32.lit_1em6); [|simpl; now rewrite app_nil_r].
  destruct (F32.gt _ F32.lit_1em6); [|simpl; now rewrite app_nil_r].
  destruct (F32.lt _ F32.zero); simpl; [reflexivity | now rewrite app_nil_r].
Qed.

Lemma checkNormalDirection_issues m a :
  issues (checkNormalDirection m a)
  = issues a ++ map (invertedIssue m) (filter (isInverted m) (indexed (getFaces m))).
Proof.
  unfold checkNormalDirection. rewrite <- flat_map_optional.
  apply (fold_left_appends issues). intros s x. apply normalDirectionStep_issues.
Qed.

Lemma checkUVStretch_issues m a :
  issues (checkUVStretch m a)
  = issues a ++ map (stretchIssue m) (filter (hasHighStretch m) (indexed (getFaces m))).
Proof.
  unfold checkUVStretch.
  pose proof (fold_left_appends (fun st : float * nat * Analyzer => issues (snd st))
                (uvStretchStep m)
                (fun f => if hasHighStretch m f then [stretchIssue m f] else [])) as H.
  rewrite <- flat_map_optional.
  specialize (H ltac:(intros [[tot c] a'] [faceIdx face]; unfold uvStretchStep, hasHighStretch;
                      simpl;
                      destruct (F32.gt (calculateUVStretch m faceIdx) F32.zero); simpl;
                      [|now rewrite app_nil_r];
                      destruct (F32.gt _ HIGH_STRETCH_THRESHOLD); simpl;
                      [reflexivity | now rewrite app_nil_r])
                (indexed (getFaces m)) (F32.zero, 0, a)).
  simpl in H. rewrite <- H.
  destruct (fold_left _ _ _) as [[tot c] a']. destruct (0 <? _); reflexivity.
Qed.

Lemma map_hasType {X : Type} (t : IssueType) (g : X -> MeshIssue) (l : list X) :
  (forall x, type (g x) = t) -> Forall (hasType t) (map g l).
Proof.
  intros H. apply Forall_forall. intros i Hi. apply in_map_iff in Hi.
  destruct Hi as (x & <- & _). apply H.
Qed.

Section ClosedForm.

Variable acosf : float -> float.

Lemma sharpAngleStep_issues m a entry :
  issues (sharpAngleStep acosf m a entry)
  = issues a ++ (if isSharp acosf m entry then [sharpIssue acosf m entry] else []).
Proof.
  destruct entry as [edge fs]. unfold sharpAngleStep, isSharp, sharpIssue, edgeAngle.
  cbn [fst snd].
  destruct (length fs =? 2); [|simpl; now rewrite app_nil_r].
  cbv zeta. cbn [andb].
  destruct (F32.lt _ SHARP_ANGLE_THRESHOLD);
    destruct (replacesMinimum _ _); simpl; destruct (F32.gt _ _); simpl;
    rewrite ?app_nil_r; reflexivity.
Qed.

Lemma checkSharpAngles_issues m a :
  issues (checkSharpAngles acosf m a)
  = issues a ++ map (sharpIssue acosf m) (filter (isSharp acosf m) (edgeFaceMap a)).
Proof.
  unfold checkSharpAngles. rewrite <- flat_map_optional.
  apply (fold_left_appends issues). intros s x. apply sharpAngleStep_issues.
Qed.

(** The issue list of a run in closed form. *)
Lemma analyzeQuality_issues m a :
  let t := buildTopology m a in
  let faces := indexed (getFaces m) in
  issues (analyzeQuality acosf m a)
  = map (degenerateIssue m) (filter (isDegenerate m) faces)
    ++ map (aspectIssue m) (filter (isStretched m) faces)
    ++ nonManifoldIssues (edgeFaceMap t)
    ++ flat_map valenceIssues (indexed (vertexConnectivity t))
    ++ overlapIssues m
    ++ map (invertedIssue m) (filter (isInverted m) faces)
    ++ map (stretchIssue m) (filter (hasHighStretch m) faces)
    ++ map (sharpIssue acosf m) (filter (isSharp acosf m) (edgeFaceMap t)).
Proof.
  intros t faces. unfold analyzeQuality, calculateOverallMetrics.
  set (a0 := buildTopology m (set_issues a [])).
  assert (E0 : edgeFaceMap a0 = edgeFaceMap t) by reflexivity.
  assert (V0 : vertexConnectivity a0 = vertexConnectivity t) by reflexivity.
  assert (I0 : issues a0 = []) by reflexivity.
  destruct (checkDegenerateFaces_appends m a0) as (E1 & V1 & _ & _).
  pose proof (checkDegenerateFaces_issues m a0) as I1.
  set (a1 := checkDegenerateFaces m a0) in *.
  destruct (checkAspectRatio_appends m a1) as (E2 & V2 & _ & _).
  pose proof (checkAspectRatio_issues m a1) as I2.
  set (a2 := checkAspectRatio m a1) in *.
  destruct (nonManifold_fold (edgeFaceMap a2) a2) as (I3 & _ & E3 & V3).
  fold (checkNonManifoldEdges a2) in I3, E3, V3.
  set (a3 := checkNonManifoldEdges a2) in *.
  rewrite (checkVertexValence_pushes a3).
  set (a4 := set_issues a3 _).
  rewrite (checkOverlappingVertices_pushes m a4).
  set (a5 := set_issues a4 _).
  destruct (checkNormalDirection_appends m a5) as (E6 & _ & _ & _).
  pose proof (checkNormalDirection_issues m a5) as I6.
  set (a6 := checkNormalDirection m a5) in *.
  destruct (checkUVStretch_appends m a6) as (E7 & _ & _ & _).
  pose proof (checkUVStretch_issues m a6) as I7.
  set (a7 := checkUVStretch m a6) in *.
  rewrite checkSharpAngles_issues, I7, I6.
  rewrite E7, E6. unfold a5, a4. cbn [issues edgeFaceMap set_issues].
  rewrite I3, I2, I1, I0, V3, V2, V1, V0, E3, E2, E1, E0.
  cbn [app]. rewrite <- !app_assoc. reflexivity.
Qed.

End ClosedForm.

Ltac only_type T :=
  repeat match goal with
         | H : Forall (hasType ?t') ?l |- context [filter (byType T) ?l] =>
             first [ rewrite (filter_hasType_same T l H)
                   | rewrite (filter_hasType_other T t' l ltac:(discriminate) H) ]
         end.

Lemma overlapIssues_In m i :
  In i (overlapIssues m)
  <-> exists p q, p < q /\ q < length (getVertices m)
                  /\ overlaps (vertexAt m p) (vertexAt m q) = true
                  /\ i = overlapIssue m p q.
Proof.
  unfold overlapIssues, overlapIssuesFrom. rewrite in_flat_map. split.
  - intros (p & Hp & Hi). apply in_flat_map in Hi. destruct Hi as (q & Hq & Hi).
    apply in_seq in Hp, Hq.
    destruct (overlaps _ _) eqn:O; simpl in Hi; [|contradiction].
    destruct Hi as [<- | []]. exists p, q. repeat split; try lia. exact O.
  - intros (p & q & L & B & O & ->). exists p. split; [apply in_seq; lia|].
    apply in_flat_map. exists q. split; [apply in_seq; lia|].
    rewrite O. now left.
Qed.

Section Queries.

Variable acosf : float -> float.

(** What the queries by type return after a run for the passes that
    walk the faces and for the sharp-angle pass: one issue per face with
    at least three vertex indices that fails the test of the pass, in
    face order; one sharp-angle issue per edge-map entry with exactly
    two faces whose angle is below 30 degrees, in key order. *)
Theorem face_queries_of_run m a :
  let t := buildTopology m a in
  let faces := indexed (getFaces m) in
  let final := analyzeQuality acosf m a in
  getIssuesByType final DEGENERATE_FACE
  = map (degenerateIssue m) (filter (isDegenerate m) faces)
  /\ getIssuesByType final HIGH_ASPECT_RATIO
     = map (aspectIssue m) (filter (isStretched m) faces)
  /\ getIssuesByType final INVERTED_NORMAL
     = map (invertedIssue m) (filter (isInverted m) faces)
  /\ getIssuesByType final TEXTURE_STRETCH
     = map (stretchIssue m) (filter (hasHighStretch m) faces)
  /\ getIssuesByType final SHARP_ANGLE
     = map (sharpIssue acosf m) (filter (isSharp acosf m) (edgeFaceMap t)).
Proof.
  intros t faces final.
  pose proof (analyzeQuality_issues acosf m a) as I. fold t faces final in I.
  pose proof (nonManifoldIssues_type (edgeFaceMap t)) as Fn.
  pose proof (overlapIssues_type m) as Fo.
  pose proof (map_hasType DEGENERATE_FACE (degenerateIssue m)
                (filter (isDegenerate m) faces) (fun _ => eq_refl)) as F1.
  pose proof (map_hasType HIGH_ASPECT_RATIO (aspectIssue m)
                (filter (isStretched m) faces) (fun _ => eq_refl)) as F2.
  pose proof (map_hasType INVERTED_NORMAL (invertedIssue m)
                (filter (isInverted m) faces) (fun _ => eq_refl)) as F6.
  pose proof (map_hasType TEXTURE_STRETCH (stretchIssue m)
                (filter (hasHighStretch m) faces) (fun _ => eq_refl)) as F7.
  pose proof (map_hasType SHARP_ANGLE (sharpIssue acosf m)
                (filter (isSharp acosf m) (edgeFaceMap t)) (fun _ => eq_refl)) as F8.
  cbv zeta in I.
  rewrite !getIssuesByType_filter, I, !filter_app.
  rewrite !filter_valence_other by discriminate.
  repeat split.
  - only_type DEGENERATE_FACE. simpl. now rewrite app_nil_r.
  - only_type HIGH_ASPECT_RATIO. simpl. now rewrite app_nil_r.
  - only_type INVERTED_NORMAL. simpl. now rewrite app_nil_r.
  - only_type TEXTURE_STRETCH. simpl. now rewrite app_nil_r.
  - only_type SHARP_ANGLE. reflexivity.
Qed.

(** Every issue of a run comes from one pass: the case analysis behind
    the statements on single issues. *)
Lemma issue_of_run_cases m a i :
  let t := buildTopology m a in
  let faces := indexed (getFaces m) in
  In i (issues (analyzeQuality acosf m a))
  <-> (exists f, In f faces /\ isDegenerate m f = true /\ i = degenerateIssue m f)
      \/ (exists f, In f faces /\ isStretched m f = true /\ i = aspectIssue m f)
      \/ (exists e, In e (edgeFaceMap t) /\ isNonManifold e = true /\ i = nonManifoldIssue e)
      \/ (exists vn, In vn (indexed (vertexConnectivity t)) /\ In i (valenceIssues vn))
      \/ In i (overlapIssues m)
      \/ (exists f, In f faces /\ isInverted m f = true /\ i = invertedIssue m f)
      \/ (exists f, In f faces /\ hasHighStretch m f = true /\ i = stretchIssue m f)
      \/ (exists e, In e (edgeFaceMap t) /\ isSharp acosf m e = true
                    /\ i = sharpIssue acosf m e).
Proof.
  intros t faces. rewrite (analyzeQuality_issues acosf m a). fold t faces.
  unfold nonManifoldIssues.
  rewrite !in_app_iff, !in_map_iff, in_flat_map.
  assert (M : forall (X : Type) (p : X -> bool) (g : X -> MeshIssue) (l : list X),
             (exists x, g x = i /\ In x (filter p l))
             <-> (exists x, In x l /\ p x = true /\ i = g x)).
  { intros X p g l. split.
    - intros (x & E & Hx). apply filter_In in Hx. exists x. intuition.
    - intros (x & Hx & P & E). exists x. split; [auto|]. apply filter_In. auto. }
  rewrite !M. reflexivity.
Qed.

End Queries.

Lemma hasTriangle_length face : hasTriangle face = true -> 3 <= length (vertexIndices face).
Proof.
  unfold hasTriangle. destruct (length (vertexIndices face) <? 3) eqn:L; [discriminate|].
  intros _. apply Nat.ltb_ge in L. exact L.
Qed.

Lemma faceAt_indexed m fi face :
  In (fi, face) (indexed (getFaces m)) -> fi < length (getFaces m) /\ faceAt m fi = face.
Proof. intros H. apply (indexed_In (getFaces m) emptyFace) in H. exact H. Qed.

Lemma uvStretch_positive m fi :
  F32.gt (calculateUVStretch m fi) F32.zero = true ->
  3 <= length (vertexIndices (faceAt m fi)) /\ 3 <= length (texCoordIndices (faceAt m fi)).
Proof.
  unfold calculateUVStretch.
  destruct (length (vertexIndices (faceAt m fi)) <? 3) eqn:L1; [discriminate|].
  destruct (length (texCoordIndices (faceAt m fi)) <? 3) eqn:L2; [discriminate|].
  intros _. apply Nat.ltb_ge in L1, L2. auto.
Qed.

Lemma std_min_one_range x :
  F32.is_nan (F32.std_min F32.one x) = false
  /\ F32.ge F32.one (F32.std_min F32.one x) = true.
Proof.
  unfold F32.std_min, F32.ge. destruct (F32.lt x F32.one) eqn:L.
  - split; [destruct x; try reflexivity; discriminate | now apply lt_le].
  - split; reflexivity.
Qed.

Section Issues.

Variable acosf : float -> float.

(** Issues of the face passes name a face of the mesh that has at least
    three vertex indices and carry its vertex indices: faces with fewer
    indices are skipped by every face pass, and the stretch pass also
    skips faces with fewer than three texture indices. *)
Theorem face_issues_name_triangles m a i :
  let final := analyzeQuality acosf m a in
  In i (getIssues final) ->
  type i = DEGENERATE_FACE \/ type i = HIGH_ASPECT_RATIO
  \/ type i = INVERTED_NORMAL \/ type i = TEXTURE_STRETCH ->
  elementIndex i < length (getFaces m)
  /\ relatedElements i = vertexIndices (faceAt m (elementIndex i))
  /\ 3 <= length (relatedElements i)
  /\ (type i = TEXTURE_STRETCH ->
      3 <= length (texCoordIndices (faceAt m (elementIndex i)))).
Proof.
  intros final Hin Ht. unfold getIssues, final in Hin.
  apply issue_of_run_cases in Hin.
  destruct Hin as [(f & Hf & P & ->) | [(f & Hf & P & ->) | [(e & _ & _ & ->) |
                   [(vn & _ & Hv) | [Ho | [(f & Hf & P & ->) | [(f & Hf & P & ->) |
                   (e & _ & _ & ->)]]]]]]].
  - destruct f as [fi face]. apply faceAt_indexed in Hf. destruct Hf as [B E].
    unfold isDegenerate in P. apply andb_prop in P. destruct P as [T _].
    apply hasTriangle_length in T. simpl in *. rewrite E.
    repeat split; try assumption. discriminate.
  - destruct f as [fi face]. apply faceAt_indexed in Hf. destruct Hf as [B E].
    unfold isStretched in P. apply andb_prop in P. destruct P as [T _].
    apply hasTriangle_length in T. simpl in *. rewrite E.
    repeat split; try assumption. discriminate.
  - simpl in Ht. intuition discriminate.
  - exfalso. unfold valenceIssues in Hv. apply in_app_or in Hv.
    destruct Hv as [Hv | Hv];
      [destruct (isLowValence vn) | destruct (isHighValence vn)];
      simpl in Hv; try contradiction; destruct Hv as [<- | []];
      simpl in Ht; intuition discriminate.
  - exfalso. pose proof (proj1 (Forall_forall _ _) (overlapIssues_type m) _ Ho) as T.
    unfold hasType in T. rewrite T in Ht. intuition discriminate.
  - destruct f as [fi face]. apply faceAt_indexed in Hf. destruct Hf as [B E].
    unfold isInverted in P. apply andb_prop in P. destruct P as [T _].
    apply hasTriangle_length in T. simpl in *. rewrite E.
    repeat split; try assumption. discriminate.
  - destruct f as [fi face]. apply faceAt_indexed in Hf. destruct Hf as [B E].
    unfold hasHighStretch in P. apply andb_prop in P. destruct P as [G _].
    apply uvStretch_positive in G. simpl in *. destruct G as [G1 G2].
    split; [exact B|]. split; [reflexivity|]. split; [exact G1|]. intros _. exact G2.
  - simpl in Ht. intuition discriminate.
Qed.

(** Issues of the two edge passes name an edge of the mesh by its
    smaller and larger vertex index.  A non-manifold issue stands for an
    edge spanned by more than two face-ring positions, with severity
    min(1, (n-2)/4); a sharp-angle issue for an edge spanned by exactly
    two, whose dihedral angle is below 30 degrees, with severity
    1 - angle/30. *)
Theorem edge_issues_name_shared_edges m a i :
  let final := analyzeQuality acosf m a in
  In i (getIssues final) ->
  type i = NON_MANIFOLD_EDGE \/ type i = SHARP_ANGLE ->
  exists second,
    relatedElements i = [second]
    /\ elementIndex i <= second
    /\ let spans := incidentFaces m (elementIndex i, second) in
       (type i = NON_MANIFOLD_EDGE ->
        2 < length spans /\ severity i = nonManifoldSeverity (length spans))
       /\ (type i = SHARP_ANGLE ->
           length spans = 2
           /\ F32.lt (edgeAngle acosf m ((elementIndex i, second), spans))
                     SHARP_ANGLE_THRESHOLD = true
           /\ severity i
              = F32.sub F32.one
                  (F32.div (edgeAngle acosf m ((elementIndex i, second), spans))
                           SHARP_ANGLE_THRESHOLD)).
Proof.
  intros final Hin Ht. unfold getIssues, final in Hin.
  apply issue_of_run_cases in Hin.
  destruct Hin as [(f & Hf & P & ->) | [(f & Hf & P & ->) | [(e & He & P & ->) |
                   [(vn & _ & Hv) | [Ho | [(f & Hf & P & ->) | [(f & Hf & P & ->) |
                   (e & He & P & ->)]]]]]]];
    try (simpl in Ht; exfalso; intuition discriminate).
  - destruct e as [[e1 e2] fs].
    pose proof (proj1 (Forall_forall _ _) (buildTopology_normalized m a) _ He) as N.
    apply buildTopology_entries in He. destruct He as [E _].
    unfold isNonManifold in P. apply Nat.ltb_lt in P. simpl in *.
    exists e2. rewrite <- E. split; [reflexivity|]. split; [exact N|]. split.
    + intros _. split; [exact P | reflexivity].
    + discriminate.
  - exfalso. unfold valenceIssues in Hv. apply in_app_or in Hv.
    destruct Hv as [Hv | Hv];
      [destruct (isLowValence vn) | destruct (isHighValence vn)];
      simpl in Hv; try contradiction; destruct Hv as [<- | []];
      simpl in Ht; intuition discriminate.
  - exfalso. pose proof (proj1 (Forall_forall _ _) (overlapIssues_type m) _ Ho) as T.
    unfold hasType in T. rewrite T in Ht. intuition discriminate.
  - destruct e as [[e1 e2] fs].
    pose proof (proj1 (Forall_forall _ _) (buildTopology_normalized m a) _ He) as N.
    apply buildTopology_entries in He. destruct He as [E _].
    unfold isSharp in P. apply andb_prop in P. destruct P as [P1 P2].
    apply Nat.eqb_eq in P1. simpl in *.
    exists e2. rewrite <- E. split; [reflexivity|]. split; [exact N|]. split.
    + discriminate.
    + intros _. split; [exact P1|]. split; [exact P2 | reflexivity].
Qed.

(** The overlap issues of a run: one for every pair of vertex indices
    p < q of the mesh whose squared distance is below the squared
    threshold, and no other; the issue names p and relates q. *)
Theorem overlap_issues_of_run m a i :
  let final := analyzeQuality acosf m a in
  In i (getIssuesByType final OVERLAPPING_VERTICES)
  <-> exists p q, p < q /\ q < length (getVertices m)
                  /\ overlaps (vertexAt m p) (vertexAt m q) = true
                  /\ i = overlapIssue m p q.
Proof.
  intros final.
  destruct (issues_by_type_of_run acosf m a) as (_ & _ & _ & O). fold final in O.
  rewrite O. apply overlapIssues_In.
Qed.

End Issues.

Lemma Pcompare_lt_trans a b c :
  Pos.compare a b = Lt -> Pos.compare b c = Lt -> Pos.compare a c = Lt.
Proof. rewrite !Pos.compare_lt_iff. lia. Qed.

Lemma Pcompare_gt_trans a b c :
  Pos.compare a b = Gt -> Pos.compare b c = Gt -> Pos.compare a c = Gt.
Proof. rewrite !Pos.compare_gt_iff. lia. Qed.

Lemma F32_lt_irrefl x : F32.lt x x = false.
Proof.
  unfold F32.lt, SFltb. destruct x as [s|s| |s m e]; simpl; try reflexivity.
  - destruct s; reflexivity.
  - destruct s; rewrite Z.compare_refl;
      change (Pos.compare_cont Eq m m) with (Pos.compare m m);
      rewrite Pos.compare_refl; reflexivity.
Qed.

Lemma F32_lt_trans x y z :
  F32.lt x y = true -> F32.lt y z = true -> F32.lt x z = true.
Proof.
  unfold F32.lt, SFltb.
  destruct x as [sx|sx| |sx mx ex], y as [sy|sy| |sy my ey], z as [sz|sz| |sz mz ez];
    simpl; try discriminate; try (destruct sx, sy; discriminate);
    try (destruct sy, sz; discriminate);
    try (destruct sx, sz; try reflexivity; try discriminate; fail);
    try (destruct sx, sy, sz; try reflexivity; discriminate).
  destruct sx, sy, sz; try reflexivity; try discriminate.
  - change (Pos.compare_cont Eq mx my) with (Pos.compare mx my).
    change (Pos.compare_cont Eq my mz) with (Pos.compare my mz).
    change (Pos.compare_cont Eq mx mz) with (Pos.compare mx mz).
    destruct (Z.compare_spec ex ey), (Z.compare_spec ey ez); try discriminate;
      destruct (Z.compare_spec ex ez); try reflexivity; try lia; subst.
    destruct (Pos.compare mx my) eqn:A; try discriminate.
    destruct (Pos.compare my mz) eqn:B; try discriminate.
    intros _ _. now rewrite (Pcompare_gt_trans _ _ _ A B).
  - change (Pos.compare_cont Eq mx my) with (Pos.compare mx my).
    change (Pos.compare_cont Eq my mz) with (Pos.compare my mz).
    change (Pos.compare_cont Eq mx mz) with (Pos.compare mx mz).
    destruct (Z.compare_spec ex ey), (Z.compare_spec ey ez); try discriminate;
      destruct (Z.compare_spec ex ez); try reflexivity; try lia; subst.
    destruct (Pos.compare mx my) eqn:A; try discriminate.
    destruct (Pos.compare my mz) eqn:B; try discriminate.
    intros _ _. now rewrite (Pcompare_lt_trans _ _ _ A B).
Qed.

Lemma filter_indexed_map {A B : Type} (p : A -> bool) (g : A -> B) (l : list A) : forall s,
  map (fun f => g (snd f)) (filter (fun f => p (snd f)) (combine (seq s (length l)) l))
  = map g (filter p l).
Proof.
  induction l as [|x l IH]; intros s; simpl; [reflexivity|].
  destruct (p x); simpl; now rewrite IH.
Qed.

Lemma fold_observe_skipping {X : Type} (p : X -> bool) (g : X -> float) (l : list X) :
  forall rs,
    fold_left (fun rs x => if p x then observe rs (g x) else rs) l rs
    = fold_left observe (map g (filter p l)) rs.
Proof.
  induction l as [|x l IH]; intros rs; simpl; [reflexivity|].
  destruct (p x); simpl; apply IH.
Qed.

Lemma fold_left_fst {S1 S2 X : Type} (step : S1 * S2 -> X -> S1 * S2)
    (step1 : S1 -> X -> S1) :
  (forall s x, fst (step s x) = step1 (fst s) x) ->
  forall l s, fst (fold_left step l s) = fold_left step1 l (fst s).
Proof.
  intros H. induction l as [|x l IH]; intros s; simpl; [reflexivity|].
  now rewrite IH, H.
Qed.

Lemma degenerateFace_stats m a :
  fst (fold_left (degenerateFaceStep m) (indexed (getFaces m)) (startStats, a))
  = statsOf (map (faceArea m) (measuredFaces m)).
Proof.
  rewrite (fold_left_fst (degenerateFaceStep m)
             (fun rs f => if hasTriangle (snd f) then observe rs (faceArea m (snd f)) else rs)).
  - simpl. rewrite (fold_observe_skipping (fun f => hasTriangle (snd f))
                      (fun f => faceArea m (snd f))).
    unfold statsOf, measuredFaces, indexed. now rewrite filter_indexed_map.
  - intros [rs a'] [faceIdx face]. unfold degenerateFaceStep, hasTriangle, faceArea, corner.
    simpl. destruct (length (vertexIndices face) <? 3); simpl; [reflexivity|].
    destruct (F32.lt _ DEGENERATE_THRESHOLD); reflexivity.
Qed.

Lemma aspectRatio_stats m a :
  fst (fold_left (aspectRatioStep m) (indexed (getFaces m)) (startStats, a))
  = statsOf (map (faceAspectRatio m) (measuredFaces m)).
Proof.
  rewrite (fold_left_fst (aspectRatioStep m)
             (fun rs f => if hasTriangle (snd f)
                          then observe rs (faceAspectRatio m (snd f)) else rs)).
  - simpl. rewrite (fold_observe_skipping (fun f => hasTriangle (snd f))
                      (fun f => faceAspectRatio m (snd f))).
    unfold statsOf, measuredFaces, indexed. now rewrite filter_indexed_map.
  - intros [rs a'] [faceIdx face].
    unfold aspectRatioStep, hasTriangle, faceAspectRatio, corner.
    simpl. destruct (length (vertexIndices face) <? 3); simpl; [reflexivity|].
    destruct (F32.gt _ HIGH_ASPECT_THRESHOLD); reflexivity.
Qed.

Lemma degenerateFaceStep_faceStats m st f :
  faceStats (metrics (snd (degenerateFaceStep m st f))) = faceStats (metrics (snd st)).
Proof.
  destruct st as [rs a], f as [faceIdx face]. unfold degenerateFaceStep. simpl.
  destruct (length (vertexIndices face) <? 3); [reflexivity|].
  destruct (F32.lt _ DEGENERATE_THRESHOLD); reflexivity.
Qed.

Lemma aspectRatioStep_metrics m st f :
  metrics (snd (aspectRatioStep m st f)) = metrics (snd st).
Proof.
  destruct st as [rs a], f as [faceIdx face]. unfold aspectRatioStep. simpl.
  destruct (length (vertexIndices face) <? 3); [reflexivity|].
  destruct (F32.gt _ HIGH_ASPECT_THRESHOLD); reflexivity.
Qed.

Lemma checkDegenerateFaces_metrics m a :
  getFaces m <> [] ->
  let q := metrics (checkDegenerateFaces m a) in
  let rs := statsOf (map (faceArea m) (measuredFaces m)) in
  minFaceArea q = smallest rs
  /\ maxFaceArea q = largest rs
  /\ avgFaceArea q = F32.div (total rs) (F32.of_size_t (length (getFaces m))).
Proof.
  intros N. unfold checkDegenerateFaces.
  pose proof (degenerateFace_stats m a) as S.
  destruct (fold_left _ _ _) as [rs a']. simpl in S. subst rs.
  destruct (getFaces m) as [|f l] eqn:F; [contradiction|].
  simpl. repeat split.
Qed.

Lemma checkAspectRatio_metrics m a :
  getFaces m <> [] ->
  let q := metrics (checkAspectRatio m a) in
  let rs := statsOf (map (faceAspectRatio m) (measuredFaces m)) in
  minFaceArea q = minFaceArea (metrics a)
  /\ maxFaceArea q = maxFaceArea (metrics a)
  /\ avgFaceArea q = avgFaceArea (metrics a)
  /\ minAspectRatio q = smallest rs
  /\ maxAspectRatio q = largest rs
  /\ avgAspectRatio q = F32.div (total rs) (F32.of_size_t (length (getFaces m))).
Proof.
  intros N. unfold checkAspectRatio.
  pose proof (aspectRatio_stats m a) as S.
  pose proof (fold_left_invariant
                (fun st => metrics (snd st) = metrics a)
                (aspectRatioStep m) (indexed (getFaces m))
                (fun st f _ H => eq_trans (aspectRatioStep_metrics m st f) H)
                (startStats, a) eq_refl) as M.
  destruct (fold_left _ _ _) as [rs a']. simpl in S, M. subst rs.
  destruct (getFaces m) as [|f l] eqn:F; [contradiction|].
  simpl. rewrite M. repeat split.
Qed.

Lemma nonManifoldStep_faceStats a e :
  faceStats (metrics (nonManifoldStep a e)) = faceStats (metrics a).
Proof. unfold nonManifoldStep. destruct (2 <? _); reflexivity. Qed.

Lemma checkNonManifoldEdges_faceStats a :
  faceStats (metrics (checkNonManifoldEdges a)) = faceStats (metrics a).
Proof.
  unfold checkNonManifoldEdges.
  apply (fold_left_invariant (fun a' => faceStats (metrics a') = faceStats (metrics a)));
    [|reflexivity].
  intros s e _ H. now rewrite nonManifoldStep_faceStats.
Qed.

Lemma checkNormalDirection_metrics m a :
  metrics (checkNormalDirection m a) = metrics a.
Proof.
  unfold checkNormalDirection.
  apply (fold_left_invariant (fun a' => metrics a' = metrics a)); [|reflexivity].
  intros s [faceIdx face] _ H. unfold normalDirectionStep.
  destruct (length (vertexIndices face) <? 3); [exact H|]. cbv zeta.
  destruct (F32.gt _ F32.lit_1em6); [|exact H].
  destruct (F32.gt _ F32.lit_1em6); [|exact H].
  destruct (F32.lt _ F32.zero); exact H.
Qed.

Lemma checkUVStretch_faceStats m a :
  faceStats (metrics (checkUVStretch m a)) = faceStats (metrics a).
Proof.
  unfold checkUVStretch.
  pose proof (fold_left_invariant
                (fun st : float * nat * Analyzer => metrics (snd st) = metrics a)
                (uvStretchStep m) (indexed (getFaces m))) as H.
  specialize (H ltac:(intros [[tot c] a'] [faceIdx face] _; unfold uvStretchStep; simpl;
                      intros E; destruct (F32.gt _ F32.zero); [|exact E];
                      destruct (F32.gt _ HIGH_STRETCH_THRESHOLD); exact E)
                (F32.zero, 0, a) eq_refl).
  destruct (fold_left _ _ _) as [[tot c] a']. simpl in H.
  destruct (0 <? _); simpl; now rewrite H.
Qed.

Lemma smallest_is_lower_bound xs : forall rs0 seen,
  (forall x, In x seen -> F32.lt x (smallest rs0) = false) ->
  forall x, In x (seen ++ xs) -> F32.lt x (smallest (fold_left observe xs rs0)) = false.
Proof.
  induction xs as [|y xs IH]; intros rs0 seen H x Hx.
  - rewrite app_nil_r in Hx. now apply H.
  - simpl. apply (IH (observe rs0 y) (seen ++ [y])).
    + intros x' Hx'. simpl. unfold F32.std_min.
      apply in_app_or in Hx'. destruct Hx' as [Hx' | [<- | []]].
      * destruct (F32.lt y (smallest rs0)) eqn:L; [|now apply H].
        destruct (F32.lt x' y) eqn:L'; [|reflexivity].
        rewrite <- (H x' Hx'). symmetry. now apply (F32_lt_trans x' y).
      * destruct (F32.lt y (smallest rs0)) eqn:L; [apply F32_lt_irrefl | exact L].
    + now rewrite <- app_assoc.
Qed.

Lemma largest_is_upper_bound xs : forall rs0 seen,
  (forall x, In x seen -> F32.lt (largest rs0) x = false) ->
  forall x, In x (seen ++ xs) -> F32.lt (largest (fold_left observe xs rs0)) x = false.
Proof.
  induction xs as [|y xs IH]; intros rs0 seen H x Hx.
  - rewrite app_nil_r in Hx. now apply H.
  - simpl. apply (IH (observe rs0 y) (seen ++ [y])).
    + intros x' Hx'. simpl. unfold F32.std_max.
      apply in_app_or in Hx'. destruct Hx' as [Hx' | [<- | []]].
      * destruct (F32.lt (largest rs0) y) eqn:L; [|now apply H].
        destruct (F32.lt y x') eqn:L'; [|reflexivity].
        rewrite <- (H x' Hx'). symmetry. now apply (F32_lt_trans _ y).
      * destruct (F32.lt (largest rs0) y) eqn:L; [apply F32_lt_irrefl | exact L].
    + now rewrite <- app_assoc.
Qed.

Lemma smallest_is_seen xs : forall rs0,
  smallest (fold_left observe xs rs0) = smallest rs0
  \/ In (smallest (fold_left observe xs rs0)) xs.
Proof.
  induction xs as [|y xs IH]; intros rs0; simpl; [now left|].
  destruct (IH (observe rs0 y)) as [E | I]; [|now right; right].
  rewrite E. simpl. unfold F32.std_min.
  destruct (F32.lt y (smallest rs0)); [right; now left | now left].
Qed.

Lemma largest_is_seen xs : forall rs0,
  largest (fold_left observe xs rs0) = largest rs0
  \/ In (largest (fold_left observe xs rs0)) xs.
Proof.
  induction xs as [|y xs IH]; intros rs0; simpl; [now left|].
  destruct (IH (observe rs0 y)) as [E | I]; [|now right; right].
  rewrite E. simpl. unfold F32.std_max.
  destruct (F32.lt (largest rs0) y); [right; now left | now left].
Qed.

Lemma total_is_sum xs : forall rs0,
  total (fold_left observe xs rs0) = fold_left F32.add xs (total rs0).
Proof.
  induction xs as [|y xs IH]; intros rs0; simpl; [reflexivity|]. now rewrite IH.
Qed.

Section Metrics.

Variable acosf : float -> float.

Lemma checkSharpAngles_faceStats m a :
  faceStats (metrics (checkSharpAngles acosf m a)) = faceStats (metrics a).
Proof.
  unfold checkSharpAngles.
  apply (fold_left_invariant (fun a' => faceStats (metrics a') = faceStats (metrics a)));
    [|reflexivity].
  intros s [edge fs] _ E. unfold sharpAngleStep.
  destruct (length fs =? 2); [|exact E].
  destruct (replacesMinimum _ _); simpl;
    destruct (F32.gt _ _); simpl; destruct (F32.lt _ SHARP_ANGLE_THRESHOLD); exact E.
Qed.

Lemma analyzeQuality_faceStats m a :
  getFaces m <> [] ->
  let areas := statsOf (map (faceArea m) (measuredFaces m)) in
  let ratios := statsOf (map (faceAspectRatio m) (measuredFaces m)) in
  let count := F32.of_size_t (length (getFaces m)) in
  faceStats (metrics (analyzeQuality acosf m a))
  = [smallest areas; largest areas; F32.div (total areas) count;
     smallest ratios; largest ratios; F32.div (total ratios) count].
Proof.
  intros N areas ratios count. unfold analyzeQuality, calculateOverallMetrics.
  set (a0 := buildTopology m (set_issues a [])).
  destruct (checkDegenerateFaces_metrics m a0 N) as (D1 & D2 & D3).
  set (a1 := checkDegenerateFaces m a0) in *.
  destruct (checkAspectRatio_metrics m a1 N) as (K1 & K2 & K3 & R1 & R2 & R3).
  set (a2 := checkAspectRatio m a1) in *.
  rewrite checkSharpAngles_faceStats, checkUVStretch_faceStats.
  unfold faceStats at 1. rewrite checkNormalDirection_metrics.
  rewrite (checkOverlappingVertices_pushes m), (checkVertexValence_pushes _).
  cbn [metrics set_issues].
  change ([minFaceArea (metrics (checkNonManifoldEdges a2));
           maxFaceArea (metrics (checkNonManifoldEdges a2));
           avgFaceArea (metrics (checkNonManifoldEdges a2));
           minAspectRatio (metrics (checkNonManifoldEdges a2));
           maxAspectRatio (metrics (checkNonManifoldEdges a2));
           avgAspectRatio (metrics (checkNonManifoldEdges a2))])
    with (faceStats (metrics (checkNonManifoldEdges a2))).
  rewrite checkNonManifoldEdges_faceStats. unfold faceStats.
  cbv zeta in *. rewrite R1, R2, R3, K1, K2, K3, D1, D2, D3. reflexivity.
Qed.

(** Face-area metrics of a run on a mesh with at least one face.  The
    measured faces are those with at least three vertex indices.  No
    measured area is below minFaceArea or above maxFaceArea; minFaceArea
    is FLT_MAX or a measured area, maxFaceArea is 0 or a measured area;
    avgFaceArea is the left-to-right single-precision sum of the
    measured areas divided by the number of all faces, skipped ones
    included. *)
Theorem face_area_metrics_of_run m a :
  getFaces m <> [] ->
  let areas := map (faceArea m) (measuredFaces m) in
  let q := getMetrics (analyzeQuality acosf m a) in
  (forall x, In x areas ->
             F32.lt x (minFaceArea q) = false /\ F32.lt (maxFaceArea q) x = false)
  /\ (minFaceArea q = F32.FLT_MAX \/ In (minFaceArea q) areas)
  /\ (maxFaceArea q = F32.zero \/ In (maxFaceArea q) areas)
  /\ avgFaceArea q
     = F32.div (fold_left F32.add areas F32.zero)
               (F32.of_size_t (length (getFaces m))).
Proof.
  intros N areas q. pose proof (analyzeQuality_faceStats m a N) as S.
  cbv zeta in S. unfold faceStats in S. fold areas in S.
  injection S as S1 S2 S3 _ _ _. unfold q, getMetrics. rewrite S1, S2, S3.
  unfold statsOf. split; [|split; [|split]].
  - intros x Hx. split.
    + apply (smallest_is_lower_bound areas startStats []); [intros ? []|exact Hx].
    + apply (largest_is_upper_bound areas startStats []); [intros ? []|exact Hx].
  - apply (smallest_is_seen areas startStats).
  - apply (largest_is_seen areas startStats).
  - now rewrite total_is_sum.
Qed.

(** Aspect-ratio metrics of a run on a mesh with at least one face: the
    same laws over the aspect ratios of the measured faces. *)
Theorem aspect_ratio_metrics_of_run m a :
  getFaces m <> [] ->
  let ratios := map (faceAspectRatio m) (measuredFaces m) in
  let q := getMetrics (analyzeQuality acosf m a) in
  (forall x, In x ratios ->
             F32.lt x (minAspectRatio q) = false /\ F32.lt (maxAspectRatio q) x = false)
  /\ (minAspectRatio q = F32.FLT_MAX \/ In (minAspectRatio q) ratios)
  /\ (maxAspectRatio q = F32.zero \/ In (maxAspectRatio q) ratios)
  /\ avgAspectRatio q
     = F32.div (fold_left F32.add ratios F32.zero)
               (F32.of_size_t (length (getFaces m))).
Proof.
  intros N ratios q. pose proof (analyzeQuality_faceStats m a N) as S.
  cbv zeta in S. unfold faceStats in S. fold ratios in S.
  injection S as _ _ _ S1 S2 S3. unfold q, getMetrics. rewrite S1, S2, S3.
  unfold statsOf. split; [|split; [|split]].
  - intros x Hx. split.
    + apply (smallest_is_lower_bound ratios startStats []); [intros ? []|exact Hx].
    + apply (largest_is_upper_bound ratios startStats []); [intros ? []|exact Hx].
  - apply (smallest_is_seen ratios startStats).
  - apply (largest_is_seen ratios startStats).
  - now rewrite total_is_sum.
Qed.

End Metrics.

Lemma uvStretch_fold m : forall (l : list (nat * Face)) tot c a,
  let '(tot', c', _) := fold_left (uvStretchStep m) l (tot, c, a) in
  let xs := filter (fun s => F32.gt s F32.zero) (map (fun f => calculateUVStretch m (fst f)) l) in
  tot' = fold_left F32.add xs tot /\ c' = c + length xs.
Proof.
  induction l as [|[fi face] l IH]; intros tot c a; simpl.
  - split; [reflexivity | lia].
  - destruct (F32.gt (calculateUVStretch m fi) F32.zero) eqn:G.
    + destruct (F32.gt (calculateUVStretch m fi) HIGH_STRETCH_THRESHOLD).
      * specialize (IH (F32.add tot (calculateUVStretch m fi)) (S c)
                       (push_issue a {| type := TEXTURE_STRETCH;
                                        elementIndex := fi;
                                        severity := F32.std_min F32.one
                                          (F32.div (F32.sub (calculateUVStretch m fi)
                                                            HIGH_STRETCH_THRESHOLD)
                                                   (F32.of_Z 6));
                                        relatedElements := vertexIndices (faceAt m fi) |})).
        destruct (fold_left _ _ _) as [[tot' c'] a']. simpl. destruct IH as [-> ->].
        split; [reflexivity | lia].
      * specialize (IH (F32.add tot (calculateUVStretch m fi)) (S c) a).
        destruct (fold_left _ _ _) as [[tot' c'] a']. simpl. destruct IH as [-> ->].
        split; [reflexivity | lia].
    + apply IH.
Qed.

Lemma map_fst_indexed {A B : Type} (g : nat -> B) (l : list A) : forall s,
  map (fun f => g (fst f)) (combine (seq s (length l)) l) = map g (seq s (length l)).
Proof.
  induction l as [|x l IH]; intros s; simpl; [reflexivity|]. now rewrite IH.
Qed.

Lemma uvStretchStep_others m st f :
  let q := metrics (snd st) in
  metrics (snd (uvStretchStep m st f)) = q.
Proof.
  destruct st as [[tot c] a], f as [fi face]. unfold uvStretchStep. simpl.
  destruct (F32.gt _ F32.zero); [|reflexivity].
  destruct (F32.gt _ HIGH_STRETCH_THRESHOLD); reflexivity.
Qed.

Lemma checkUVStretch_factor m a :
  let xs := positiveStretches m in
  uvStretchFactor (metrics (checkUVStretch m a))
  = match xs with
    | [] => uvStretchFactor (metrics a)
    | _ => F32.div (fold_left F32.add xs F32.zero) (F32.of_size_t (length xs))
    end.
Proof.
  intros xs. unfold checkUVStretch.
  pose proof (uvStretch_fold m (indexed (getFaces m)) F32.zero 0 a) as H.
  pose proof (fold_left_invariant
                (fun st : float * nat * Analyzer => metrics (snd st) = metrics a)
                (uvStretchStep m) (indexed (getFaces m))
                (fun st f _ E => eq_trans (uvStretchStep_others m st f) E)
                (F32.zero, 0, a) eq_refl) as M.
  destruct (fold_left _ _ _) as [[tot c] a']. simpl in M.
  unfold indexed in H. rewrite (map_fst_indexed (calculateUVStretch m)) in H.
  fold (positiveStretches m) in H. fold xs in H. destruct H as [-> ->].
  destruct xs as [|x xs']; simpl; [now rewrite M | reflexivity].
Qed.

Lemma fold_std_max_bound (xs : list float) : forall c seen,
  (forall x, In x seen -> F32.lt c x = false) ->
  forall x, In x (seen ++ xs) -> F32.lt (fold_left F32.std_max xs c) x = false.
Proof.
  induction xs as [|y xs IH]; intros c seen H x Hx.
  - rewrite app_nil_r in Hx. now apply H.
  - simpl. apply (IH (F32.std_max c y) (seen ++ [y])).
    + intros x' Hx'. unfold F32.std_max.
      apply in_app_or in Hx'. destruct Hx' as [Hx' | [<- | []]].
      * destruct (F32.lt c y) eqn:L; [|now apply H].
        destruct (F32.lt y x') eqn:L'; [|reflexivity].
        rewrite <- (H x' Hx'). symmetry. now apply (F32_lt_trans _ y).
      * destruct (F32.lt c y) eqn:L; [apply F32_lt_irrefl | exact L].
    + now rewrite <- app_assoc.
Qed.

Lemma fold_std_max_seen (xs : list float) : forall c,
  fold_left F32.std_max xs c = c \/ In (fold_left F32.std_max xs c) xs.
Proof.
  induction xs as [|y xs IH]; intros c; simpl; [now left|].
  destruct (IH (F32.std_max c y)) as [E | I]; [|now right; right].
  rewrite E. unfold F32.std_max.
  destruct (F32.lt c y); [right; now left | now left].
Qed.

Lemma fold_std_max_not_below (xs : list float) : forall c,
  F32.lt (fold_left F32.std_max xs c) c = false.
Proof.
  intros c. apply (fold_std_max_bound xs c [c]).
  - intros x [<- | []]. apply F32_lt_irrefl.
  - now left.
Qed.

Lemma checkDegenerateFaces_angleAndStretch m a :
  angleAndStretch (metrics (checkDegenerateFaces m a)) = angleAndStretch (metrics a).
Proof.
  unfold checkDegenerateFaces.
  pose proof (fold_left_invariant
                (fun st : RunningStats * Analyzer =>
                   angleAndStretch (metrics (snd st)) = angleAndStretch (metrics a))
                (degenerateFaceStep m) (indexed (getFaces m))) as H.
  specialize (H ltac:(intros [rs a'] [faceIdx face] _; unfold degenerateFaceStep; simpl;
                      intros E; destruct (length (vertexIndices face) <? 3); [exact E|];
                      destruct (F32.lt _ DEGENERATE_THRESHOLD); exact E)
                (startStats, a) eq_refl).
  destruct (fold_left _ _ _) as [rs a']. simpl in H.
  destruct (0 <? _); simpl; exact H.
Qed.

Lemma checkAspectRatio_angleAndStretch m a :
  angleAndStretch (metrics (checkAspectRatio m a)) = angleAndStretch (metrics a).
Proof.
  unfold checkAspectRatio.
  pose proof (fold_left_invariant
                (fun st => metrics (snd st) = metrics a)
                (aspectRatioStep m) (indexed (getFaces m))
                (fun st f _ H => eq_trans (aspectRatioStep_metrics m st f) H)
                (startStats, a) eq_refl) as M.
  destruct (fold_left _ _ _) as [rs a']. simpl in M.
  destruct (0 <? _); simpl; now rewrite M.
Qed.

Lemma checkNonManifoldEdges_angleAndStretch a :
  angleAndStretch (metrics (checkNonManifoldEdges a)) = angleAndStretch (metrics a).
Proof.
  unfold checkNonManifoldEdges.
  apply (fold_left_invariant
           (fun a' => angleAndStretch (metrics a') = angleAndStretch (metrics a)));
    [|reflexivity].
  intros s e _ H. unfold nonManifoldStep. destruct (2 <? _); exact H.
Qed.

Lemma beforeStretch_angleAndStretch m a :
  let a0 := buildTopology m (set_issues a []) in
  let a5 := checkOverlappingVertices m
              (checkVertexValence
                 (checkNonManifoldEdges (checkAspectRatio m (checkDegenerateFaces m a0)))) in
  angleAndStretch (metrics (checkNormalDirection m a5)) = angleAndStretch (metrics a)
  /\ edgeFaceMap (checkUVStretch m (checkNormalDirection m a5))
     = edgeFaceMap (buildTopology m a).
Proof.
  intros a0 a5. split.
  - unfold a5. rewrite checkNormalDirection_metrics.
    rewrite (checkOverlappingVertices_pushes m), (checkVertexValence_pushes _).
    cbn [metrics set_issues].
    rewrite checkNonManifoldEdges_angleAndStretch, checkAspectRatio_angleAndStretch,
      checkDegenerateFaces_angleAndStretch.
    reflexivity.
  - destruct (checkUVStretch_appends m (checkNormalDirection m a5)) as (E7 & _).
    destruct (checkNormalDirection_appends m a5) as (E6 & _).
    rewrite E7, E6. unfold a5.
    rewrite (checkOverlappingVertices_pushes m), (checkVertexValence_pushes _).
    cbn [edgeFaceMap set_issues].
    destruct (nonManifold_fold (edgeFaceMap (checkAspectRatio m (checkDegenerateFaces m a0)))
                (checkAspectRatio m (checkDegenerateFaces m a0))) as (_ & _ & E3 & _).
    fold (checkNonManifoldEdges (checkAspectRatio m (checkDegenerateFaces m a0))) in E3.
    rewrite E3.
    destruct (checkAspectRatio_appends m (checkDegenerateFaces m a0)) as (E2 & _).
    destruct (checkDegenerateFaces_appends m a0) as (E1 & _).
    rewrite E2, E1. reflexivity.
Qed.

Section Angles.

Variable acosf : float -> float.

Lemma checkSharpAngles_maximum m a :
  maxDihedralAngle (metrics (checkSharpAngles acosf m a))
  = fold_left F32.std_max
      (map (edgeAngle acosf m) (filter isManifoldEntry (edgeFaceMap a)))
      (maxDihedralAngle (metrics a)).
Proof.
  unfold checkSharpAngles. generalize (edgeFaceMap a) as l. intros l. revert a.
  induction l as [|[edge fs] l IH]; intros a; [reflexivity|].
  cbn [fold_left]. rewrite IH.
  assert (E : maxDihedralAngle (metrics (sharpAngleStep acosf m a (edge, fs)))
              = if length fs =? 2
                then F32.std_max (maxDihedralAngle (metrics a)) (edgeAngle acosf m (edge, fs))
                else maxDihedralAngle (metrics a)).
  { unfold sharpAngleStep, edgeAngle, F32.std_max, F32.gt, F32.lt. cbn [fst snd].
    destruct (length fs =? 2); [|reflexivity].
    destruct (replacesMinimum _ _); simpl;
      destruct (SFltb (maxDihedralAngle (metrics a)) _); simpl;
      destruct (SFltb _ SHARP_ANGLE_THRESHOLD); reflexivity. }
  rewrite E.
  change (filter isManifoldEntry ((edge, fs) :: l))
    with (if length fs =? 2 then (edge, fs) :: filter isManifoldEntry l
          else filter isManifoldEntry l).
  destruct (length fs =? 2); reflexivity.
Qed.

Lemma laterPasses_uvStretchFactor m a :
  uvStretchFactor (metrics (checkSharpAngles acosf m a)) = uvStretchFactor (metrics a)
  /\ maxDihedralAngle (metrics (checkUVStretch m a)) = maxDihedralAngle (metrics a).
Proof.
  split.
  - unfold checkSharpAngles.
    apply (fold_left_invariant
             (fun a' => uvStretchFactor (metrics a') = uvStretchFactor (metrics a)));
      [|reflexivity].
    intros s [edge fs] _ E. unfold sharpAngleStep.
    destruct (length fs =? 2); [|exact E].
    destruct (replacesMinimum _ _); simpl;
      destruct (F32.gt _ _); simpl; destruct (F32.lt _ SHARP_ANGLE_THRESHOLD); exact E.
  - unfold checkUVStretch.
    pose proof (fold_left_invariant
                  (fun st : float * nat * Analyzer => metrics (snd st) = metrics a)
                  (uvStretchStep m) (indexed (getFaces m))
                  (fun st f _ E => eq_trans (uvStretchStep_others m st f) E)
                  (F32.zero, 0, a) eq_refl) as M.
    destruct (fold_left _ _ _) as [[tot c] a']. simpl in M.
    destruct (0 <? c); simpl; now rewrite M.
Qed.

(** The stretch factor of a run averages the faces whose stretch
    compares above zero, and only those: the single-precision sum of
    their stretches, face by face, divided by their number.  When no
    face qualifies the field keeps the value it had before the run. *)
Theorem uv_stretch_factor_of_run m a :
  let xs := positiveStretches m in
  uvStretchFactor (getMetrics (analyzeQuality acosf m a))
  = match xs with
    | [] => uvStretchFactor (metrics a)
    | _ => F32.div (fold_left F32.add xs F32.zero) (F32.of_size_t (length xs))
    end.
Proof.
  intros xs. unfold getMetrics, analyzeQuality, calculateOverallMetrics.
  destruct (beforeStretch_angleAndStretch m a) as [S _]. cbv zeta in S.
  rewrite (proj1 (laterPasses_uvStretchFactor m _)), checkUVStretch_factor.
  fold xs. unfold angleAndStretch in S. injection S as _ _ S. rewrite S. reflexivity.
Qed.

(** The largest dihedral angle is never reset: after a run it is not
    below the value it had before, not below the angle of any edge with
    exactly two incident faces, and it is either the old value or one of
    those angles. *)
Theorem max_dihedral_angle_of_run m a :
  let angles := map (edgeAngle acosf m)
                    (filter isManifoldEntry (edgeFaceMap (buildTopology m a))) in
  let q := getMetrics (analyzeQuality acosf m a) in
  (forall x, In x angles -> F32.lt (maxDihedralAngle q) x = false)
  /\ F32.lt (maxDihedralAngle q) (maxDihedralAngle (metrics a)) = false
  /\ (maxDihedralAngle q = maxDihedralAngle (metrics a) \/ In (maxDihedralAngle q) angles).
Proof.
  intros angles q.
  assert (E : maxDihedralAngle q
              = fold_left F32.std_max angles (maxDihedralAngle (metrics a))).
  { unfold q, getMetrics, analyzeQuality, calculateOverallMetrics.
    destruct (beforeStretch_angleAndStretch m a) as [S M]. cbv zeta in S, M.
    rewrite checkSharpAngles_maximum, M.
    rewrite (proj2 (laterPasses_uvStretchFactor m _)).
    unfold angleAndStretch in S. injection S as _ S _. rewrite S. reflexivity. }
  rewrite E. split; [|split].
  - intros x Hx. apply (fold_std_max_bound angles _ []); [intros ? []|exact Hx].
  - apply fold_std_max_not_below.
  - apply fold_std_max_seen.
Qed.

End Angles.

Lemma Pcompare_le_trans a b c :
  Pos.compare a b <> Gt -> Pos.compare b c <> Gt -> Pos.compare a c <> Gt.
Proof.
  intros H1 H2. exact (Pos.le_trans a b c H1 H2).
Qed.

Lemma Pcompare_ge_trans a b c :
  Pos.compare a b <> Lt -> Pos.compare b c <> Lt -> Pos.compare a c <> Lt.
Proof.
  intros H1 H2. apply Pos.compare_ge_iff.
  apply (proj1 (Pos.compare_ge_iff _ _)) in H1. apply (proj1 (Pos.compare_ge_iff _ _)) in H2.
  exact (Pos.le_trans c b a H2 H1).
Qed.

Lemma SFleb_trans x y z : SFleb x y = true -> SFleb y z = true -> SFleb x z = true.
Proof.
  unfold SFleb.
  destruct x as [sx|sx| |sx mx ex], y as [sy|sy| |sy my ey], z as [sz|sz| |sz mz ez];
    simpl; try discriminate; try reflexivity;
    try (destruct sx, sy, sz; try reflexivity; discriminate);
    try (destruct sx, sy; try reflexivity; discriminate);
    try (destruct sy, sz; try reflexivity; discriminate);
    try (destruct sx, sz; try reflexivity; discriminate).
  change (Pos.compare_cont Eq mx my) with (Pos.compare mx my).
  change (Pos.compare_cont Eq my mz) with (Pos.compare my mz).
  change (Pos.compare_cont Eq mx mz) with (Pos.compare mx mz).
  destruct sx, sy, sz; try reflexivity; try discriminate.
  - destruct (Z.compare_spec ex ey), (Z.compare_spec ey ez); try discriminate;
      destruct (Z.compare_spec ex ez); try reflexivity; try lia; subst.
    intros A B.
    assert (A' : Pos.compare mx my <> Lt) by (destruct (Pos.compare mx my); simpl in A; congruence).
    assert (B' : Pos.compare my mz <> Lt) by (destruct (Pos.compare my mz); simpl in B; congruence).
    pose proof (Pcompare_ge_trans _ _ _ A' B') as C.
    destruct (Pos.compare mx mz); simpl; congruence.
  - destruct (Z.compare_spec ex ey), (Z.compare_spec ey ez); try discriminate;
      destruct (Z.compare_spec ex ez); try reflexivity; try lia; subst.
    intros A B.
    assert (A' : Pos.compare mx my <> Gt) by (destruct (Pos.compare mx my); simpl in A; congruence).
    assert (B' : Pos.compare my mz <> Gt) by (destruct (Pos.compare my mz); simpl in B; congruence).
    pose proof (Pcompare_le_trans _ _ _ A' B') as C.
    destruct (Pos.compare mx mz); simpl; congruence.
Qed.

Lemma getIssuesBySeverity_filter a s :
  getIssuesBySeverity a s = filter (fun i => F32.ge (severity i) s) (issues a).
Proof. apply (fold_left_push_filter (fun i => F32.ge (severity i) s)). Qed.

Lemma filter_filter_implied {A : Type} (p q : A -> bool) (l : list A) :
  (forall x, q x = true -> p x = true) ->
  filter q (filter p l) = filter q l.
Proof.
  intros H. induction l as [|x l IH]; simpl; [reflexivity|].
  destruct (p x) eqn:P; simpl.
  - now rewrite IH.
  - destruct (q x) eqn:Q; [|exact IH]. apply H in Q. congruence.
Qed.

(** The severity query is monotone in its threshold and never returns an
    issue whose severity is NaN: raising the threshold from [s1] to [s2]
    returns exactly the issues of the [s1] answer that reach [s2], in
    the same order; a NaN threshold returns nothing. *)
Theorem severity_query_monotone (a : Analyzer) (s1 s2 : float) :
  F32.ge s2 s1 = true ->
  getIssuesBySeverity a s2
  = filter (fun i => F32.ge (severity i) s2) (getIssuesBySeverity a s1)
  /\ (forall i, In i (getIssuesBySeverity a s2) ->
                In i (getIssuesBySeverity a s1) /\ F32.is_nan (severity i) = false)
  /\ getIssuesBySeverity a S754_nan = [].
Proof.
  intros G.
  assert (Imp : forall i, F32.ge (severity i) s2 = true -> F32.ge (severity i) s1 = true).
  { intros i H. unfold F32.ge in *. now apply (SFleb_trans s1 s2). }
  rewrite !getIssuesBySeverity_filter. split; [|split].
  - symmetry. now apply filter_filter_implied.
  - intros i Hi. apply filter_In in Hi. destruct Hi as [Hin H]. split.
    + apply filter_In. split; [exact Hin | now apply Imp].
    + unfold F32.ge, SFleb in H. destruct (severity i); try reflexivity.
      destruct s2; discriminate.
  - apply (filter_none _ (fun _ => True)); [reflexivity|].
    apply Forall_forall. intros; exact I.
Qed.

Lemma issueCounts_incr_after t l1 l2 :
  Forall (fun p => IssueType_value (fst p) < IssueType_value t) l1 ->
  issueCounts_incr t (l1 ++ l2) = l1 ++ issueCounts_incr t l2.
Proof.
  induction 1 as [|[t' c] l1 H _ IH]; simpl; [reflexivity|].
  simpl in H. apply Nat.compare_gt_iff in H. rewrite H. now rewrite IH.
Qed.

Lemma issueCounts_incr_before t l2 :
  Forall (fun p => IssueType_value t < IssueType_value (fst p)) l2 ->
  issueCounts_incr t l2 = (t, 1%Z) :: l2.
Proof.
  destruct 1 as [|[t' c] l2 H _]; simpl; [reflexivity|].
  simpl in H. apply Nat.compare_lt_iff in H. now rewrite H.
Qed.

Lemma issueCounts_incr_here t c l2 :
  issueCounts_incr t ((t, c) :: l2) = (t, (c + 1)%Z) :: l2.
Proof. simpl. now rewrite Nat.compare_refl. Qed.

Lemma slots_keys (cnt : IssueType -> nat) (P : IssueType -> Prop) (ts : list IssueType) :
  Forall P ts ->
  Forall (fun p : IssueType * Z => P (fst p))
         (flat_map (fun t => if 0 <? cnt t then [(t, Z.of_nat (cnt t))] else []) ts).
Proof.
  induction 1 as [|t ts H _ IH]; simpl; [constructor|].
  destruct (0 <? cnt t); simpl; [constructor|]; assumption.
Qed.

Lemma flat_map_agree {X Y : Type} (f g : X -> list Y) (l : list X) :
  (forall x, In x l -> f x = g x) -> flat_map f l = flat_map g l.
Proof.
  induction l as [|x l IH]; intros H; simpl; [reflexivity|].
  rewrite (H x (or_introl eq_refl)), IH; [reflexivity|].
  intros y Hy. apply H. now right.
Qed.

Lemma slots_bump t (cnt : IssueType -> nat) (ts : list IssueType) :
  ~ In t ts ->
  flat_map (fun t' => if 0 <? bump t cnt t' then [(t', Z.of_nat (bump t cnt t'))] else []) ts
  = flat_map (fun t' => if 0 <? cnt t' then [(t', Z.of_nat (cnt t'))] else []) ts.
Proof.
  intros N. apply flat_map_agree. intros t' Ht'. unfold bump.
  destruct (IssueType_eqb t' t) eqn:E; [|reflexivity].
  apply IssueType_eqb_eq in E. subst. contradiction.
Qed.

Lemma allIssueTypes_split t :
  exists before after,
    allIssueTypes = before ++ t :: after
    /\ Forall (fun t' => IssueType_value t' < IssueType_value t) before
    /\ Forall (fun t' => IssueType_value t < IssueType_value t') after.
Proof.
  unfold allIssueTypes.
  destruct t;
    [ exists [], [HIGH_ASPECT_RATIO; OVERLAPPING_VERTICES; NON_MANIFOLD_EDGE;
                 INVERTED_NORMAL; HIGH_VALENCE_VERTEX; LOW_VALENCE_VERTEX;
                 TEXTURE_STRETCH; SHARP_ANGLE]
    | exists [DEGENERATE_FACE], [OVERLAPPING_VERTICES; NON_MANIFOLD_EDGE;
                 INVERTED_NORMAL; HIGH_VALENCE_VERTEX; LOW_VALENCE_VERTEX;
                 TEXTURE_STRETCH; SHARP_ANGLE]
    | exists [DEGENERATE_FACE; HIGH_ASPECT_RATIO], [NON_MANIFOLD_EDGE;
                 INVERTED_NORMAL; HIGH_VALENCE_VERTEX; LOW_VALENCE_VERTEX;
                 TEXTURE_STRETCH; SHARP_ANGLE]
    | exists [DEGENERATE_FACE; HIGH_ASPECT_RATIO; OVERLAPPING_VERTICES],
             [INVERTED_NORMAL; HIGH_VALENCE_VERTEX; LOW_VALENCE_VERTEX;
              TEXTURE_STRETCH; SHARP_ANGLE]
    | exists [DEGENERATE_FACE; HIGH_ASPECT_RATIO; OVERLAPPING_VERTICES; NON_MANIFOLD_EDGE],
             [HIGH_VALENCE_VERTEX; LOW_VALENCE_VERTEX; TEXTURE_STRETCH; SHARP_ANGLE]
    | exists [DEGENERATE_FACE; HIGH_ASPECT_RATIO; OVERLAPPING_VERTICES; NON_MANIFOLD_EDGE;
              INVERTED_NORMAL],
             [LOW_VALENCE_VERTEX; TEXTURE_STRETCH; SHARP_ANGLE]
    | exists [DEGENERATE_FACE; HIGH_ASPECT_RATIO; OVERLAPPING_VERTICES; NON_MANIFOLD_EDGE;
              INVERTED_NORMAL; HIGH_VALENCE_VERTEX],
             [TEXTURE_STRETCH; SHARP_ANGLE]
    | exists [DEGENERATE_FACE; HIGH_ASPECT_RATIO; OVERLAPPING_VERTICES; NON_MANIFOLD_EDGE;
              INVERTED_NORMAL; HIGH_VALENCE_VERTEX; LOW_VALENCE_VERTEX],
             [SHARP_ANGLE]
    | exists [DEGENERATE_FACE; HIGH_ASPECT_RATIO; OVERLAPPING_VERTICES; NON_MANIFOLD_EDGE;
              INVERTED_NORMAL; HIGH_VALENCE_VERTEX; LOW_VALENCE_VERTEX; TEXTURE_STRETCH],
             [] ];
    (split; [reflexivity|]; split; repeat constructor).
Qed.

Lemma issueCounts_incr_table t cnt :
  issueCounts_incr t (countTable cnt) = countTable (bump t cnt).
Proof.
  unfold countTable.
  destruct (allIssueTypes_split t) as (before & after & -> & B & A).
  assert (Nb : ~ In t before).
  { intros Hin. pose proof (proj1 (Forall_forall _ _) B t Hin) as H. cbv beta in H. lia. }
  assert (Na : ~ In t after).
  { intros Hin. pose proof (proj1 (Forall_forall _ _) A t Hin) as H. cbv beta in H. lia. }
  rewrite !flat_map_app. cbn [flat_map].
  rewrite (slots_bump t cnt before Nb), (slots_bump t cnt after Na).
  rewrite issueCounts_incr_after
    by (apply (slots_keys cnt (fun t' => IssueType_value t' < IssueType_value t)); exact B).
  f_equal. unfold bump at 1 2.
  replace (IssueType_eqb t t) with true by (symmetry; now apply IssueType_eqb_eq).
  cbv iota. change (0 <? S (cnt t)) with true. cbv iota.
  destruct (0 <? cnt t) eqn:P.
  - cbn [app]. rewrite issueCounts_incr_here. do 2 f_equal. lia.
  - apply Nat.ltb_ge in P. replace (cnt t) with 0 by lia. cbn [app].
    apply issueCounts_incr_before.
    apply (slots_keys cnt (fun t' => IssueType_value t < IssueType_value t')). exact A.
Qed.

Lemma issueCounts_fold (l : list MeshIssue) : forall cnt,
  fold_left (fun counts issue => issueCounts_incr (type issue) counts) l (countTable cnt)
  = countTable (fun t => cnt t + length (filter (byType t) l)).
Proof.
  induction l as [|i l IH]; intros cnt; simpl.
  - unfold countTable. apply flat_map_ext. intros t. now rewrite Nat.add_0_r.
  - rewrite issueCounts_incr_table, IH. unfold countTable. apply flat_map_ext.
    intros t. unfold bump, byType.
    destruct (IssueType_eqb t (type i)) eqn:E.
    + apply IssueType_eqb_eq in E. subst.
      replace (IssueType_eqb (type i) (type i)) with true
        by (symmetry; now apply IssueType_eqb_eq).
      simpl. now rewrite Nat.add_succ_r.
    + replace (IssueType_eqb (type i) t) with false; [reflexivity|].
      symmetry. destruct (IssueType_eqb (type i) t) eqn:E'; [|reflexivity].
      apply IssueType_eqb_eq in E'. subst.
      assert (IssueType_eqb (type i) (type i) = true) by now apply IssueType_eqb_eq.
      congruence.
Qed.

Lemma issueCounts_table (a : Analyzer) :
  issueCounts a
  = map (fun t => (t, Z.of_nat (length (getIssuesByType a t))))
        (filter (fun t => 0 <? length (getIssuesByType a t)) allIssueTypes).
Proof.
  unfold issueCounts.
  change (@nil (IssueType * Z)) with (countTable (fun _ => 0)) at 1.
  rewrite issueCounts_fold. unfold countTable. cbn [Nat.add].
  rewrite <- (flat_map_optional (fun t => 0 <? length (getIssuesByType a t))
                (fun t => (t, Z.of_nat (length (getIssuesByType a t))))).
  apply flat_map_ext. intros t. now rewrite getIssuesByType_filter.
Qed.

(** The issue section of the summary lists every issue type that
    occurs, once, in the declaration order of the enumeration, with the
    number of issues the query by type returns for it; types without
    issues get no line, and the nine names are pairwise different. *)
Theorem summary_counts_issues_by_type (a : Analyzer) :
  (Z.of_nat (length (getIssues a)) < 2 ^ 31)%Z ->
  issueCounts a
  = map (fun t => (t, Z.of_nat (length (getIssuesByType a t))))
        (filter (fun t => 0 <? length (getIssuesByType a t)) allIssueTypes)
  /\ issuesFound a
     = fold_left (fun summary t =>
                    String.append summary
                      (issueLine (t, Z.of_nat (length (getIssuesByType a t)))))
                 (filter (fun t => 0 <? length (getIssuesByType a t)) allIssueTypes)
                 (String.append issuesFoundHeading newline)
  /\ (forall t t', getIssueTypeName t = getIssueTypeName t' -> t = t').
Proof.
  intros _. pose proof (issueCounts_table a) as E.
  split; [exact E|]. split.
  - unfold issuesFound. rewrite E.
    generalize (String.append issuesFoundHeading newline) as s.
    generalize (filter (fun t => 0 <? length (getIssuesByType a t)) allIssueTypes) as ts.
    induction ts as [|t ts IH]; intros s; simpl; [reflexivity|]. apply IH.
  - intros t t'. destruct t, t'; simpl; intros H; try reflexivity; discriminate.
Qed.

Lemma F32_mul_comm x y : F32.mul x y = F32.mul y x.
Proof.
  unfold F32.mul, SFmul.
  destruct x as [sx|sx| |sx mx ex], y as [sy|sy| |sy my ey];
    try reflexivity; try (now rewrite xorb_comm).
  now rewrite xorb_comm, Pos.mul_comm, Z.add_comm.
Qed.

Lemma dot3_comm a b : dot3 a b = dot3 b a.
Proof.
  destruct a as [[ax ay] az], b as [[bx by_] bz]. unfold dot3.
  now rewrite (F32_mul_comm ax bx), (F32_mul_comm ay by_), (F32_mul_comm az bz).
Qed.

(** The dihedral angle does not depend on the order in which the two
    faces are given: the dot product of the two normals is computed
    from commutative single-precision products. *)
Theorem dihedral_angle_symmetric (acosf : float -> float) m f1 f2 s1 s2 :
  calculateDihedralAngle acosf m f1 f2 s1 s2 = calculateDihedralAngle acosf m f2 f1 s1 s2.
Proof.
  unfold calculateDihedralAngle. cbv zeta. now rewrite dot3_comm.
Qed.

Lemma binary_round_abs s m e :
  SFabs (binary_round F32.prec F32.emax s m e)
  = SFabs (binary_round F32.prec F32.emax false m e).
Proof.
  unfold binary_round. destruct (shl_align _ _ _) as [mz ez].
  unfold binary_round_aux. destruct (shr_fexp _ _ _ _ _) as [mrs' e'].
  destruct (shr_fexp _ _ _ _ _) as [mrs'' e''].
  destruct (shr_m mrs''); try reflexivity.
  destruct (Z.leb _ _); reflexivity.
Qed.

Lemma binary_normalize_abs_opp m e :
  SFabs (binary_normalize F32.prec F32.emax (- m) e false)
  = SFabs (binary_normalize F32.prec F32.emax m e false).
Proof.
  destruct m; simpl; [reflexivity| |]; rewrite (binary_round_abs true); reflexivity.
Qed.

Lemma F32_sub_swap_abs x y : F32.abs (F32.sub x y) = F32.abs (F32.sub y x).
Proof.
  unfold F32.abs, F32.sub, SFsub.
  destruct x as [sx|sx| |sx mx ex], y as [sy|sy| |sy my ey];
    try reflexivity; try (destruct sx, sy; reflexivity).
  cbv zeta. rewrite (Z.min_comm ey ex).
  rewrite <- binary_normalize_abs_opp. f_equal. f_equal. lia.
Qed.

Lemma F32_mul_self_abs d : F32.mul d d = F32.mul (F32.abs d) (F32.abs d).
Proof.
  unfold F32.mul, F32.abs. destruct d as [s|s| |s m e]; simpl; try reflexivity;
    destruct s; reflexivity.
Qed.

Lemma F32_square_diff x y :
  F32.mul (F32.sub x y) (F32.sub x y) = F32.mul (F32.sub y x) (F32.sub y x).
Proof.
  rewrite (F32_mul_self_abs (F32.sub x y)), (F32_mul_self_abs (F32.sub y x)).
  now rewrite (F32_sub_swap_abs x y).
Qed.

Lemma squaredDistance_comm v1 v2 : squaredDistance v1 v2 = squaredDistance v2 v1.
Proof.
  unfold squaredDistance. cbv zeta.
  now rewrite (F32_square_diff (Vertex.x v2)), (F32_square_diff (Vertex.y v2)),
    (F32_square_diff (Vertex.z v2)).
Qed.

(** Distances are symmetric bit for bit, and so is the overlap test:
    the pair scan loses nothing by testing each unordered pair once. *)
Theorem distance_symmetric m i j :
  calculateDistance m i j = calculateDistance m j i
  /\ overlaps (vertexAt m i) (vertexAt m j) = overlaps (vertexAt m j) (vertexAt m i).
Proof.
  unfold calculateDistance, overlaps.
  now rewrite (squaredDistance_comm (vertexAt m i)).
Qed.

Section History.

Variable acosf : float -> float.

(** Issues, topology and the face statistics are recomputed from
    scratch by every run: they depend on the mesh only, not on the
    state the analyzer was in (the face statistics when the mesh has a
    face).  What a run inherits from earlier runs is confined to the two
    counters, the dihedral extremes and the stretch factor. *)
Theorem run_is_independent_of_history m a b :
  let ra := analyzeQuality acosf m a in
  let rb := analyzeQuality acosf m b in
  getIssues ra = getIssues rb
  /\ edgeFaceMap ra = edgeFaceMap rb
  /\ vertexConnectivity ra = vertexConnectivity rb
  /\ (getFaces m <> [] -> faceStats (getMetrics ra) = faceStats (getMetrics rb)).
Proof.
  intros ra rb. destruct (analyzeQuality_agree acosf m a b) as (I & E & V).
  split; [exact I|]. split; [exact E|]. split; [exact V|].
  intros N. unfold ra, rb, getMetrics.
  now rewrite !analyzeQuality_faceStats.
Qed.

End History.

(** ** Closed instances of the closed forms *)

Lemma face_issues_name_triangles_witness :
  let final := analyzeQuality acos_sample sliver (MeshQualityAnalyzer F32.half) in
  let i := degenerateIssue sliver (0, triangleFace 0 1 2) in
  In i (getIssues final)
  /\ elementIndex i < length (getFaces sliver)
  /\ 3 <= length (relatedElements i).
Proof.
  intros final i.
  assert (Hin : In i (getIssues final)) by (vm_compute; left; reflexivity).
  split; [exact Hin|].
  destruct (face_issues_name_triangles acos_sample sliver (MeshQualityAnalyzer F32.half)
              i Hin (or_introl eq_refl)) as (B & _ & L & _).
  split; [exact B | exact L].
Defined.

Lemma edge_issues_name_shared_edges_witness :
  let final := analyzeQuality acos_sample fan3 (MeshQualityAnalyzer F32.half) in
  let i := nonManifoldIssue ((0, 1), [0; 1; 2]) in
  In i (getIssues final)
  /\ exists second, relatedElements i = [second] /\ elementIndex i <= second.
Proof.
  intros final i.
  assert (Hin : In i (getIssues final)) by (vm_compute; left; reflexivity).
  split; [exact Hin|].
  destruct (edge_issues_name_shared_edges acos_sample fan3 (MeshQualityAnalyzer F32.half)
              i Hin (or_introl eq_refl)) as (second & R & L & _).
  exists second. split; [exact R | exact L].
Defined.

Lemma face_area_metrics_of_run_witness :
  getFaces unitTriangle <> []
  /\ avgFaceArea (getMetrics (analyzeQuality acos_sample unitTriangle
                                (MeshQualityAnalyzer F32.half)))
     = F32.div (fold_left F32.add (map (faceArea unitTriangle) (measuredFaces unitTriangle))
                          F32.zero)
               (F32.of_size_t (length (getFaces unitTriangle))).
Proof.
  assert (N : getFaces unitTriangle <> []) by discriminate.
  split; [exact N|].
  exact (proj2 (proj2 (proj2 (face_area_metrics_of_run acos_sample unitTriangle
                                (MeshQualityAnalyzer F32.half) N)))).
Defined.

Lemma aspect_ratio_metrics_of_run_witness :
  getFaces unitTriangle <> []
  /\ avgAspectRatio (getMetrics (analyzeQuality acos_sample unitTriangle
                                   (MeshQualityAnalyzer F32.half)))
     = F32.div (fold_left F32.add
                  (map (faceAspectRatio unitTriangle) (measuredFaces unitTriangle))
                  F32.zero)
               (F32.of_size_t (length (getFaces unitTriangle))).
Proof.
  assert (N : getFaces unitTriangle <> []) by discriminate.
  split; [exact N|].
  exact (proj2 (proj2 (proj2 (aspect_ratio_metrics_of_run acos_sample unitTriangle
                                (MeshQualityAnalyzer F32.half) N)))).
Defined.

Lemma severity_query_monotone_witness :
  let a := analyzeQuality acos_sample fan3 (MeshQualityAnalyzer F32.half) in
  F32.ge F32.one F32.half = true
  /\ getIssuesBySeverity a F32.one
     = filter (fun i => F32.ge (severity i) F32.one) (getIssuesBySeverity a F32.half).
Proof.
  intros a. split; [reflexivity|].
  exact (proj1 (severity_query_monotone a F32.half F32.one eq_refl)).
Defined.

Lemma summary_counts_issues_by_type_witness :
  let a := analyzeQuality acos_sample fan3 (MeshQualityAnalyzer F32.half) in
  (Z.of_nat (length (getIssues a)) < 2 ^ 31)%Z
  /\ issueCounts a
     = map (fun t => (t, Z.of_nat (length (getIssuesByType a t))))
           (filter (fun t => 0 <? length (getIssuesByType a t)) allIssueTypes).
Proof.
  intros a.
  assert (B : (Z.of_nat (length (getIssues a)) < 2 ^ 31)%Z) by (vm_compute; reflexivity).
  split; [exact B|].
  exact (proj1 (summary_counts_issues_by_type a B)).
Defined.

(** * Interplay of the passes, the topology as a graph, severities *)

Lemma tiny_area_aspect_ratio m face :
  F32.gt (faceArea m face) F32.lit_1em6 = false ->
  faceAspectRatio m face = F32.FLT_MAX.
Proof.
  unfold faceArea, faceAspectRatio, calculateAspectRatio, triangleMinHeight.
  intros H. cbv zeta. rewrite H. reflexivity.
Qed.

Section Tiny.

Variable acosf : float -> float.

(** A face with at least three vertex indices whose area does not
    compare above 1e-6 (zero, tiny or NaN) has aspect ratio FLT_MAX, so
    every run reports it as a high-aspect-ratio face with severity
    exactly 1; when its area is below 1e-5 it is reported as a
    degenerate face as well, earlier in the list. *)
Theorem tiny_faces_have_extreme_aspect_ratio m a fi :
  let face := faceAt m fi in
  let final := analyzeQuality acosf m a in
  fi < length (getFaces m) ->
  3 <= length (vertexIndices face) ->
  F32.gt (faceArea m face) F32.lit_1em6 = false ->
  faceAspectRatio m face = F32.FLT_MAX
  /\ In {| type := HIGH_ASPECT_RATIO;
           elementIndex := fi;
           severity := F32.one;
           relatedElements := vertexIndices face |} (getIssues final)
  /\ (F32.lt (faceArea m face) DEGENERATE_THRESHOLD = true ->
      In (degenerateIssue m (fi, face)) (getIssues final)).
Proof.
  intros face final B L G.
  assert (Hin : In (fi, face) (indexed (getFaces m))).
  { apply (indexed_In (getFaces m) emptyFace). split; [exact B | reflexivity]. }
  assert (T : hasTriangle face = true).
  { unfold hasTriangle. apply negb_true_iff. apply Nat.ltb_ge. exact L. }
  pose proof (tiny_area_aspect_ratio m face G) as R.
  split; [exact R|]. split.
  - unfold getIssues, final. apply issue_of_run_cases.
    right. left. exists (fi, face). split; [exact Hin|]. split.
    + unfold isStretched. cbn [snd]. rewrite T, R. reflexivity.
    + unfold aspectIssue. cbn [fst snd]. rewrite R. reflexivity.
  - intros D. unfold getIssues, final. apply issue_of_run_cases.
    left. exists (fi, face). split; [exact Hin|]. split; [|reflexivity].
    unfold isDegenerate. cbn [snd]. now rewrite T, D.
Qed.

End Tiny.

Lemma tiny_faces_have_extreme_aspect_ratio_witness :
  0 < length (getFaces sliver)
  /\ 3 <= length (vertexIndices (faceAt sliver 0))
  /\ F32.gt (faceArea sliver (faceAt sliver 0)) F32.lit_1em6 = false
  /\ faceAspectRatio sliver (faceAt sliver 0) = F32.FLT_MAX.
Proof.
  assert (B : 0 < length (getFaces sliver)) by (simpl; lia).
  assert (L : 3 <= length (vertexIndices (faceAt sliver 0))) by (simpl; lia).
  assert (G : F32.gt (faceArea sliver (faceAt sliver 0)) F32.lit_1em6 = false)
    by (vm_compute; reflexivity).
  split; [exact B|]. split; [exact L|]. split; [exact G|].
  exact (proj1 (tiny_faces_have_extreme_aspect_ratio acos_sample sliver
                  (MeshQualityAnalyzer F32.half) 0 B L G)).
Defined.

Lemma normalizedEdge_eq p q x y :
  normalizedEdge p q = normalizedEdge x y <-> (p, q) = (x, y) \/ (p, q) = (y, x).
Proof.
  unfold normalizedEdge. split.
  - intros H. injection H as H1 H2.
    assert (D : (p = x /\ q = y) \/ (p = y /\ q = x)) by lia.
    destruct D as [[-> ->] | [-> ->]]; auto.
  - intros [H | H]; injection H as -> ->; [reflexivity|].
    now rewrite Nat.min_comm, Nat.max_comm.
Qed.

Lemma repeat_nonempty {A : Type} (x : A) n : repeat x n <> [] <-> 0 < n.
Proof.
  destruct n; simpl; split.
  - congruence.
  - lia.
  - lia.
  - discriminate.
Qed.

Lemma flat_map_nonempty {A B : Type} (g : A -> list B) (l : list A) :
  flat_map g l <> [] <-> exists x, In x l /\ g x <> [].
Proof.
  induction l as [|h t IH]; simpl.
  - split; [congruence | intros (x & [] & _)].
  - split.
    + intros H. destruct (g h) eqn:E.
      * simpl in H. apply IH in H. destruct H as (x & Hx & N). exists x. auto.
      * exists h. split; [now left|]. rewrite E. discriminate.
    + intros (x & [-> | Hx] & N) H; apply app_eq_nil in H; destruct H as [H1 H2].
      * contradiction.
      * apply (proj2 IH); [exists x; auto | exact H2].
Qed.

Lemma ringSpans_nonempty key ring :
  ringSpans key ring <> []
  <-> exists p q, In (p, q) (ringPairs ring) /\ normalizedEdge p q = key.
Proof.
  unfold ringSpans, ringPairs. split.
  - intros H. destruct (filter _ _) as [|i rest] eqn:F; [contradiction|].
    assert (Hi : In i (filter (fun i => Edge_eqb (ringKey ring i) key)
                              (seq 0 (length ring)))) by (rewrite F; now left).
    apply filter_In in Hi. destruct Hi as [Hs E]. apply Edge_eqb_eq in E.
    exists (nth i ring 0), (nth ((i + 1) mod length ring) ring 0).
    split; [|exact E]. apply in_map_iff. exists i. auto.
  - intros (p & q & Hin & E) H. apply in_map_iff in Hin.
    destruct Hin as (i & Ei & Hs). injection Ei as <- <-.
    assert (Hi : In i (filter (fun i => Edge_eqb (ringKey ring i) key)
                              (seq 0 (length ring)))).
    { apply filter_In. split; [exact Hs|]. apply Edge_eqb_eq. exact E. }
    rewrite H in Hi. contradiction.
Qed.

Lemma incidentFaces_nonempty m key :
  incidentFaces m key <> []
  <-> exists p q, In (p, q) (meshPairs m) /\ normalizedEdge p q = key.
Proof.
  unfold incidentFaces, meshPairs. rewrite flat_map_nonempty. split.
  - intros ([fi face] & Hf & N). cbn [fst snd] in N.
    apply repeat_nonempty in N.
    assert (S : ringSpans key (vertexIndices face) <> []).
    { intros E. rewrite E in N. simpl in N. lia. }
    apply ringSpans_nonempty in S. destruct S as (p & q & Hin & E).
    exists p, q. split; [|exact E]. apply in_flat_map. exists face. split; [|exact Hin].
    unfold indexed in Hf. now apply in_combine_r in Hf.
  - intros (p & q & Hin & E). apply in_flat_map in Hin. destruct Hin as (face & Hf & Hin).
    destruct (In_nth _ _ emptyFace Hf) as (fi & B & Efi).
    exists (fi, face). split.
    + apply (indexed_In (getFaces m) emptyFace). auto.
    + cbn [fst snd]. apply repeat_nonempty.
      assert (S : ringSpans key (vertexIndices face) <> []).
      { apply ringSpans_nonempty. exists p, q. auto. }
      destruct (ringSpans key (vertexIndices face)); [contradiction | simpl; lia].
Qed.

(** The two structures of the topology describe one graph: for a mesh
    whose face indices are in range, [y] is in the adjacency list of [x]
    exactly when the edge map has an entry for the edge between [x] and
    [y] (smaller index first). *)
Theorem adjacency_matches_edge_map m a x y :
  indicesInRange m = true ->
  let t := buildTopology m a in
  In y (nth x (vertexConnectivity t) [])
  <-> exists fs, In (normalizedEdge x y, fs) (edgeFaceMap t).
Proof.
  intros H t.
  assert (C : In y (nth x (vertexConnectivity t) [])
              <-> In (x, y) (meshPairs m) \/ In (y, x) (meshPairs m)).
  { unfold t, buildTopology. simpl.
    rewrite (walkFaces_adjacency (length (getVertices m))).
    - cbn [snd]. rewrite nth_repeat_nil. unfold indexed, meshPairs.
      rewrite (flat_map_indexed (fun f => ringPairs (vertexIndices f)) (getFaces m) 0).
      simpl. tauto.
    - simpl. apply repeat_length.
    - apply Forall_forall. intros [fi f] Hf. unfold indexed in Hf.
      apply in_combine_r in Hf. simpl.
      exact (proj1 (Forall_forall _ _) (indicesInRange_Forall m H) _ Hf). }
  rewrite C. split.
  - intros P. exists (incidentFaces m (normalizedEdge x y)).
    apply buildTopology_entries. split; [reflexivity|].
    apply incidentFaces_nonempty.
    destruct P as [P | P]; [exists x, y | exists y, x]; split; try exact P;
      [reflexivity | apply normalizedEdge_comm].
  - intros (fs & Hin). apply buildTopology_entries in Hin. destruct Hin as [-> N].
    apply incidentFaces_nonempty in N. destruct N as (p & q & Hin & E).
    apply normalizedEdge_eq in E. destruct E as [E | E]; injection E as -> ->; auto.
Qed.

Lemma adjacency_matches_edge_map_witness :
  indicesInRange unitTriangle = true
  /\ In 2 (nth 0 (vertexConnectivity
                    (buildTopology unitTriangle (MeshQualityAnalyzer F32.half))) []).
Proof.
  split; [reflexivity|].
  apply (adjacency_matches_edge_map unitTriangle (MeshQualityAnalyzer F32.half) 0 2 eq_refl).
  exists [0]. simpl. auto.
Defined.

Local Open Scope Z_scope.

Lemma binary_round_aux_nonNegative m e l :
  nonNegative (binary_round_aux F32.prec F32.emax false m e l) = true.
Proof.
  unfold binary_round_aux. destruct (shr_fexp _ _ _ _ _) as [mrs' e'].
  destruct (shr_fexp _ _ _ _ _) as [mrs'' e''].
  destruct (shr_m mrs''); try reflexivity.
  destruct (Z.leb _ _); reflexivity.
Qed.

Lemma binary_round_nonNegative m e :
  nonNegative (binary_round F32.prec F32.emax false m e) = true.
Proof.
  unfold binary_round. destruct (shl_align _ _ _) as [mz ez].
  apply binary_round_aux_nonNegative.
Qed.

Lemma binary_normalize_nonNegative m e :
  0 <= m -> nonNegative (binary_normalize F32.prec F32.emax m e false) = true.
Proof.
  destruct m; simpl; intros H; [reflexivity | apply binary_round_nonNegative | lia].
Qed.

Lemma of_size_t_nonNegative n : nonNegative (F32.of_size_t n) = true.
Proof. unfold F32.of_size_t, F32.of_Z. apply binary_normalize_nonNegative. lia. Qed.

Lemma F32_div_nonNegative x my ey :
  nonNegative x = true ->
  nonNegative (F32.div x (S754_finite false my ey)) = true.
Proof.
  unfold F32.div, SFdiv. destruct x as [sx|sx| |sx mx ex]; simpl; intros N;
    try reflexivity.
  - rewrite xorb_false_r. exact N.
  - destruct sx; [discriminate|]. simpl.
    destruct (SFdiv_core_binary _ _ _ _ _ _) as [[q e'] l].
    apply binary_round_aux_nonNegative.
Qed.

Lemma nonNegative_ge_zero x :
  nonNegative x = true -> F32.is_nan x = false -> F32.ge x F32.zero = true.
Proof.
  destruct x as [s|[|]| |[|] m e]; try discriminate; reflexivity.
Qed.

Lemma std_min_one_unit x :
  nonNegative x = true ->
  F32.ge (F32.std_min F32.one x) F32.zero = true
  /\ F32.ge F32.one (F32.std_min F32.one x) = true.
Proof.
  intros N. destruct (std_min_one_range x) as [Nan U]. split; [|exact U].
  apply nonNegative_ge_zero; [|exact Nan].
  unfold F32.std_min. destruct (F32.lt x F32.one); [exact N | reflexivity].
Qed.

Lemma neg_of_negative d : F32.lt d F32.zero = true -> nonNegative (F32.neg d) = true.
Proof.
  destruct d as [s|[|]| |[|] m e]; try discriminate; reflexivity.
Qed.

Lemma iter_xO_value m p : Zpos (Pos.iter xO m p) = Zpos m * 2 ^ Zpos p.
Proof.
  induction p as [|p IH] using Pos.peano_ind.
  - change (Pos.iter xO m 1) with (xO m). rewrite Pos2Z.inj_xO. change (2 ^ 1) with 2. ring.
  - rewrite Pos.iter_succ, Pos2Z.inj_succ, Z.pow_succ_r by lia.
    rewrite Pos2Z.inj_xO, IH. ring.
Qed.

Lemma shl_align_value m e ez :
  ez <= e -> Zpos (fst (shl_align m e ez)) = Zpos m * 2 ^ (e - ez).
Proof.
  intros H. unfold shl_align. destruct (ez - e) as [|p|p] eqn:E; cbn [fst].
  - replace (e - ez) with 0 by lia. rewrite Z.pow_0_r. lia.
  - lia.
  - replace (e - ez) with (Zpos p) by lia. apply iter_xO_value.
Qed.

Lemma Zdigits2_upper p n : Zdigits2 (Zpos p) <= n -> 0 <= n -> Zpos p < 2 ^ n.
Proof.
  intros H Hn. rewrite Zdigits2_log2 in H by lia.
  apply Z.log2_lt_pow2; lia.
Qed.

(** For canonical positive floats the order of the representations is
    the order of the values. *)
Lemma canonical_order mx ex my ey :
  F32.valid (S754_finite false mx ex) = true ->
  F32.valid (S754_finite false my ey) = true ->
  ey < ex \/ (ex = ey /\ Zpos my < Zpos mx) ->
  let ez := Z.min ex ey in
  Zpos my * 2 ^ (ey - ez) < Zpos mx * 2 ^ (ex - ez).
Proof.
  intros Vx Vy Hord ez. apply valid_finite in Vx, Vy.
  destruct Vx as [Cx _], Vy as [Cy _]. rewrite fexp32 in Cx, Cy.
  destruct Hord as [L | [-> L]].
  - assert (Ez : ez = ey) by (unfold ez; lia). rewrite Ez, Z.sub_diag, Z.pow_0_r, Z.mul_1_r.
    assert (Dx : Zdigits2 (Zpos mx) = 24) by lia.
    assert (Dy : Zdigits2 (Zpos my) <= 24) by lia.
    apply Zdigits2_24 in Dx. apply Zdigits2_upper in Dy; [|lia].
    assert (P : 2 ^ 1 <= 2 ^ (ex - ey)) by (apply Z.pow_le_mono_r; lia).
    change (2 ^ 1) with 2 in P. change (2 ^ 24) with 16777216 in Dy.
    clear - Dx Dy P. nia.
  - assert (Ez : ez = ey) by (unfold ez; lia). rewrite Ez, Z.sub_diag, Z.pow_0_r. lia.
Qed.

Lemma F32_sub_gt_nonNegative x mt et :
  F32.valid x = true -> F32.valid (S754_finite false mt et) = true ->
  F32.gt x (S754_finite false mt et) = true ->
  nonNegative (F32.sub x (S754_finite false mt et)) = true.
Proof.
  intros Vx Vt G. unfold F32.gt in G.
  destruct x as [sx|[|]| |[|] mx ex]; try discriminate; try reflexivity.
  apply lt_finite_pos in G.
  assert (G' : et < ex \/ (ex = et /\ Zpos mt < Zpos mx)) by lia.
  pose proof (canonical_order mx ex mt et Vx Vt G') as O. cbv zeta in O.
  unfold F32.sub, SFsub. cbv zeta.
  apply binary_normalize_nonNegative. unfold cond_Zopp.
  rewrite !shl_align_value by lia. lia.
Qed.

Lemma HIGH_ASPECT_THRESHOLD_finite :
  HIGH_ASPECT_THRESHOLD = S754_finite false 10485760 (-20).
Proof. reflexivity. Qed.

Lemma HIGH_STRETCH_THRESHOLD_finite :
  HIGH_STRETCH_THRESHOLD = S754_finite false 8388608 (-21).
Proof. reflexivity. Qed.

Lemma calculateAspectRatio_valid m i j k : F32.valid (calculateAspectRatio m i j k) = true.
Proof.
  unfold calculateAspectRatio. cbv zeta.
  destruct (F32.gt _ F32.lit_1em6); [apply F32_div_valid | reflexivity].
Qed.

Lemma calculateUVStretch_valid m fi : F32.valid (calculateUVStretch m fi) = true.
Proof.
  unfold calculateUVStretch. cbv zeta.
  destruct (_ || _); [reflexivity|].
  destruct (_ || _); [reflexivity|].
  unfold F32.std_max. destruct (F32.lt _ _); apply F32_div_valid.
Qed.

Local Close Scope Z_scope.

Local Open Scope Z_scope.

Lemma Zdigits2_le_of_lt q n : 0 <= q -> 0 <= n -> q < 2 ^ n -> Zdigits2 q <= n.
Proof.
  intros Hq Hn H. destruct (Z.eq_dec q 0) as [-> | N]; [simpl; lia|].
  rewrite Zdigits2_log2 by lia.
  assert (Z.log2 q < n) by (apply Z.log2_lt_pow2; lia). lia.
Qed.

Lemma Zdigits2_lower q n : 0 < q -> Zdigits2 q = n + 1 -> 2 ^ n <= q.
Proof.
  intros Hq H. rewrite Zdigits2_log2 in H by lia.
  destruct (Z.log2_spec q Hq) as [L _]. replace (Z.log2 q) with n in L by lia. exact L.
Qed.

Lemma Zdigits2_lt_pow2 q n : 0 <= q -> 0 <= n -> Zdigits2 q <= n -> q < 2 ^ n.
Proof.
  intros Hq Hn H. destruct (Z.eq_dec q 0) as [-> | N].
  - apply Z.pow_pos_nonneg; lia.
  - rewrite Zdigits2_log2 in H by lia. apply Z.log2_lt_pow2; lia.
Qed.

(** Rounding a non-negative value below one gives at most one. *)
Lemma binary_round_aux_le_one m e l :
  0 <= m -> e <= fexp F32.prec F32.emax (Zdigits2 m + e) ->
  Zdigits2 m + e <= 0 ->
  F32.ge F32.one (binary_round_aux F32.prec F32.emax false m e l) = true.
Proof.
  intros Hm He Hd0.
  set (e1 := fexp F32.prec F32.emax (Zdigits2 m + e)).
  destruct (shr_fexp_spec m e l Hm He) as [S1 S2]. fold e1 in S1, S2.
  unfold binary_round_aux.
  destruct (shr_fexp F32.prec F32.emax m e l) as [mrs1 e1'] eqn:R1.
  simpl in S1, S2. subst e1'.
  set (m1 := Z.shiftr m (e1 - e)) in *.
  assert (Hm1 : 0 <= m1) by (apply Z.shiftr_nonneg; assumption).
  set (m1' := round_nearest_even (shr_m mrs1) (loc_of_shr_record mrs1)).
  assert (Hr : m1' = m1 \/ m1' = m1 + 1)
    by (unfold m1'; rewrite S1; apply round_nearest_even_or).
  assert (Hm1' : 0 <= m1') by lia.
  pose proof (Zdigits2_succ m1 Hm1) as Hd.
  pose proof (Zdigits2_nonneg m) as Hdm.
  assert (HA : 0 < m1 -> Zdigits2 m1 = Zdigits2 m - (e1 - e))
    by (intros; apply Zdigits2_shiftr; lia).
  assert (HB : m1 = 0 -> Zdigits2 m <= e1 - e)
    by (intros; apply Zdigits2_shiftr_0; lia).
  assert (E1 : e1 = Z.max (Zdigits2 m + e - 24) (-149)) by reflexivity.
  assert (D0 : Zdigits2 0 = 0) by reflexivity.
  assert (D1 : Zdigits2 (0 + 1) = 1) by reflexivity.
  clearbody m1' m1 e1.
  assert (Hpre : e1 <= fexp F32.prec F32.emax (Zdigits2 m1' + e1)).
  { rewrite fexp32. destruct (Z.eq_dec m1 0) as [Z|NZ].
    - specialize (HB Z). rewrite Z in Hr.
      destruct Hr as [-> | ->]; lia.
    - destruct Hr as [-> | ->]; lia. }
  destruct (shr_fexp_spec m1' e1 loc_Exact Hm1' Hpre) as [T1 T2].
  destruct (shr_fexp F32.prec F32.emax m1' e1 loc_Exact) as [mrs2 e2] eqn:R2.
  simpl in T1, T2.
  assert (E2 : e2 = Z.max (Zdigits2 m1' + e1 - 24) (-149)) by (rewrite T2; apply fexp32).
  assert (Hn : e1 <= e2 <= e1 + 1).
  { destruct (Z.eq_dec m1 0) as [Z|NZ].
    - specialize (HB Z). rewrite Z in Hr.
      destruct Hr as [Hr | Hr]; rewrite Hr in E2; lia.
    - destruct Hr as [Hr | Hr]; rewrite Hr in E2; lia. }
  assert (Hm2 : 0 <= shr_m mrs2) by (rewrite T1; apply Z.shiftr_nonneg; assumption).
  assert (B1 : Zdigits2 m1 <= 24).
  { destruct (Z.eq_dec m1 0) as [Z|NZ]; [rewrite Z; simpl; lia|].
    rewrite HA by lia. lia. }
  assert (V1 : m1 < 2 ^ 24) by (apply Zdigits2_lt_pow2; lia).
  destruct (shr_m mrs2) as [|p|p] eqn:M2; [reflexivity| |lia].
  assert (L2 : e2 <= -23) by lia.
  replace (e2 <=? F32.emax - F32.prec) with true
    by (symmetry; apply Z.leb_le; unfold F32.emax, F32.prec; lia).
  unfold F32.one. apply ge_finite_pos.
  destruct (Z.eq_dec e2 (-23)) as [E23 | N23]; [|left; lia].
  right. split; [symmetry; exact E23|].
  assert (E1v : e1 = -24) by lia.
  assert (D25 : Zdigits2 m1' = 25) by lia.
  assert (P25 : 2 ^ 24 <= m1').
  { apply Zdigits2_lower; [|exact D25].
    destruct (Z.eq_dec m1' 0) as [Z|NZ]; [rewrite Z in D25; simpl in D25; lia | lia]. }
  assert (X : m1' = 2 ^ 24) by lia.
  rewrite <- T2 in T1. rewrite X in T1. replace (e2 - e1) with 1 in T1 by lia.
  change (Z.shiftr (2 ^ 24) 1) with 8388608 in T1. lia.
Qed.

Lemma binary_round_le_one d e :
  Zdigits2 (Zpos d) + e <= 0 ->
  F32.ge F32.one (binary_round F32.prec F32.emax false d e) = true.
Proof.
  intros H. unfold binary_round, shl_align.
  destruct (fexp F32.prec F32.emax (Zpos (digits2_pos d) + e) - e) as [|p|p] eqn:E;
    apply binary_round_aux_le_one; try lia; simpl Zdigits2 in *.
  - lia.
  - lia.
  - rewrite digits2_pos_iter_xO.
    replace (Zpos (digits2_pos d) + Zpos p
             + fexp F32.prec F32.emax (Zpos (digits2_pos d) + e))
      with (Zpos (digits2_pos d) + e) by lia.
    lia.
  - rewrite digits2_pos_iter_xO. lia.
Qed.

(** The quotient of a positive float by a larger one is at most one. *)
Lemma F32_div_lt_le_one mx ex my ey :
  F32.valid (S754_finite false mx ex) = true ->
  F32.valid (S754_finite false my ey) = true ->
  F32.lt (S754_finite false mx ex) (S754_finite false my ey) = true ->
  F32.ge F32.one (F32.div (S754_finite false mx ex) (S754_finite false my ey)) = true.
Proof.
  intros Vx Vy L. apply lt_finite_pos in L.
  assert (L' : ex < ey \/ (ey = ex /\ Zpos mx < Zpos my)) by lia.
  pose proof (canonical_order my ey mx ex Vy Vx L') as O. cbv zeta in O.
  assert (Ez : Z.min ey ex = ex) by lia. rewrite Ez, Z.sub_diag, Z.pow_0_r, Z.mul_1_r in O.
  unfold F32.div, SFdiv. simpl xorb.
  pose proof (div_core_spec mx ex my ey) as H.
  destruct (SFdiv_core_binary _ _ _ _ _ _) as [[q e'] l].
  destruct H as (Q & E & Eq & B & P).
  apply binary_round_aux_le_one; [exact Q | exact P |].
  assert (He' : e' <= ex - ey) by lia.
  assert (Hq : q < 2 ^ (- e')).
  { rewrite Eq, Z.shiftl_mul_pow2 by lia.
    apply Z.div_lt_upper_bound; [lia|].
    assert (S : 2 ^ (ey - ex) * 2 ^ (ex - ey - e') = 2 ^ (- e')).
    { rewrite <- Z.pow_add_r by lia. f_equal. lia. }
    assert (P0 : 0 < 2 ^ (ex - ey - e')) by (apply Z.pow_pos_nonneg; lia).
    rewrite <- S. clear - O P0. nia. }
  assert (Dq : Zdigits2 q <= - e') by (apply Zdigits2_le_of_lt; lia).
  lia.
Qed.

Lemma ge_one_not_nan r : F32.ge F32.one r = true -> F32.is_nan r = false.
Proof. destruct r; try reflexivity. discriminate. Qed.

(** One minus a value of [0, 1] is a value of [0, 1]. *)
Lemma F32_one_minus_unit q :
  F32.valid q = true ->
  F32.ge q F32.zero = true -> F32.ge F32.one q = true ->
  F32.ge (F32.sub F32.one q) F32.zero = true
  /\ F32.ge F32.one (F32.sub F32.one q) = true.
Proof.
  intros V G0 G1.
  destruct q as [s|[|]| |[|] mq eq]; try discriminate.
  - destruct s; split; reflexivity.
  - unfold F32.one in G1. apply ge_finite_pos in G1.
    assert (Ez : Z.min (-23) eq = eq) by lia.
    assert (X : 8388608 * 2 ^ (-23 - eq) = 2 ^ (- eq)).
    { change 8388608 with (2 ^ 23). rewrite <- Z.pow_add_r by lia. f_equal. lia. }
    assert (Ord : Zpos mq <= 2 ^ (- eq)).
    { destruct G1 as [L | [E Lm]].
      - assert (O := canonical_order 8388608 (-23) mq eq eq_refl V (or_introl L)).
        cbv zeta in O. rewrite Ez, Z.sub_diag, Z.pow_0_r, Z.mul_1_r, X in O. lia.
      - rewrite <- E. simpl. lia. }
    assert (U : F32.ge F32.one (F32.sub F32.one (S754_finite false mq eq)) = true).
    { unfold F32.sub, SFsub, F32.one. cbv zeta. rewrite Ez.
      unfold cond_Zopp. rewrite !shl_align_value by lia.
      rewrite Z.sub_diag, Z.pow_0_r, Z.mul_1_r, X.
      destruct (2 ^ (- eq) - Zpos mq) as [|d|d] eqn:D.
      - reflexivity.
      - simpl. apply binary_round_le_one.
        assert (Zdigits2 (Zpos d) <= - eq) by (apply Zdigits2_le_of_lt; lia). lia.
      - lia. }
    split; [|exact U].
    apply nonNegative_ge_zero; [|now apply ge_one_not_nan].
    unfold F32.sub, SFsub, F32.one. cbv zeta. rewrite Ez.
    apply binary_normalize_nonNegative.
    unfold cond_Zopp. rewrite !shl_align_value by lia.
    rewrite Z.sub_diag, Z.pow_0_r, Z.mul_1_r, X. lia.
Qed.

Local Close Scope Z_scope.

Lemma faceArea_nonNegative m face : nonNegative (faceArea m face) = true.
Proof.
  unfold faceArea, calculateTriangleArea.
  apply F32_mul_half_nonNegative; [apply F32_sqrt_valid | apply F32_sqrt_nonNegative].
Qed.

Lemma degenerate_severity_unit area :
  F32.valid area = true -> nonNegative area = true ->
  F32.lt area DEGENERATE_THRESHOLD = true ->
  let s := F32.sub F32.one (F32.div area DEGENERATE_THRESHOLD) in
  F32.ge s F32.zero = true /\ F32.ge F32.one s = true.
Proof.
  intros V N L s. unfold s. clear s.
  change DEGENERATE_THRESHOLD with (S754_finite false 10995116 (-40)) in *.
  destruct area as [s|[|]| |[|] ma ea]; try discriminate.
  - destruct s; split; reflexivity.
  - pose proof (F32_div_lt_le_one ma ea 10995116 (-40) V eq_refl L) as U.
    apply F32_one_minus_unit; [apply F32_div_valid | | exact U].
    apply nonNegative_ge_zero; [|now apply ge_one_not_nan].
    now apply F32_div_nonNegative.
Qed.

Lemma low_valence_severity_unit vn :
  isLowValence vn = true ->
  F32.ge (severity (lowValenceIssue vn)) F32.zero = true
  /\ F32.ge F32.one (severity (lowValenceIssue vn)) = true.
Proof.
  unfold isLowValence, lowValenceIssue, LOW_VALENCE_THRESHOLD. cbn [severity].
  destruct (length (snd vn)) as [|[|[|n]]]; try discriminate; intros _;
    split; vm_compute; reflexivity.
Qed.

Section Severities.

Variable acosf : float -> float.

(** Severities are normalized: in every issue of every run other than
    an overlapping-vertices or a sharp-angle issue the severity lies in
    [0, 1] (and is not NaN), for any mesh.  The five clamped
    expressions are never negative and are cut at 1; the degenerate-face
    and low-valence formulas [1 - x/threshold] stay in range because
    [x] is non-negative and below the threshold. *)
Theorem severities_in_unit_range m a i :
  let final := analyzeQuality acosf m a in
  In i (getIssues final) ->
  type i <> OVERLAPPING_VERTICES -> type i <> SHARP_ANGLE ->
  F32.ge (severity i) F32.zero = true /\ F32.ge F32.one (severity i) = true.
Proof.
  intros final Hin Ho Hs. unfold getIssues, final in Hin.
  apply issue_of_run_cases in Hin.
  destruct Hin as [(f & Hf & P & ->) | [(f & Hf & P & ->) | [(e & He & P & ->) |
                   [(vn & _ & Hv) | [Hov | [(f & Hf & P & ->) | [(f & Hf & P & ->) |
                   (e & He & P & ->)]]]]]]].
  - (* degenerate face *)
    unfold isDegenerate in P. apply andb_prop in P. destruct P as [_ L].
    cbn [severity degenerateIssue].
    apply degenerate_severity_unit;
      [apply calculateTriangleArea_valid | apply faceArea_nonNegative | exact L].
  - (* aspect ratio *)
    unfold isStretched in P. apply andb_prop in P. destruct P as [_ G].
    cbn [severity aspectIssue snd]. apply std_min_one_unit.
    change (F32.of_Z 30) with (S754_finite false 15728640 (-19)).
    apply F32_div_nonNegative. rewrite HIGH_ASPECT_THRESHOLD_finite in *.
    apply (F32_sub_gt_nonNegative (faceAspectRatio m (snd f)) 10485760 (-20));
      [unfold faceAspectRatio; apply calculateAspectRatio_valid | reflexivity | exact G].
  - (* non-manifold edge *)
    cbn [severity nonManifoldIssue]. unfold nonManifoldSeverity. apply std_min_one_unit.
    change (F32.of_Z 4) with (S754_finite false 8388608 (-21)).
    apply F32_div_nonNegative, of_size_t_nonNegative.
  - (* valence *)
    unfold valenceIssues in Hv. apply in_app_or in Hv.
    destruct Hv as [Hv | Hv].
    + destruct (isLowValence vn) eqn:Lv; simpl in Hv; [|contradiction].
      destruct Hv as [<- | []]. now apply low_valence_severity_unit.
    + destruct (isHighValence vn); simpl in Hv; [|contradiction].
      destruct Hv as [<- | []]. cbn [severity highValenceIssue]. apply std_min_one_unit.
      change (F32.of_Z 8) with (S754_finite false 8388608 (-20)).
      apply F32_div_nonNegative, of_size_t_nonNegative.
  - exfalso. apply Ho.
    exact (proj1 (Forall_forall _ _) (overlapIssues_type m) _ Hov).
  - (* inverted normal *)
    unfold isInverted in P. apply andb_prop in P. destruct P as [_ P].
    cbn [severity invertedIssue]. destruct (alignment m (snd f)) as [d|]; [|discriminate].
    apply std_min_one_unit, neg_of_negative, P.
  - (* texture stretch *)
    unfold hasHighStretch in P. apply andb_prop in P. destruct P as [_ G].
    cbn [severity stretchIssue fst]. apply std_min_one_unit.
    change (F32.of_Z 6) with (S754_finite false 12582912 (-21)).
    apply F32_div_nonNegative. rewrite HIGH_STRETCH_THRESHOLD_finite in *.
    apply (F32_sub_gt_nonNegative (calculateUVStretch m (fst f)) 8388608 (-21));
      [apply calculateUVStretch_valid | reflexivity | exact G].
  - exfalso. apply Hs. reflexivity.
Qed.

End Severities.

Lemma severities_in_unit_range_witness :
  let final := analyzeQuality acos_sample sliver (MeshQualityAnalyzer F32.half) in
  let i := degenerateIssue sliver (0, triangleFace 0 1 2) in
  In i (getIssues final)
  /\ F32.ge (severity i) F32.zero = true /\ F32.ge F32.one (severity i) = true.
Proof.
  intros final i.
  assert (Hin : In i (getIssues final)) by (vm_compute; left; reflexivity).
  split; [exact Hin|].
  apply (severities_in_unit_range acos_sample sliver (MeshQualityAnalyzer F32.half) i Hin);
    discriminate.
Defined.

Local Open Scope Z_scope.

(** Rounding a non-negative value strictly below a normal float [t]
    gives at most [t]. *)
Lemma binary_round_aux_le_normal m e l mt et :
  0 <= m -> e <= fexp F32.prec F32.emax (Zdigits2 m + e) ->
  F32.valid (S754_finite false mt et) = true ->
  Zdigits2 (Zpos mt) = 24 ->
  m * 2 ^ (e - Z.min e et) < Zpos mt * 2 ^ (et - Z.min e et) ->
  F32.ge (S754_finite false mt et) (binary_round_aux F32.prec F32.emax false m e l) = true.
Proof.
  intros Hm He Vt Dt Hlt.
  apply valid_finite in Vt. destruct Vt as [Ct Bt]. rewrite fexp32 in Ct.
  assert (Et : -149 <= et) by lia.
  pose proof (Zdigits2_24 mt Dt) as Lt23.
  assert (Ut : Zpos mt < 2 ^ 24) by (apply Zdigits2_lt_pow2; lia).
  remember (Z.min e et) as ez eqn:Eez.
  assert (Hdig : Zdigits2 m + e <= 24 + et).
  { destruct (Z.eq_dec m 0) as [-> | NZ].
    { rewrite fexp32 in He. change (Zdigits2 0) with 0 in *. lia. }
    assert (D : Zdigits2 (m * 2 ^ (e - ez)) <= 24 + (et - ez)).
    { apply Zdigits2_le_of_lt.
      - apply Z.mul_nonneg_nonneg; [lia|]. apply Z.pow_nonneg. lia.
      - lia.
      - eapply Z.lt_trans; [exact Hlt|].
        rewrite Z.pow_add_r by lia.
        apply Z.mul_lt_mono_pos_r; [apply Z.pow_pos_nonneg; lia | exact Ut]. }
    rewrite <- Z.shiftl_mul_pow2 in D by lia.
    rewrite Zdigits2_shiftl in D by lia. lia. }
  set (e1 := fexp F32.prec F32.emax (Zdigits2 m + e)).
  destruct (shr_fexp_spec m e l Hm He) as [S1 S2]. fold e1 in S1, S2.
  unfold binary_round_aux.
  destruct (shr_fexp F32.prec F32.emax m e l) as [mrs1 e1'] eqn:R1.
  simpl in S1, S2. subst e1'.
  set (m1 := Z.shiftr m (e1 - e)) in *.
  assert (Hm1 : 0 <= m1) by (apply Z.shiftr_nonneg; assumption).
  assert (Vm1 : e1 = et -> m1 < Zpos mt).
  { intros Ee. unfold m1. rewrite Z.shiftr_div_pow2 by (fold e1 in He; lia).
    assert (Ez : ez = e) by (fold e1 in He; lia).
    rewrite Ez, Z.sub_diag, Z.pow_0_r, Z.mul_1_r in Hlt. rewrite Ee.
    apply Z.div_lt_upper_bound; [apply Z.pow_pos_nonneg; fold e1 in He; lia|].
    rewrite Z.mul_comm. exact Hlt. }
  set (m1' := round_nearest_even (shr_m mrs1) (loc_of_shr_record mrs1)).
  assert (Hr : m1' = m1 \/ m1' = m1 + 1)
    by (unfold m1'; rewrite S1; apply round_nearest_even_or).
  assert (Hm1' : 0 <= m1') by lia.
  pose proof (Zdigits2_succ m1 Hm1) as Hd.
  pose proof (Zdigits2_nonneg m) as Hdm.
  assert (HA : 0 < m1 -> Zdigits2 m1 = Zdigits2 m - (e1 - e))
    by (intros; apply Zdigits2_shiftr; fold e1 in He; lia).
  assert (HB : m1 = 0 -> Zdigits2 m <= e1 - e)
    by (intros; apply Zdigits2_shiftr_0; fold e1 in He; lia).
  assert (E1 : e1 = Z.max (Zdigits2 m + e - 24) (-149)) by reflexivity.
  assert (D0 : Zdigits2 0 = 0) by reflexivity.
  assert (D1 : Zdigits2 (0 + 1) = 1) by reflexivity.
  clearbody m1' m1 e1.
  assert (Hpre : e1 <= fexp F32.prec F32.emax (Zdigits2 m1' + e1)).
  { rewrite fexp32. destruct (Z.eq_dec m1 0) as [Z|NZ].
    - specialize (HB Z). rewrite Z in Hr.
      destruct Hr as [-> | ->]; lia.
    - destruct Hr as [-> | ->]; lia. }
  destruct (shr_fexp_spec m1' e1 loc_Exact Hm1' Hpre) as [T1 T2].
  destruct (shr_fexp F32.prec F32.emax m1' e1 loc_Exact) as [mrs2 e2] eqn:R2.
  simpl in T1, T2.
  assert (E2 : e2 = Z.max (Zdigits2 m1' + e1 - 24) (-149)) by (rewrite T2; apply fexp32).
  assert (Hn : e1 <= e2 <= e1 + 1).
  { destruct (Z.eq_dec m1 0) as [Z|NZ].
    - specialize (HB Z). rewrite Z in Hr.
      destruct Hr as [Hr | Hr]; rewrite Hr in E2; lia.
    - destruct Hr as [Hr | Hr]; rewrite Hr in E2; lia. }
  assert (Hm2 : 0 <= shr_m mrs2) by (rewrite T1; apply Z.shiftr_nonneg; assumption).
  assert (B1 : Zdigits2 m1 <= 24).
  { destruct (Z.eq_dec m1 0) as [Z|NZ]; [rewrite Z; simpl; lia|].
    rewrite HA by lia. lia. }
  assert (V1 : m1 < 2 ^ 24) by (apply Zdigits2_lt_pow2; lia).
  assert (Le1 : e1 <= et) by lia.
  rewrite <- T2 in T1.
  destruct (shr_m mrs2) as [|p|p] eqn:M2; [reflexivity| |lia].
  assert (L2 : e2 <= et).
  { destruct (Z.eq_dec e1 et) as [Ee | Ne]; [|lia].
    specialize (Vm1 Ee).
    assert (U' : m1' < 2 ^ 24) by lia.
    assert (Zdigits2 m1' <= 24) by (apply Zdigits2_le_of_lt; lia). lia. }
  replace (e2 <=? F32.emax - F32.prec) with true
    by (symmetry; apply Z.leb_le; unfold F32.emax, F32.prec; lia).
  apply ge_finite_pos.
  destruct (Z.eq_dec e2 et) as [E2t | N2t]; [|left; lia].
  right. split; [symmetry; exact E2t|].
  destruct (Z.eq_dec e1 et) as [Ee | Ne].
  - specialize (Vm1 Ee). replace (e2 - e1) with 0 in T1 by lia.
    rewrite Z.shiftr_0_r in T1. lia.
  - assert (E1v : e2 = e1 + 1) by lia.
    assert (D25 : Zdigits2 m1' = 25) by lia.
    assert (P25 : 2 ^ 24 <= m1').
    { apply Zdigits2_lower; [|exact D25].
      destruct (Z.eq_dec m1' 0) as [Z|NZ]; [rewrite Z in D25; simpl in D25; lia | lia]. }
    assert (X : m1' = 2 ^ 24) by lia.
    rewrite X in T1. replace (e2 - e1) with 1 in T1 by lia.
    change (Z.shiftr (2 ^ 24) 1) with 8388608 in T1. lia.
Qed.

Lemma sqrt_core_value m e :
  let '(q, e', l) := SFsqrt_core_binary F32.prec F32.emax (Zpos m) e in
  0 < q
  /\ 2 * e' <= e
  /\ q * q <= Zpos m * 2 ^ (e - 2 * e')
  /\ e' <= fexp F32.prec F32.emax (Zdigits2 q + e').
Proof.
  pose proof (sqrt_core_spec m e) as S. revert S.
  unfold SFsqrt_core_binary.
  set (d := Zdigits2 (Zpos m)).
  set (e' := Z.min (fexp F32.prec F32.emax (Z.div2 (d + e + 1))) (Z.div2 e)).
  assert (He' : 2 * e' <= e).
  { unfold e'. rewrite !Z.div2_div. Z.div_mod_to_equations. lia. }
  clearbody e'.
  rewrite scaled_mantissa by lia.
  set (m' := Z.shiftl (Zpos m) (e - 2 * e')).
  assert (Pm' : 0 < m').
  { unfold m'. rewrite Z.shiftl_mul_pow2 by lia. apply Z.mul_pos_pos; [lia|].
    apply Z.pow_pos_nonneg; lia. }
  pose proof (Z.sqrtrem_sqrt m') as Hq.
  destruct (Z.sqrtrem m') as [q r]. simpl in Hq. subst q.
  intros (Q & _ & P). split; [exact Q|]. split; [exact He'|]. split; [|exact P].
  destruct (Z.sqrt_spec m') as [L _]; [lia|].
  assert (Em : m' = Zpos m * 2 ^ (e - 2 * e')) by (unfold m'; apply Z.shiftl_mul_pow2; lia).
  rewrite <- Em. exact L.
Qed.

Lemma square_lt_reflect a b : 0 <= a -> 0 <= b -> a * a < b * b -> a < b.
Proof. intros. nia. Qed.

(** The square root of a float below the square of a normal float [t]
    is at most [t]. *)
Lemma F32_sqrt_le_normal md ed mt et :
  F32.valid (S754_finite false mt et) = true ->
  Zdigits2 (Zpos mt) = 24 ->
  Zpos md * 2 ^ (ed - Z.min ed (2 * et))
  < Zpos mt * Zpos mt * 2 ^ (2 * et - Z.min ed (2 * et)) ->
  F32.ge (S754_finite false mt et) (F32.sqrt (S754_finite false md ed)) = true.
Proof.
  intros Vt Dt Hlt. unfold F32.sqrt, SFsqrt.
  pose proof (sqrt_core_value md ed) as H.
  destruct (SFsqrt_core_binary F32.prec F32.emax (Zpos md) ed) as [[q e'] l].
  destruct H as (Q & E & V & P).
  apply binary_round_aux_le_normal; [lia | exact P | exact Vt | exact Dt |].
  remember (Z.min ed (2 * et)) as z eqn:Ez.
  remember (Z.min e' et) as w eqn:Ew.
  assert (Pw1 : 0 <= q * 2 ^ (e' - w)).
  { apply Z.mul_nonneg_nonneg; [lia|]. apply Z.pow_nonneg. lia. }
  assert (Pw2 : 0 <= Zpos mt * 2 ^ (et - w)).
  { apply Z.mul_nonneg_nonneg; [lia|]. apply Z.pow_nonneg. lia. }
  apply square_lt_reflect; [exact Pw1 | exact Pw2 |].
  (* both squares, scaled to the exponent [2 * w] *)
  assert (Sq : q * 2 ^ (e' - w) * (q * 2 ^ (e' - w)) = q * q * 2 ^ (2 * e' - 2 * w)).
  { replace (2 * e' - 2 * w) with ((e' - w) + (e' - w)) by lia.
    rewrite Z.pow_add_r by lia. ring. }
  assert (St : Zpos mt * 2 ^ (et - w) * (Zpos mt * 2 ^ (et - w))
               = Zpos mt * Zpos mt * 2 ^ (2 * et - 2 * w)).
  { replace (2 * et - 2 * w) with ((et - w) + (et - w)) by lia.
    rewrite Z.pow_add_r by lia. ring. }
  rewrite Sq, St.
  assert (Zw : 2 * w <= z) by lia.
  assert (Pz : 0 < 2 ^ (z - 2 * w)) by (apply Z.pow_pos_nonneg; lia).
  assert (A1 : q * q * 2 ^ (2 * e' - 2 * w) <= Zpos md * 2 ^ (ed - 2 * w)).
  { replace (ed - 2 * w) with ((ed - 2 * e') + (2 * e' - 2 * w)) by lia.
    rewrite Z.pow_add_r by lia.
    assert (0 <= 2 ^ (2 * e' - 2 * w)) by (apply Z.pow_nonneg; lia).
    rewrite Z.mul_assoc. apply Z.mul_le_mono_nonneg_r; assumption. }
  assert (A2 : Zpos md * 2 ^ (ed - 2 * w)
               < Zpos mt * Zpos mt * 2 ^ (2 * et - 2 * w)).
  { replace (ed - 2 * w) with ((ed - z) + (z - 2 * w)) by lia.
    replace (2 * et - 2 * w) with ((2 * et - z) + (z - 2 * w)) by lia.
    rewrite !Z.pow_add_r by lia. rewrite !Z.mul_assoc.
    apply Z.mul_lt_mono_pos_r; assumption. }
  lia.
Qed.

Local Close Scope Z_scope.

Local Open Scope Z_scope.

Lemma OVERLAP_THRESHOLD_finite : OVERLAP_THRESHOLD = S754_finite false 13743895 (-37).
Proof. reflexivity. Qed.

Lemma OVERLAP_THRESHOLD_squared :
  F32.mul OVERLAP_THRESHOLD OVERLAP_THRESHOLD = S754_finite false 11258998 (-50).
Proof. reflexivity. Qed.

(** A squared distance below the squared threshold has a square root of
    at most the threshold: the single-precision square of the threshold
    is rounded down. *)
Lemma sqrt_below_threshold md ed :
  F32.valid (S754_finite false md ed) = true ->
  F32.lt (S754_finite false md ed) (F32.mul OVERLAP_THRESHOLD OVERLAP_THRESHOLD) = true ->
  F32.ge OVERLAP_THRESHOLD (F32.sqrt (S754_finite false md ed)) = true.
Proof.
  intros V L. rewrite OVERLAP_THRESHOLD_squared in L. rewrite OVERLAP_THRESHOLD_finite.
  apply lt_finite_pos in L.
  assert (L' : ed < -50 \/ (-50 = ed /\ Zpos md < 11258998)) by lia.
  pose proof (canonical_order 11258998 (-50) md ed eq_refl V L') as O. cbv zeta in O.
  assert (Ez : Z.min (-50) ed = ed) by lia.
  rewrite Ez, Z.sub_diag, Z.pow_0_r, Z.mul_1_r in O.
  apply F32_sqrt_le_normal; [reflexivity | reflexivity |].
  change (2 * -37) with (-74).
  assert (K : 11258998 * 2 ^ 24 <= 13743895 * 13743895) by (vm_compute; discriminate).
  destruct (Z.le_gt_cases ed (-74)) as [Lo | Hi].
  - replace (Z.min ed (-74)) with ed by lia.
    rewrite Z.sub_diag, Z.pow_0_r, Z.mul_1_r.
    assert (S : 2 ^ (-50 - ed) = 2 ^ 24 * 2 ^ (-74 - ed)).
    { rewrite <- Z.pow_add_r by lia. f_equal. lia. }
    assert (P0 : 0 < 2 ^ (-74 - ed)) by (apply Z.pow_pos_nonneg; lia).
    rewrite S in O. clear - O K P0. nia.
  - replace (Z.min ed (-74)) with (-74) by lia.
    replace (-74 - -74) with 0 by lia. rewrite Z.pow_0_r, Z.mul_1_r.
    assert (S : 2 ^ (-50 - ed) * 2 ^ (ed - -74) = 2 ^ 24).
    { rewrite <- Z.pow_add_r by lia. f_equal. lia. }
    assert (P0 : 0 < 2 ^ (ed - -74)) by (apply Z.pow_pos_nonneg; lia).
    assert (M : Zpos md * 2 ^ (ed - -74) < 11258998 * 2 ^ (-50 - ed) * 2 ^ (ed - -74)).
    { apply Z.mul_lt_mono_pos_r; assumption. }
    rewrite <- Z.mul_assoc, S in M. lia.
Qed.

(** [1 - x / t] for a non-negative [x] and a positive normal [t] with
    [x <= t] and [t / t = 1]. *)
Lemma one_minus_quotient_unit x mt et :
  F32.valid x = true -> nonNegative x = true ->
  F32.valid (S754_finite false mt et) = true ->
  F32.div (S754_finite false mt et) (S754_finite false mt et) = F32.one ->
  F32.ge (S754_finite false mt et) x = true ->
  let s := F32.sub F32.one (F32.div x (S754_finite false mt et)) in
  F32.ge s F32.zero = true /\ F32.ge F32.one s = true.
Proof.
  intros V N Vt Dt G s. unfold s. clear s.
  destruct x as [sx|[|]| |[|] mx ex]; try discriminate.
  - destruct sx; split; reflexivity.
  - assert (U : F32.ge F32.one (F32.div (S754_finite false mx ex) (S754_finite false mt et))
                = true).
    { apply ge_finite_pos in G.
      destruct (Z.eq_dec ex et) as [Ee | Ne].
      - destruct (Z.eq_dec (Zpos mx) (Zpos mt)) as [Em | Nm].
        + injection Em as ->. subst ex. rewrite Dt. reflexivity.
        + apply F32_div_lt_le_one; [exact V | exact Vt |].
          apply lt_finite_pos. lia.
      - apply F32_div_lt_le_one; [exact V | exact Vt |].
        apply lt_finite_pos. lia. }
    apply F32_one_minus_unit; [apply F32_div_valid | | exact U].
    apply nonNegative_ge_zero; [|now apply ge_one_not_nan].
    now apply F32_div_nonNegative.
Qed.

Lemma F32_add_nonNegative x y :
  nonNegative x = true -> nonNegative y = true -> nonNegative (F32.add x y) = true.
Proof.
  unfold F32.add, SFadd.
  destruct x as [sx|sx| |sx mx ex], y as [sy|sy| |sy my ey]; simpl; intros Nx Ny;
    try reflexivity; try assumption;
    try (destruct sx, sy; try discriminate; reflexivity).
  destruct sx, sy; try discriminate.
  apply binary_normalize_nonNegative. simpl. lia.
Qed.

Lemma F32_square_nonNegative d : nonNegative (F32.mul d d) = true.
Proof.
  unfold F32.mul, SFmul. destruct d as [s|s| |s m e]; simpl; try reflexivity;
    destruct s; try reflexivity; simpl; apply binary_round_aux_nonNegative.
Qed.

Lemma squaredDistance_nonNegative p q : nonNegative (squaredDistance p q) = true.
Proof.
  unfold squaredDistance. cbv zeta.
  repeat apply F32_add_nonNegative; apply F32_square_nonNegative.
Qed.

Lemma overlap_severity_unit m p q :
  validMesh m ->
  overlaps (vertexAt m p) (vertexAt m q) = true ->
  F32.ge (severity (overlapIssue m p q)) F32.zero = true
  /\ F32.ge F32.one (severity (overlapIssue m p q)) = true.
Proof.
  intros V O. unfold overlaps in O. cbn [severity overlapIssue].
  pose proof (squaredDistance_valid _ _ (vertexAt_valid m p V) (vertexAt_valid m q V)) as Vd.
  pose proof (squaredDistance_nonNegative (vertexAt m p) (vertexAt m q)) as Nd.
  set (d := squaredDistance (vertexAt m p) (vertexAt m q)) in *. clearbody d.
  assert (G : F32.ge OVERLAP_THRESHOLD (F32.sqrt d) = true).
  { destruct d as [s|[|]| |[|] md ed]; try discriminate.
    - destruct s; reflexivity.
    - now apply sqrt_below_threshold. }
  rewrite OVERLAP_THRESHOLD_finite in *.
  apply one_minus_quotient_unit;
    [apply F32_sqrt_valid | apply F32_sqrt_nonNegative | reflexivity | reflexivity | exact G].
Qed.

Local Close Scope Z_scope.

Local Open Scope Z_scope.

Lemma round_aux_sign prec emax m e l :
  nonNegative (binary_round_aux prec emax false m e l) = true.
Proof.
  unfold binary_round_aux. destruct (shr_fexp _ _ _ _ _) as [mrs' e'].
  destruct (shr_fexp _ _ _ _ _) as [mrs'' e''].
  destruct (shr_m mrs''); try reflexivity.
  destruct (Z.leb _ _); reflexivity.
Qed.

Lemma normalize_sign prec emax m e :
  0 <= m -> nonNegative (binary_normalize prec emax m e false) = true.
Proof.
  destruct m; simpl; intros H; [reflexivity | | lia].
  unfold binary_round. destruct (shl_align _ _ _) as [mz ez]. apply round_aux_sign.
Qed.

Lemma F32_mul_nonNegative x my ey :
  nonNegative x = true -> nonNegative (F32.mul x (S754_finite false my ey)) = true.
Proof.
  unfold F32.mul, SFmul. destruct x as [sx|sx| |sx mx ex]; simpl; intros N;
    try reflexivity.
  - rewrite xorb_false_r. exact N.
  - destruct sx; [discriminate|]. apply round_aux_sign.
Qed.

Lemma F64_of_float_nonNegative x : nonNegative x = true -> nonNegative (F64.of_float x) = true.
Proof.
  destruct x as [s|s| |s m e]; simpl; intros N; try reflexivity; try assumption.
  destruct s; [discriminate|]. apply normalize_sign. simpl. lia.
Qed.

Lemma F64_div_pi_nonNegative x :
  nonNegative x = true -> nonNegative (F64.div x F64.M_PI) = true.
Proof.
  unfold F64.div, F64.M_PI, SFdiv. destruct x as [sx|sx| |sx mx ex]; simpl; intros N;
    try reflexivity.
  - rewrite xorb_false_r. exact N.
  - destruct sx; [discriminate|]. simpl.
    destruct (SFdiv_core_binary _ _ _ _ _ _) as [[q e'] l]. apply round_aux_sign.
Qed.

Lemma F64_to_float_nonNegative x : nonNegative x = true -> nonNegative (F64.to_float x) = true.
Proof.
  destruct x as [s|s| |s m e]; simpl; intros N; try reflexivity; try assumption.
  destruct s; [discriminate|]. apply normalize_sign. simpl. lia.
Qed.

Lemma F64_to_float_valid x : F32.valid (F64.to_float x) = true.
Proof.
  destruct x as [s|s| |s m e]; try reflexivity. apply binary_normalize_valid.
Qed.

Lemma degrees_valid (acosf : float -> float) d : F32.valid (degrees acosf d) = true.
Proof. unfold degrees. apply F64_to_float_valid. Qed.

Lemma degrees_nonNegative (acosf : float -> float) d :
  nonNegative (acosf d) = true -> nonNegative (degrees acosf d) = true.
Proof.
  intros N. unfold degrees.
  apply F64_to_float_nonNegative, F64_div_pi_nonNegative, F64_of_float_nonNegative.
  change (F32.of_Z 180) with (S754_finite false 11796480 (-16)).
  now apply F32_mul_nonNegative.
Qed.

(** [1 - x / t] for a non-negative [x] below a positive float [t]. *)
Lemma one_minus_quotient_below x mt et :
  F32.valid x = true -> nonNegative x = true ->
  F32.valid (S754_finite false mt et) = true ->
  F32.lt x (S754_finite false mt et) = true ->
  let s := F32.sub F32.one (F32.div x (S754_finite false mt et)) in
  F32.ge s F32.zero = true /\ F32.ge F32.one s = true.
Proof.
  intros V N Vt L s. unfold s. clear s.
  destruct x as [sx|[|]| |[|] mx ex]; try discriminate.
  - destruct sx; split; reflexivity.
  - pose proof (F32_div_lt_le_one mx ex mt et V Vt L) as U.
    apply F32_one_minus_unit; [apply F32_div_valid | | exact U].
    apply nonNegative_ge_zero; [|now apply ge_one_not_nan].
    now apply F32_div_nonNegative.
Qed.

Local Close Scope Z_scope.

Section Remaining.

Variable acosf : float -> float.

(** The two remaining severities are normalized as well.  For a mesh of
    valid floats the severity of an overlapping-vertices issue lies in
    [0, 1]: the square root of a squared distance below the squared
    threshold does not exceed the threshold.  When [std::acos] returns
    no negative number, as its range [0, pi] has it, the severity of a
    sharp-angle issue lies in [0, 1]. *)
Theorem overlap_and_sharp_severities_in_unit_range m a i :
  let final := analyzeQuality acosf m a in
  validMesh m ->
  (forall d, nonNegative (acosf d) = true) ->
  In i (getIssues final) ->
  type i = OVERLAPPING_VERTICES \/ type i = SHARP_ANGLE ->
  F32.ge (severity i) F32.zero = true /\ F32.ge F32.one (severity i) = true.
Proof.
  intros final V A Hin Ht. unfold getIssues, final in Hin.
  apply issue_of_run_cases in Hin.
  destruct Hin as [(f & Hf & P & ->) | [(f & Hf & P & ->) | [(e & He & P & ->) |
                   [(vn & _ & Hv) | [Hov | [(f & Hf & P & ->) | [(f & Hf & P & ->) |
                   (e & He & P & ->)]]]]]]];
    try (simpl in Ht; exfalso; intuition discriminate).
  - exfalso. unfold valenceIssues in Hv. apply in_app_or in Hv.
    destruct Hv as [Hv | Hv];
      [destruct (isLowValence vn) | destruct (isHighValence vn)];
      simpl in Hv; try contradiction; destruct Hv as [<- | []];
      simpl in Ht; intuition discriminate.
  - apply overlapIssues_In in Hov. destruct Hov as (p & q & _ & _ & O & ->).
    now apply overlap_severity_unit.
  - unfold isSharp in P. apply andb_prop in P. destruct P as [_ L].
    cbn [severity sharpIssue]. unfold edgeAngle, calculateDihedralAngle in *. cbv zeta in *.
    change SHARP_ANGLE_THRESHOLD with (S754_finite false 15728640 (-19)) in *.
    apply one_minus_quotient_below;
      [apply degrees_valid | apply degrees_nonNegative, A | reflexivity | exact L].
Qed.

End Remaining.

Lemma acos_sample_nonNegative d : nonNegative (acos_sample d) = true.
Proof.
  unfold acos_sample. destruct (SFeqb d F32.one); [reflexivity|].
  destruct (SFeqb d (F32.neg F32.one)); reflexivity.
Qed.

Lemma twoCoincident_valid : validMesh twoCoincident.
Proof. repeat constructor. Qed.

Lemma overlap_and_sharp_severities_in_unit_range_witness :
  let final := analyzeQuality acos_sample twoCoincident (MeshQualityAnalyzer F32.half) in
  let i := overlapIssue twoCoincident 0 1 in
  validMesh twoCoincident
  /\ In i (getIssues final)
  /\ F32.ge (severity i) F32.zero = true /\ F32.ge F32.one (severity i) = true.
Proof.
  intros final i.
  assert (Hin : In i (getIssues final)) by (vm_compute; left; reflexivity).
  split; [exact twoCoincident_valid|]. split; [exact Hin|].
  exact (overlap_and_sharp_severities_in_unit_range acos_sample twoCoincident
           (MeshQualityAnalyzer F32.half) i twoCoincident_valid acos_sample_nonNegative
           Hin (or_introl eq_refl)).
Defined.

(** * The report of the viewer *)

Lemma filter_length_le {A : Type} (p : A -> bool) (l : list A) :
  length (filter p l) <= length l.
Proof.
  induction l as [|x l IH]; simpl; [lia|]. destruct (p x); simpl; lia.
Qed.

Lemma issueCounts_entry a t c :
  In (t, c) (issueCounts a) -> c = Z.of_nat (length (getIssuesByType a t)).
Proof.
  rewrite issueCounts_table. intros H. apply in_map_iff in H.
  destruct H as (t' & E & _). now injection E as -> <-.
Qed.

Section Viewer.

Variable acosf : float -> float.

(** The report the viewer shows for a mesh is consistent: after the one
    run on a fresh analyzer that [analyze_cb] performs, the metrics
    lines "Degenerate faces" and "Non-manifold edges" carry the numbers
    of issues of these two types, which are the counts the issue section
    lists for them.  Stated for fewer than 2^31 issues. *)
Theorem viewer_report_is_consistent m :
  let a := analyze_cb_mesh acosf m in
  (Z.of_nat (length (getIssues a)) < 2 ^ 31)%Z ->
  degenerateFaceCount (getMetrics a)
  = Z.of_nat (length (getIssuesByType a DEGENERATE_FACE))
  /\ nonManifoldEdgeCount (getMetrics a)
     = Z.of_nat (length (getIssuesByType a NON_MANIFOLD_EDGE))
  /\ (forall c, In (DEGENERATE_FACE, c) (issueCounts a) ->
                c = degenerateFaceCount (getMetrics a))
  /\ (forall c, In (NON_MANIFOLD_EDGE, c) (issueCounts a) ->
                c = nonManifoldEdgeCount (getMetrics a)).
Proof.
  intros a B.
  destruct (counters_follow_issues acosf m (MeshQualityAnalyzer F32.half)) as [D N].
  cbv zeta in D, N. fold (analyze_cb_mesh acosf m) in D, N. fold a in D, N.
  assert (Small : forall t, (Z.of_nat (length (getIssuesByType a t)) < 2 ^ 31)%Z).
  { intros t. rewrite getIssuesByType_filter.
    pose proof (filter_length_le (byType t) (issues a)). unfold getIssues in B. lia. }
  assert (Iter : forall n, (Z.of_nat n < 2 ^ 31)%Z ->
                           Nat.iter n size_t_incr 0%Z = Z.of_nat n).
  { intros n Hn. rewrite size_t_incr_iter by (unfold SIZE_MOD; lia).
    rewrite Z.add_0_l. apply Z.mod_small. unfold SIZE_MOD.
    assert ((2 ^ 31 < 2 ^ 64)%Z) by reflexivity. lia. }
  assert (D' : degenerateFaceCount (getMetrics a)
               = Z.of_nat (length (getIssuesByType a DEGENERATE_FACE))).
  { rewrite D. apply Iter, Small. }
  assert (N' : nonManifoldEdgeCount (getMetrics a)
               = Z.of_nat (length (getIssuesByType a NON_MANIFOLD_EDGE))).
  { rewrite N. apply Iter, Small. }
  split; [exact D'|]. split; [exact N'|]. split.
  - intros c H. rewrite D'. now apply issueCounts_entry.
  - intros c H. rewrite N'. now apply issueCounts_entry.
Qed.

End Viewer.

Lemma viewer_report_is_consistent_witness :
  let a := analyze_cb_mesh acos_sample fan3 in
  (Z.of_nat (length (getIssues a)) < 2 ^ 31)%Z
  /\ nonManifoldEdgeCount (getMetrics a)
     = Z.of_nat (length (getIssuesByType a NON_MANIFOLD_EDGE)).
Proof.
  intros a.
  assert (B : (Z.of_nat (length (getIssues a)) < 2 ^ 31)%Z) by (vm_compute; reflexivity).
  split; [exact B|].
  exact (proj1 (proj2 (viewer_report_is_consistent acos_sample fan3 B))).
Defined.

(** * Counting the entries of the edge map *)

Lemma edgeFaceMap_push_spanCount key f efm :
  spanCount (edgeFaceMap_push key f efm) = S (spanCount efm).
Proof.
  unfold spanCount. induction efm as [|[k fs] rest IH]; simpl; [reflexivity|].
  destruct (Edge_compare key k); simpl.
  - rewrite length_app. simpl. lia.
  - reflexivity.
  - rewrite IH. lia.
Qed.

Lemma walkFace_spanCount t f :
  spanCount (fst (walkFace t f)) = spanCount (fst t) + length (vertexIndices (snd f)).
Proof.
  unfold walkFace.
  assert (H : forall l t, spanCount (fst (fold_left (walkEdge (fst f) (vertexIndices (snd f)))
                                                   l t))
                          = spanCount (fst t) + length l).
  { induction l as [|i l IH]; intros t'; simpl; [lia|].
    rewrite IH, walkEdge_fst, edgeFaceMap_push_spanCount. lia. }
  rewrite H, length_seq. reflexivity.
Qed.

Lemma walkFaces_spanCount (l : list (nat * Face)) : forall t,
  spanCount (fst (fold_left walkFace l t))
  = spanCount (fst t) + list_sum (map (fun f => length (vertexIndices (snd f))) l).
Proof.
  induction l as [|f l IH]; intros t; simpl; [lia|].
  rewrite IH, walkFace_spanCount. lia.
Qed.

Lemma map_snd_indexed {A B : Type} (g : A -> B) (l : list A) : forall s,
  map (fun f => g (snd f)) (combine (seq s (length l)) l) = map g l.
Proof.
  induction l as [|x l IH]; intros s; simpl; [reflexivity|]. now rewrite IH.
Qed.

Lemma spanCount_keys efm :
  Forall (fun p => snd p <> []) efm -> length efm <= spanCount efm.
Proof.
  unfold spanCount. induction 1 as [|[k fs] rest H _ IH]; simpl; [lia|].
  destruct fs; [contradiction | simpl in *; lia].
Qed.

Lemma spanCount_manifold efm :
  Forall (fun p => length (snd p) = 2) efm -> spanCount efm = 2 * length efm.
Proof.
  unfold spanCount. induction 1 as [|[k fs] rest H _ IH]; simpl; [reflexivity|].
  simpl in H. lia.
Qed.

(** Every ring position of every face leaves exactly one face entry in
    the edge map: the entries add up to the sum of the face sizes, and
    there are at most that many edges.  Hence in a mesh all of whose
    edges have exactly two faces, twice the number of edges is the sum
    of the face sizes (three times the number of faces for
    triangles). *)
Theorem edge_map_counts_ring_positions m a :
  let efm := edgeFaceMap (buildTopology m a) in
  let corners := list_sum (map (fun f => length (vertexIndices f)) (getFaces m)) in
  spanCount efm = corners
  /\ length efm <= corners
  /\ (Forall (fun p => length (snd p) = 2) efm -> 2 * length efm = corners).
Proof.
  intros efm corners.
  assert (S : spanCount efm = corners).
  { unfold efm, buildTopology. simpl. rewrite walkFaces_spanCount. simpl.
    unfold indexed, corners.
    now rewrite (map_snd_indexed (fun f => length (vertexIndices f)) (getFaces m) 0). }
  split; [exact S|]. split.
  - rewrite <- S. apply spanCount_keys, buildTopology_nonempty.
  - intros M. rewrite <- S. symmetry. now apply spanCount_manifold.
Qed.
